(** * The recording driver of asciinema-player (src/driver/recording.js)

    A shallow embedding of the playback driver: frame batching
    ([batchFrames]), idle-time compression ([prepareFrames]) and the
    playback engine returned by [recording] ([init], [play], [pause],
    [seek], [step], [getPoster], [getCurrentTime], together with the
    internal [resume], [scheduleNextFrame] and [runFrame]).

    Conventions of the embedding.
    - JavaScript numbers are modelled as exact rationals [Q]; the value
      [Infinity] of [idleTimeLimit] is a constructor of its own.  The
      rationals compute exactly where binary64 rounds.  The statements
      about the engine are made with the expressions and the comparisons
      the source evaluates.  The bounds of the idle-time compression, which
      rounding breaks, are stated for numbers between which binary64
      computes exactly ([on_grid]); for them [prepareFrames] is embedded a
      second time, over the binary64 numbers of the kernel (module [B64]).
    - A frame [[t, data]] is a pair of a time and a string.
    - The closure variables of [recording] are the fields of the record
      [engine]; the collaborators [feed] and [setState] append to an event
      trace kept in the same record, [now] reads an arbitrary clock. *)

From Stdlib Require Import QArith List String Ascii Bool Arith Lia Lqa.
From Stdlib Require Import PrimFloat.
From Stdlib Require SpecFloat FloatOps.
Import ListNotations.

Local Open Scope Q_scope.

(** ** Numbers *)

Module Num.

(** [x < y] as the boolean test the source evaluates. *)
Definition ltb (x y : Q) : bool := negb (Qle_bool y x).

(** [Math.max] and [Math.min] on two numbers. *)
Definition max (x y : Q) : Q := if ltb x y then y else x.
Definition min (x y : Q) : Q := if ltb y x then y else x.

(** A counter such as [playCount] read as a number. *)
Definition of_nat (n : nat) : Q := inject_Z (Z.of_nat n).

End Num.

(** ** Frames *)

(** A frame is the two-element array [[time, data]]. *)
Definition frame : Type := (Q * string)%type.

(** [e[0]] *)
Definition time (e : frame) : Q := fst e.
(** [e[1]] *)
Definition payload (e : frame) : string := snd e.

(** All payloads of a frame list, joined in order. *)
Definition joined (l : list frame) : string :=
  fold_right (fun e acc => (payload e ++ acc)%string) EmptyString l.

(** Non-decreasing times. *)
Fixpoint sorted_from (t : Q) (l : list frame) : Prop :=
  match l with
  | [] => True
  | e :: l' => t <= time e /\ sorted_from (time e) l'
  end.

Definition sorted (l : list frame) : Prop :=
  match l with
  | [] => True
  | e :: l' => sorted_from (time e) l'
  end.

(** ** Streams *)

Module Stream.

(** Modelled from the spec: the class [Stream] of [../stream] is not
    among the sources.  A stream is a finite ordered sequence that is
    consumed once; [transform] runs a transducer over it, calling [step]
    on every element in order and [flush] at the end of the stream, and
    yields what the transducer emitted, in emission order. *)
Record transducer (A B S : Type) : Type := {
  step : S -> A -> S * list B;
  flush : S -> S * list B
}.
Arguments step {A B S} _ _ _.
Arguments flush {A B S} _ _.

Fixpoint transform {A B S : Type} (xf : transducer A B S) (s : S) (l : list A)
  : S * list B :=
  match l with
  | [] => flush xf s
  | a :: l' =>
      let (s1, out1) := step xf s a in
      let (s2, out2) := transform xf s1 l' in
      (s2, out1 ++ out2)
  end.

(** Modelled from the spec: [map] of the missing class [Stream], applied
    to a callback that reads and writes variables of the enclosing
    function; the callback runs once per element, in order. *)
Fixpoint map_with {A B S : Type} (f : S -> A -> S * B) (s : S) (l : list A)
  : S * list B :=
  match l with
  | [] => (s, [])
  | a :: l' =>
      let (s1, b) := f s a in
      let (s2, bs) := map_with f s1 l' in
      (s2, b :: bs)
  end.

End Stream.

(** ** batchFrames *)

(** The variables of [batchFrames]: the buffered frame and the two counters
    of the diagnostic. *)
Record batcher : Type := {
  prevFrame : option frame;
  ic : nat;
  oc : nat
}.

Definition default_minFrameTime : Q := 1 # 60.

(** [step] of the transducer.  The source appends to the payload of the
    buffered frame in place ([prevFrame[1] += frame[1]]); the frame objects
    of the input are not read again afterwards, so the buffered frame is
    modelled as a value. *)
Definition batch_step (minFrameTime : Q) (b : batcher) (fr : frame)
  : batcher * list frame :=
  let ic' := S (ic b) in
  match prevFrame b with
  | None => ({| prevFrame := Some fr; ic := ic'; oc := oc b |}, [])
  | Some prev =>
      if Num.ltb (time fr - time prev) minFrameTime
      then ({| prevFrame := Some (time prev, (payload prev ++ payload fr)%string);
               ic := ic'; oc := oc b |}, [])
      else ({| prevFrame := Some fr; ic := ic'; oc := S (oc b) |}, [prev])
  end.

(** [flush] of the transducer. *)
Definition batch_flush (b : batcher) : batcher * list frame :=
  match prevFrame b with
  | Some prev => ({| prevFrame := Some prev; ic := ic b; oc := S (oc b) |}, [prev])
  | None => (b, [])
  end.

Definition batch_xf (minFrameTime : Q) : Stream.transducer frame frame batcher :=
  {| Stream.step := batch_step minFrameTime; Stream.flush := batch_flush |}.

Definition batch_from (minFrameTime : Q) (b : batcher) (frames : list frame)
  : batcher * list frame :=
  Stream.transform (batch_xf minFrameTime) b frames.

Definition batch_start : batcher := {| prevFrame := None; ic := 0; oc := 0 |}.

(** The default of the parameter [minFrameTime = 1.0 / 60]; an absent
    argument is [None]. *)
Definition min_frame_time (minFrameTime : option Q) : Q :=
  match minFrameTime with Some m => m | None => default_minFrameTime end.

(** [batchFrames(frames, logger, minFrameTime = 1.0 / 60)] *)
Definition batchFrames (frames : list frame) (minFrameTime : option Q) : list frame :=
  snd (batch_from (min_frame_time minFrameTime) batch_start frames).

(** The two numbers of the message handed to [logger.debug]. *)
Definition batch_counts (frames : list frame) (minFrameTime : option Q) : nat * nat :=
  let b := fst (batch_from (min_frame_time minFrameTime) batch_start frames) in
  (ic b, oc b).

(** ** prepareFrames *)

(** [idleTimeLimit]: a number of seconds or [Infinity]. *)
Inductive idle_limit : Type :=
| Limit (q : Q)
| Infinity.

(** The value of [delay - idleTimeLimit]. *)
Inductive excess : Type :=
| Finite (q : Q)
| MinusInfinity.

Definition minus_limit (delay : Q) (l : idle_limit) : excess :=
  match l with
  | Limit q => Finite (delay - q)
  | Infinity => MinusInfinity
  end.

(** [delta > 0] *)
Definition is_positive (d : excess) : option Q :=
  match d with
  | Finite q => if Num.ltb 0 q then Some q else None
  | MinusInfinity => None
  end.

(** The variables of [prepareFrames] that the callback of [map] updates. *)
Record compressor : Type := {
  prevT : Q;
  shift : Q;
  c_effectiveStartAt : Q
}.

Definition compress_frame (idleTimeLimit : idle_limit) (startAt : Q)
    (c : compressor) (e : frame) : compressor * frame :=
  let delay := time e - prevT c in
  let delta := minus_limit delay idleTimeLimit in
  let c' :=
    match is_positive delta with
    | Some d =>
        {| prevT := time e;
           shift := shift c + d;
           c_effectiveStartAt :=
             if Num.ltb (time e) startAt
             then c_effectiveStartAt c - d
             else c_effectiveStartAt c |}
    | None =>
        {| prevT := time e; shift := shift c;
           c_effectiveStartAt := c_effectiveStartAt c |}
    end in
  (c', (time e - shift c', payload e)).

Record prepared : Type := {
  p_frames : list frame;
  p_effectiveStartAt : Q
}.

(** A missing number read as zero: the default [startAt = 0], and
    [pauseElapsedTime ?? 0]. *)
Definition or_zero (v : option Q) : Q :=
  match v with Some q => q | None => 0 end.

(** The default of the parameter [idleTimeLimit = Infinity]. *)
Definition or_infinity (v : option idle_limit) : idle_limit :=
  match v with Some l => l | None => Infinity end.

(** The [map] of [prepareFrames] over the batched frames, from [let prevT =
    0; let shift = 0; let effectiveStartAt = startAt]. *)
Definition compress (idleTimeLimit : idle_limit) (startAt : Q) (batched : list frame)
  : compressor * list frame :=
  Stream.map_with (compress_frame idleTimeLimit startAt)
    {| prevT := 0; shift := 0; c_effectiveStartAt := startAt |} batched.

(** [prepareFrames(frames, logger, idleTimeLimit = Infinity, startAt = 0,
    minFrameTime)]; an absent argument is [None]. *)
Definition prepareFrames (frames : list frame) (idleTimeLimit : option idle_limit)
    (startAt : option Q) (minFrameTime : option Q) : prepared :=
  let (c, fs) := compress (or_infinity idleTimeLimit) (or_zero startAt)
                   (batchFrames frames minFrameTime) in
  {| p_frames := fs; p_effectiveStartAt := c_effectiveStartAt c |}.

(** ** prepareFrames in binary64 *)

(** The numbers of the source are binary64 numbers, and its subtractions
    and additions round.  [B64] embeds [batchFrames] and [prepareFrames]
    once more, over the binary64 numbers of the kernel, whose operations
    round as those of the source do; the diagnostic counters of
    [batchFrames] are left out. *)
Module B64.

Definition frame : Type := (float * string)%type.

Definition time (e : frame) : float := fst e.

Definition payload (e : frame) : string := snd e.

(** [step] of the transducer of [batchFrames]. *)
Definition batch_step (minFrameTime : float) (prevFrame : option frame) (fr : frame)
  : option frame * list frame :=
  match prevFrame with
  | None => (Some fr, [])
  | Some prev =>
      if PrimFloat.ltb (PrimFloat.sub (time fr) (time prev)) minFrameTime
      then (Some (time prev, (payload prev ++ payload fr)%string), [])
      else (Some fr, [prev])
  end.

(** [flush] of the transducer. *)
Definition batch_flush (prevFrame : option frame) : option frame * list frame :=
  match prevFrame with
  | Some prev => (prevFrame, [prev])
  | None => (prevFrame, [])
  end.

(** [1.0 / 60] *)
Definition default_minFrameTime : float := PrimFloat.div 1 60.

Definition min_frame_time (minFrameTime : option float) : float :=
  match minFrameTime with Some m => m | None => default_minFrameTime end.

Definition batchFrames (frames : list frame) (minFrameTime : option float)
  : list frame :=
  snd (Stream.transform
         {| Stream.step := batch_step (min_frame_time minFrameTime);
            Stream.flush := batch_flush |}
         None frames).

Record compressor : Type := {
  prevT : float;
  shift : float;
  c_effectiveStartAt : float
}.

(** The callback of [map] in [prepareFrames]; [delay - Infinity] is minus
    infinity, which is not greater than 0. *)
Definition compress_frame (idleTimeLimit startAt : float) (c : compressor) (e : frame)
  : compressor * frame :=
  let delay := PrimFloat.sub (time e) (prevT c) in
  let delta := PrimFloat.sub delay idleTimeLimit in
  let c' :=
    if PrimFloat.ltb 0 delta then
      {| prevT := time e;
         shift := PrimFloat.add (shift c) delta;
         c_effectiveStartAt :=
           if PrimFloat.ltb (time e) startAt
           then PrimFloat.sub (c_effectiveStartAt c) delta
           else c_effectiveStartAt c |}
    else
      {| prevT := time e; shift := shift c;
         c_effectiveStartAt := c_effectiveStartAt c |} in
  (c', (PrimFloat.sub (time e) (shift c'), payload e)).

Record prepared : Type := {
  p_frames : list frame;
  p_effectiveStartAt : float
}.

(** [prepareFrames(frames, logger, idleTimeLimit = Infinity, startAt = 0,
    minFrameTime)]; an absent argument is [None]. *)
Definition prepareFrames (frames : list frame) (idleTimeLimit startAt : option float)
    (minFrameTime : option float) : prepared :=
  let limit := match idleTimeLimit with Some l => l | None => PrimFloat.infinity end in
  let start := match startAt with Some s => s | None => 0%float end in
  let (c, fs) := Stream.map_with (compress_frame limit start)
                   {| prevT := 0; shift := 0; c_effectiveStartAt := start |}
                   (batchFrames frames minFrameTime) in
  {| p_frames := fs; p_effectiveStartAt := c_effectiveStartAt c |}.

Definition times (l : list frame) : list float := map time l.

(** Non-decreasing times, as [<=] of the source decides it. *)
Fixpoint sorted_from (t : float) (l : list frame) : bool :=
  match l with
  | [] => true
  | e :: l' => PrimFloat.leb t (time e) && sorted_from (time e) l'
  end.

Definition sorted (l : list frame) : bool :=
  match l with
  | [] => true
  | e :: l' => sorted_from (time e) l'
  end.

(** Each time of [out] comes at least 0 and at most [limit] after the one
    before it, the first of them after [t0]; the difference is the one the
    source would compute. *)
Fixpoint gaps_within (limit : float) (t0 : float) (out : list float) : bool :=
  match out with
  | [] => true
  | t :: out' =>
      PrimFloat.leb 0 (PrimFloat.sub t t0)
      && PrimFloat.leb (PrimFloat.sub t t0) limit
      && gaps_within limit t out'
  end.

Definition gaps_ok (limit : float) (out : list float) : bool :=
  match out with
  | [] => true
  | t :: out' => gaps_within limit t out'
  end.

(** The rational number a finite binary64 number is, in lowest terms. *)
Definition value (x : float) : option Q :=
  match FloatOps.Prim2SF x with
  | SpecFloat.S754_zero _ => Some 0
  | SpecFloat.S754_finite s m e =>
      let q := inject_Z (Z.pos m) * Qpower 2 e in
      Some (Qred (if s then - q else q))
  | _ => None
  end.


End B64.

(** ** Numbers between which binary64 computes exactly *)

(** The integer multiples of [2^-k] of magnitude below [2^(50-k)], for [k]
    up to 1000, are binary64 numbers, and so are the sums and differences
    of a few of them: binary64 adds and subtracts such numbers without
    rounding, and [Q] computes what the source computes.  For [k = 0] they
    are the integers of magnitude below [2^50]. *)
Definition on_grid (k : nat) (x : Q) : bool :=
  let y := Qred (x * inject_Z (2 ^ Z.of_nat k)) in
  Pos.eqb (Qden y) 1 && Z.ltb (Z.abs (Qnum y)) (2 ^ 50).

(** The times of a frame list, a limit, a start offset on one grid. *)
Definition times_on_grid (k : nat) (l : list frame) : bool :=
  forallb (fun e => on_grid k (time e)) l.

Definition limit_on_grid (k : nat) (l : idle_limit) : bool :=
  match l with Limit q => on_grid k q | Infinity => true end.

Definition exact_inputs (k : nat) (fs : list frame) (limit : idle_limit) : Prop :=
  (k <= 1000)%nat
  /\ times_on_grid k fs = true
  /\ limit_on_grid k limit = true.

(** An integer multiple of [2^-k] of magnitude at most [2^(53-k)]: for [k]
    up to 1000 a binary64 number.  A binary64 operation whose exact result
    is a binary64 number returns that number. *)
Definition multiple_of (k : nat) (x : Q) : Prop :=
  exists z : Z, x * inject_Z (2 ^ Z.of_nat k) == inject_Z z.

Definition binary64_multiple (k : nat) (x : Q) : Prop :=
  exists z : Z,
    x * inject_Z (2 ^ Z.of_nat k) == inject_Z z /\ (Z.abs z <= 2 ^ 53)%Z.

(** The bound of the grid, [2^(50-k)]. *)
Definition grid_bound (k : nat) : Q :=
  inject_Z (2 ^ 50) / inject_Z (2 ^ Z.of_nat k).

(** The numbers the callback of [map] in [prepareFrames] computes for the
    frame [e]: [delay], [delta] when the limit is a number, and, once
    [shift] is updated, [shift] and the adjusted time [e[0] - shift]. *)
Definition callback_values (idleTimeLimit : idle_limit) (startAt : Q)
    (c : compressor) (e : frame) : list Q :=
  let c' := fst (compress_frame idleTimeLimit startAt c e) in
  (time e - prevT c)
  :: match minus_limit (time e - prevT c) idleTimeLimit with
     | Finite d => [d]
     | MinusInfinity => []
     end
  ++ [shift c'; time e - shift c'].

(** Those numbers for all the frames of [l], in order. *)
Fixpoint computed_values (idleTimeLimit : idle_limit) (startAt : Q)
    (c : compressor) (l : list frame) : list Q :=
  match l with
  | [] => []
  | e :: l' =>
      callback_values idleTimeLimit startAt c e
      ++ computed_values idleTimeLimit startAt
           (fst (compress_frame idleTimeLimit startAt c e)) l'
  end.

(** The values [effectiveStartAt] takes, frame after frame. *)
Fixpoint offset_values (idleTimeLimit : idle_limit) (startAt : Q)
    (c : compressor) (l : list frame) : list Q :=
  match l with
  | [] => []
  | e :: l' =>
      c_effectiveStartAt (fst (compress_frame idleTimeLimit startAt c e))
      :: offset_values idleTimeLimit startAt
           (fst (compress_frame idleTimeLimit startAt c e)) l'
  end.

(** What holds of the accumulator between two frames, as far as the
    magnitudes go, and as far as the grid goes. *)
Definition in_range (k : nat) (start : Q) (c : compressor) (l : list frame) : Prop :=
  (- grid_bound k < prevT c /\ prevT c < grid_bound k)
  /\ 0 <= shift c
  /\ shift c - prevT c < grid_bound k
  /\ (start - shift c <= c_effectiveStartAt c /\ c_effectiveStartAt c <= start)
  /\ match l with
     | e :: _ => shift c - time e < grid_bound k
     | [] => True
     end.

Definition all_multiples (k : nat) (c : compressor) : Prop :=
  multiple_of k (prevT c) /\ multiple_of k (shift c)
  /\ multiple_of k (c_effectiveStartAt c).

Definition limit_in_range (k : nat) (l : idle_limit) : Prop :=
  match l with
  | Limit q => multiple_of k q /\ 0 <= q /\ q < grid_bound k
  | Infinity => True
  end.

(** Seven numbers of the grid of the quarters, as binary64 numbers and as
    rationals, and the test that the two embeddings of [prepareFrames]
    compute the same adjusted times on three frames at times [a], [b], [c]
    with the limit [l]. *)
Definition quarters : list (float * Q) :=
  [(0%float, 0); (0.25%float, 1 # 4); (0.5%float, 1 # 2); (0.75%float, 3 # 4);
   (1%float, 1); (1.25%float, 5 # 4); (1.5%float, 3 # 2)].

Definition same_value (x : option Q) (q : Q) : bool :=
  match x with Some v => Qeq_bool v q | None => false end.

Fixpoint same_values (xs : list float) (qs : list Q) : bool :=
  match xs, qs with
  | [], [] => true
  | x :: xs', q :: qs' => same_value (B64.value x) q && same_values xs' qs'
  | _, _ => false
  end.

Definition agree_at (a b c l : float * Q) : bool :=
  same_values
    (B64.times
       (B64.p_frames
          (B64.prepareFrames
             [(fst a, "a"); (fst b, "b"); (fst c, "c")]%string
             (Some (fst l)) None None)))
    (map time
       (p_frames
          (prepareFrames
             [(snd a, "a"); (snd b, "b"); (snd c, "c")]%string
             (Some (Limit (snd l))) None None))).

Definition agree_on (points : list (float * Q)) : bool :=
  forallb (fun a =>
    forallb (fun b =>
      forallb (fun c =>
        forallb (fun l => agree_at a b c l) points) points) points) points.

(** ** The engine: data *)

(** The option [loop]: a boolean, a number, or absent. *)
Inductive loop_setting : Type :=
| LoopAbsent
| LoopBool (b : bool)
| LoopNumber (n : Q).

(** [loop === true || (typeof loop === 'number' && playCount < loop)] *)
Definition loop_again (l : loop_setting) (playCount : nat) : bool :=
  match l with
  | LoopBool true => true
  | LoopNumber n => Num.ltb (Num.of_nat playCount) n
  | _ => false
  end.

(** What the engine hands to its collaborators: [feed(data)] and
    [setState(state, { reason })]. *)
Inductive event : Type :=
| Fed (data : string)
| StateSet (state : string) (reason : string).

(** ['\x1bc'], the terminal reset. *)
Definition reset_terminal : string := String "027"%char "c".

(** The handle of a pending timer; it records the delay the timer was asked
    for.  A handle is taken to be truthy, as the timer ids of browsers are. *)
Definition handle : Type := Q.

(** What [seek] accepts: a number, one of the four tokens, or a string
    ["N%"] of which [parseFloat] reads the number [N].  Strings of another
    shape lie outside the model. *)
Inductive position : Type :=
| Absolute (t : Q)
| Rewind          (* '<<' *)
| Forward         (* '>>' *)
| RewindMore      (* '<<<' *)
| ForwardMore     (* '>>>' *)
| Percent (n : Q).

(** The values thrown: the three strings thrown by [init] and [doFetch],
    the [TypeError] of reading an element of [undefined], and the
    [RangeError] of a call stack that overflows. *)
Inductive exn : Type :=
| EmptyRecording            (* 'recording is missing events' *)
| FetchError (statusText : string) (status : nat)
| MissingSource             (* '... url/data missing in src' *)
| TypeError
| RangeError.

Inductive result (A : Type) : Type :=
| Ok (a : A)
| Raise (e : exn).
Arguments Ok {A} a.
Arguments Raise {A} e.

(** The variables and options closed over by [recording], the number of
    readings taken from the clock, and the events produced so far. *)
Record engine : Type := {
  cols : option nat;
  rows : option nat;
  frames : list frame;
  duration : Q;
  effectiveStartAt : option Q;
  timeoutId : option handle;
  nextFrameIndex : nat;
  elapsedVirtualTime : Q;
  startTime : Q;
  pauseElapsedTime : option Q;
  playCount : nat;
  idleTimeLimit : option idle_limit;
  startAt : option Q;
  loop : loop_setting;
  clock : nat;
  trace : list event
}.

Definition set_effectiveStartAt (v : option Q) (st : engine) : engine :=
  {| cols := cols st; rows := rows st; frames := frames st; duration := duration st;
     effectiveStartAt := v; timeoutId := timeoutId st;
     nextFrameIndex := nextFrameIndex st; elapsedVirtualTime := elapsedVirtualTime st;
     startTime := startTime st; pauseElapsedTime := pauseElapsedTime st;
     playCount := playCount st; idleTimeLimit := idleTimeLimit st;
     startAt := startAt st; loop := loop st; clock := clock st; trace := trace st |}.

Definition set_timeoutId (v : option handle) (st : engine) : engine :=
  {| cols := cols st; rows := rows st; frames := frames st; duration := duration st;
     effectiveStartAt := effectiveStartAt st; timeoutId := v;
     nextFrameIndex := nextFrameIndex st; elapsedVirtualTime := elapsedVirtualTime st;
     startTime := startTime st; pauseElapsedTime := pauseElapsedTime st;
     playCount := playCount st; idleTimeLimit := idleTimeLimit st;
     startAt := startAt st; loop := loop st; clock := clock st; trace := trace st |}.

Definition set_nextFrameIndex (v : nat) (st : engine) : engine :=
  {| cols := cols st; rows := rows st; frames := frames st; duration := duration st;
     effectiveStartAt := effectiveStartAt st; timeoutId := timeoutId st;
     nextFrameIndex := v; elapsedVirtualTime := elapsedVirtualTime st;
     startTime := startTime st; pauseElapsedTime := pauseElapsedTime st;
     playCount := playCount st; idleTimeLimit := idleTimeLimit st;
     startAt := startAt st; loop := loop st; clock := clock st; trace := trace st |}.

Definition set_elapsedVirtualTime (v : Q) (st : engine) : engine :=
  {| cols := cols st; rows := rows st; frames := frames st; duration := duration st;
     effectiveStartAt := effectiveStartAt st; timeoutId := timeoutId st;
     nextFrameIndex := nextFrameIndex st; elapsedVirtualTime := v;
     startTime := startTime st; pauseElapsedTime := pauseElapsedTime st;
     playCount := playCount st; idleTimeLimit := idleTimeLimit st;
     startAt := startAt st; loop := loop st; clock := clock st; trace := trace st |}.

Definition set_startTime (v : Q) (st : engine) : engine :=
  {| cols := cols st; rows := rows st; frames := frames st; duration := duration st;
     effectiveStartAt := effectiveStartAt st; timeoutId := timeoutId st;
     nextFrameIndex := nextFrameIndex st; elapsedVirtualTime := elapsedVirtualTime st;
     startTime := v; pauseElapsedTime := pauseElapsedTime st;
     playCount := playCount st; idleTimeLimit := idleTimeLimit st;
     startAt := startAt st; loop := loop st; clock := clock st; trace := trace st |}.

Definition set_pauseElapsedTime (v : option Q) (st : engine) : engine :=
  {| cols := cols st; rows := rows st; frames := frames st; duration := duration st;
     effectiveStartAt := effectiveStartAt st; timeoutId := timeoutId st;
     nextFrameIndex := nextFrameIndex st; elapsedVirtualTime := elapsedVirtualTime st;
     startTime := startTime st; pauseElapsedTime := v;
     playCount := playCount st; idleTimeLimit := idleTimeLimit st;
     startAt := startAt st; loop := loop st; clock := clock st; trace := trace st |}.

Definition set_playCount (v : nat) (st : engine) : engine :=
  {| cols := cols st; rows := rows st; frames := frames st; duration := duration st;
     effectiveStartAt := effectiveStartAt st; timeoutId := timeoutId st;
     nextFrameIndex := nextFrameIndex st; elapsedVirtualTime := elapsedVirtualTime st;
     startTime := startTime st; pauseElapsedTime := pauseElapsedTime st;
     playCount := v; idleTimeLimit := idleTimeLimit st;
     startAt := startAt st; loop := loop st; clock := clock st; trace := trace st |}.

Definition set_clock (v : nat) (st : engine) : engine :=
  {| cols := cols st; rows := rows st; frames := frames st; duration := duration st;
     effectiveStartAt := effectiveStartAt st; timeoutId := timeoutId st;
     nextFrameIndex := nextFrameIndex st; elapsedVirtualTime := elapsedVirtualTime st;
     startTime := startTime st; pauseElapsedTime := pauseElapsedTime st;
     playCount := playCount st; idleTimeLimit := idleTimeLimit st;
     startAt := startAt st; loop := loop st; clock := v; trace := trace st |}.

Definition set_trace (v : list event) (st : engine) : engine :=
  {| cols := cols st; rows := rows st; frames := frames st; duration := duration st;
     effectiveStartAt := effectiveStartAt st; timeoutId := timeoutId st;
     nextFrameIndex := nextFrameIndex st; elapsedVirtualTime := elapsedVirtualTime st;
     startTime := startTime st; pauseElapsedTime := pauseElapsedTime st;
     playCount := playCount st; idleTimeLimit := idleTimeLimit st;
     startAt := startAt st; loop := loop st; clock := clock st; trace := v |}.

(** The engine as [recording(src, env, { idleTimeLimit, startAt, loop })]
    leaves it, before [init]: [let nextFrameIndex = 0], [let
    elapsedVirtualTime = 0], [let playCount = 0]; the variables declared
    without a value are [None], an empty frame list, or zero where a
    number is stored and never read before it is assigned ([startTime],
    [duration]).  The operations are meant to be called after [init], as
    the source reads [frames[nextFrameIndex]] in all of them. *)
Definition recording (idleTimeLimit : option idle_limit) (startAt : option Q)
    (loop : loop_setting) : engine :=
  {| cols := None; rows := None; frames := []; duration := 0;
     effectiveStartAt := None; timeoutId := None;
     nextFrameIndex := 0; elapsedVirtualTime := 0;
     startTime := 0; pauseElapsedTime := None;
     playCount := 0; idleTimeLimit := idleTimeLimit;
     startAt := startAt; loop := loop; clock := 0; trace := [] |}.

(** ** The engine: a state and exception monad *)

Definition M (A : Type) : Type := engine -> result (A * engine).

Definition ret {A : Type} (a : A) : M A := fun st => Ok (a, st).

Definition bind {A B : Type} (m : M A) (k : A -> M B) : M B :=
  fun st =>
    match m st with
    | Ok (a, st') => k a st'
    | Raise e => Raise e
    end.

Definition throw {A : Type} (e : exn) : M A := fun _ => Raise e.

Definition get : M engine := fun st => Ok (st, st).

Definition modify (f : engine -> engine) : M unit := fun st => Ok (tt, f st).

Declare Scope engine_scope.
Delimit Scope engine_scope with engine.
Notation "x <- m ;; k" := (bind m (fun x => k))
  (at level 61, m at next level, right associativity) : engine_scope.
Notation "m ;; k" := (bind m (fun _ => k))
  (at level 61, right associativity) : engine_scope.
Local Open Scope engine_scope.

(** The depth of the call stack: a function that calls itself deeper than
    this throws [RangeError]. *)
Definition stack_limit : nat := 1000.

(** The frames from index [i] on: [frames[i]] is the head of the list. *)
Definition frames_from (i : nat) (st : engine) : list frame :=
  skipn i (frames st).

(** ** The engine: operations *)

Section Operations.

(** The collaborator [now]: the [n]-th reading of the clock, in
    milliseconds.  Nothing is assumed of it. *)
Variable now : nat -> Q.

(** [now()] *)
Definition read_clock : M Q :=
  fun st => Ok (now (clock st), set_clock (S (clock st)) st).

(** [feed(data)] *)
Definition feed (data : string) : M unit :=
  modify (fun st => set_trace (trace st ++ [Fed data]) st).

(** [setState(state, { reason })] *)
Definition setState (state reason : string) : M unit :=
  modify (fun st => set_trace (trace st ++ [StateSet state reason]) st).

(** [scheduleNextFrame()], with the depth of call stack left to it. *)
Fixpoint scheduleNextFrame (depth : nat) : M unit :=
  match depth with
  | O => throw RangeError
  | S depth' =>
      st <- get ;;
      match nth_error (frames st) (nextFrameIndex st) with
      | Some nextFrame =>
          let t := time nextFrame * 1000 in
          n <- read_clock ;;
          let elapsedWallTime := n - startTime st in
          let timeout := t - elapsedWallTime in
          let timeout := if Num.ltb timeout 0 then 0 else timeout in
          modify (set_timeoutId (Some timeout))
      | None =>
          modify (fun st => set_playCount (S (playCount st)) st) ;;
          st <- get ;;
          if loop_again (loop st) (playCount st) then
            modify (set_nextFrameIndex 0) ;;
            n <- read_clock ;;
            modify (set_startTime n) ;;
            feed reset_terminal ;;
            scheduleNextFrame depth'
          else
            modify (set_timeoutId None) ;;
            modify (fun st => set_pauseElapsedTime (Some (duration st * 1000)) st) ;;
            modify (set_effectiveStartAt None) ;;
            setState "stopped" "ended"
      end
  end.

(** The body of the [do ... while] of [runFrame], entered with [frame] (here
    [current]) and with [rest] the frames that follow it in [frames]: the frame read by
    [frames[++nextFrameIndex]] is the head of [rest]. *)
Fixpoint runFrame_loop (current : frame) (rest : list frame) : M unit :=
  feed (payload current) ;;
  modify (set_elapsedVirtualTime (time current * 1000)) ;;
  modify (fun st => set_nextFrameIndex (S (nextFrameIndex st)) st) ;;
  n <- read_clock ;;
  st <- get ;;
  let elapsedWallTime := n - startTime st in
  match rest with
  | next :: rest' =>
      if Num.ltb (time next * 1000) elapsedWallTime
      then runFrame_loop next rest'
      else ret tt
  | [] => ret tt
  end.

(** [runFrame()]: [frame[1]] is read before the first test, so an
    [undefined] frame throws. *)
Definition runFrame : M unit :=
  st <- get ;;
  match frames_from (nextFrameIndex st) st with
  | current :: rest => runFrame_loop current rest
  | [] => throw TypeError
  end ;;
  scheduleNextFrame stack_limit.

(** [pause()]; [clearTimeout] removes the pending timer. *)
Definition pause : M bool :=
  st <- get ;;
  match timeoutId st with
  | None => ret true
  | Some _ =>
      modify (set_timeoutId None) ;;
      n <- read_clock ;;
      modify (fun st => set_pauseElapsedTime (Some (n - startTime st)) st) ;;
      ret true
  end.

(** [resume()] *)
Definition resume : M unit :=
  n <- read_clock ;;
  modify (fun st => set_startTime (n - or_zero (pauseElapsedTime st)) st) ;;
  modify (set_pauseElapsedTime None) ;;
  scheduleNextFrame stack_limit.

(** The [while] of [seek], over the frames from [nextFrameIndex] on. *)
Fixpoint seek_loop (targetTime : Q) (rest : list frame) : M unit :=
  match rest with
  | frame :: rest' =>
      if Num.ltb (time frame * 1000) targetTime then
        feed (payload frame) ;;
        modify (set_elapsedVirtualTime (time frame * 1000)) ;;
        modify (fun st => set_nextFrameIndex (S (nextFrameIndex st)) st) ;;
        seek_loop targetTime rest'
      else ret tt
  | [] => ret tt
  end.

(** The number [where] stands for. *)
Definition resolve (where_ : position) (st : engine) : Q :=
  let currentTime := or_zero (pauseElapsedTime st) / 1000 in
  match where_ with
  | Absolute t => t
  | Rewind => currentTime - 5
  | Forward => currentTime + 5
  | RewindMore => currentTime - (1 # 10) * duration st
  | ForwardMore => currentTime + (1 # 10) * duration st
  | Percent n => (n / 100) * duration st
  end.

(** [Math.min(Math.max(where, 0), duration) * 1000] *)
Definition target_of (where_ : Q) (duration : Q) : Q :=
  Num.min (Num.max where_ 0) duration * 1000.

(** [seek(where)] *)
Definition seek (where_ : position) : M bool :=
  st <- get ;;
  let isPlaying := match timeoutId st with Some _ => true | None => false end in
  pause ;;
  st <- get ;;
  let targetTime := target_of (resolve where_ st) (duration st) in
  (if Num.ltb targetTime (elapsedVirtualTime st) then
     feed reset_terminal ;;
     modify (set_nextFrameIndex 0) ;;
     modify (set_elapsedVirtualTime 0)
   else ret tt) ;;
  st <- get ;;
  seek_loop targetTime (frames_from (nextFrameIndex st) st) ;;
  modify (set_pauseElapsedTime (Some targetTime)) ;;
  modify (set_effectiveStartAt None) ;;
  (if isPlaying then resume else ret tt) ;;
  ret true.

(** [play()] *)
Definition play : M bool :=
  st <- get ;;
  match timeoutId st with
  | Some _ => ret true
  | None =>
      match nth_error (frames st) (nextFrameIndex st) with
      | None => modify (set_effectiveStartAt (Some 0))
      | Some _ => ret tt
      end ;;
      st <- get ;;
      match effectiveStartAt st with
      | Some s => seek (Absolute s) ;; ret tt
      | None => ret tt
      end ;;
      resume ;;
      ret true
  end.

(** [step()] *)
Definition step : M unit :=
  st <- get ;;
  match nth_error (frames st) (nextFrameIndex st) with
  | Some nextFrame =>
      feed (payload nextFrame) ;;
      modify (set_elapsedVirtualTime (time nextFrame * 1000)) ;;
      modify (fun st => set_pauseElapsedTime (Some (elapsedVirtualTime st)) st) ;;
      modify (fun st => set_nextFrameIndex (S (nextFrameIndex st)) st)
  | None => ret tt
  end ;;
  modify (set_effectiveStartAt None).

(** The [while] of [getPoster], over the frames from index 0 on. *)
Fixpoint poster_loop (posterTime : Q) (rest : list frame) : list string :=
  match rest with
  | frame :: rest' =>
      if Num.ltb (time frame * 1000) posterTime
      then payload frame :: poster_loop posterTime rest'
      else []
  | [] => []
  end.

(** [getPoster(time)] *)
Definition getPoster (time : Q) : M (list string) :=
  st <- get ;;
  let posterTime := time * 1000 in
  ret (poster_loop posterTime (frames st)).

(** [getCurrentTime()] *)
Definition getCurrentTime : M Q :=
  st <- get ;;
  match timeoutId st with
  | Some _ => n <- read_clock ;; ret ((n - startTime st) / 1000)
  | None => ret (or_zero (pauseElapsedTime st) / 1000)
  end.

(** [stop: pause] *)
Definition stop : M bool := pause.

(** The pending timer fires: the environment calls [runFrame].  Without a
    pending timer nothing is called. *)
Definition fire : M unit :=
  st <- get ;;
  match timeoutId st with
  | Some _ => runFrame
  | None => ret tt
  end.

(** Up to [n] firings of the timer, as long as one is pending. *)
Fixpoint run (n : nat) : M unit :=
  match n with
  | O => ret tt
  | S n' =>
      st <- get ;;
      match timeoutId st with
      | Some _ => runFrame ;; run n'
      | None => ret tt
      end
  end.

(** [n] calls of [step()]. *)
Fixpoint steps (n : nat) : M unit :=
  match n with
  | O => ret tt
  | S n' => step ;; steps n'
  end.

(** *** init *)

(** What [parser] returns. *)
Record recording_data : Type := {
  r_cols : nat;
  r_rows : nat;
  r_frames : list frame;
  r_idleTimeLimit : option idle_limit
}.

(** What [fetch] resolves to. *)
Record response : Type := {
  ok : bool;
  statusText : string;
  status : nat;
  text : string
}.

(** [src]: [data] is the text that the value, producer or promise supplied
    as [data] resolves to. *)
Record source : Type := {
  url : option string;
  data : option string;
  minFrameTime : option Q;
  parser : string -> recording_data
}.

(** The collaborator [fetch]. *)
Variable fetch : string -> response.

(** [doFetch(src)] *)
Definition doFetch (src : source) : result string :=
  match url src with
  | Some u =>
      let response := fetch u in
      if negb (ok response)
      then Raise (FetchError (statusText response) (status response))
      else Ok (text response)
  | None =>
      match data src with
      | Some d => Ok d
      | None => Raise MissingSource
      end
  end.

(** [idleTimeLimit ?? recording.idleTimeLimit] *)
Definition coalesce {A : Type} (a b : option A) : option A :=
  match a with Some _ => a | None => b end.

(** [init()]; it returns [{ cols, rows, duration }]. *)
Definition init (src : source) : M (nat * nat * Q) :=
  fun st =>
    match doFetch src with
    | Raise e => Raise e
    | Ok fetched =>
        let recording := parser src fetched in
        let limit := coalesce (idleTimeLimit st) (r_idleTimeLimit recording) in
        let result := prepareFrames (r_frames recording) limit (startAt st)
                        (minFrameTime src) in
        let st1 :=
          {| cols := Some (r_cols recording); rows := Some (r_rows recording);
             frames := p_frames result; duration := duration st;
             effectiveStartAt := effectiveStartAt st; timeoutId := timeoutId st;
             nextFrameIndex := nextFrameIndex st;
             elapsedVirtualTime := elapsedVirtualTime st;
             startTime := startTime st; pauseElapsedTime := pauseElapsedTime st;
             playCount := playCount st; idleTimeLimit := limit;
             startAt := startAt st; loop := loop st;
             clock := clock st; trace := trace st |} in
        match p_frames result with
        | [] => Raise EmptyRecording
        | first :: others =>
            let st2 :=
              {| cols := cols st1; rows := rows st1;
                 frames := frames st1; duration := time (last others first);
                 effectiveStartAt := Some (p_effectiveStartAt result);
                 timeoutId := timeoutId st1;
                 nextFrameIndex := nextFrameIndex st1;
                 elapsedVirtualTime := elapsedVirtualTime st1;
                 startTime := startTime st1; pauseElapsedTime := pauseElapsedTime st1;
                 playCount := playCount st1; idleTimeLimit := idleTimeLimit st1;
                 startAt := startAt st1; loop := loop st1;
                 clock := clock st1; trace := trace st1 |} in
            Ok ((r_cols recording, r_rows recording, duration st2), st2)
        end
    end.

End Operations.

(** ** Reference definitions *)

(** The batching read directly: the frame [prev] is buffered, and each
    frame of [l] is compared with the time the buffered frame keeps. *)
Fixpoint batch_after (minFrameTime : Q) (prev : frame) (l : list frame) : list frame :=
  match l with
  | [] => [prev]
  | fr :: l' =>
      if Num.ltb (time fr - time prev) minFrameTime
      then batch_after minFrameTime (time prev, (payload prev ++ payload fr)%string) l'
      else prev :: batch_after minFrameTime fr l'
  end.

(** The batching as the specification words it: a frame is merged into the
    output frame under construction ([acc]) when it comes less than
    [minFrameTime] after the input frame just before it (at time [lastT]). *)
Fixpoint merge_consecutive_after (minFrameTime : Q) (acc : frame) (lastT : Q)
    (l : list frame) : list frame :=
  match l with
  | [] => [acc]
  | fr :: l' =>
      if Num.ltb (time fr - lastT) minFrameTime
      then merge_consecutive_after minFrameTime
             (time acc, (payload acc ++ payload fr)%string) (time fr) l'
      else acc :: merge_consecutive_after minFrameTime fr (time fr) l'
  end.

Definition merge_consecutive (minFrameTime : Q) (l : list frame) : list frame :=
  match l with
  | [] => []
  | fr :: l' => merge_consecutive_after minFrameTime fr (time fr) l'
  end.

(** The times of a frame list. *)
Definition times (l : list frame) : list Q := map time l.

(** The payloads of a frame list. *)
Definition payloads (l : list frame) : list string := map payload l.

(** The batching claim as the specification states it, at one input. *)
Definition batching_as_specified (minFrameTime : Q) (l : list frame) : Prop :=
  batchFrames l (Some minFrameTime) = merge_consecutive minFrameTime l
  /\ joined (batchFrames l (Some minFrameTime)) = joined l.

(** The frames of the compression scenario, with their payloads. *)
Definition scenario_frames (p0 p1 p2 p3 : string) : list frame :=
  [(0, p0); (5, p1); (20, p2); (21, p3)].

(** [0 <= idleTimeLimit] *)
Definition limit_nonneg (l : idle_limit) : Prop :=
  match l with Limit q => 0 <= q | Infinity => True end.

(** [d <= idleTimeLimit] *)
Definition within (l : idle_limit) (d : Q) : Prop :=
  match l with Limit q => d <= q | Infinity => True end.

(** Each frame of [out] comes at least 0 and at most [l] after the one
    before it, the first of them after time [t0]. *)
Fixpoint gaps_ok (l : idle_limit) (t0 : Q) (out : list frame) : Prop :=
  match out with
  | [] => True
  | e :: out' =>
      (0 <= time e - t0 /\ within l (time e - t0)) /\ gaps_ok l (time e) out'
  end.

(** The longest prefix of [l] whose frames come strictly before
    [targetTime] (in milliseconds), and what follows it: where the loops
    of [seek] and [getPoster] stop. *)
Fixpoint before (targetTime : Q) (l : list frame) : list frame :=
  match l with
  | e :: l' =>
      if Num.ltb (time e * 1000) targetTime then e :: before targetTime l' else []
  | [] => []
  end.

Fixpoint from_target (targetTime : Q) (l : list frame) : list frame :=
  match l with
  | e :: l' =>
      if Num.ltb (time e * 1000) targetTime then from_target targetTime l' else l
  | [] => []
  end.

(** The state after the three statements that feed one frame and move
    the cursor past it: [feed(frame[1]); elapsedVirtualTime = frame[0] *
    1000; nextFrameIndex++]. *)
Definition emit (e : frame) (st : engine) : engine :=
  set_nextFrameIndex (S (nextFrameIndex st))
    (set_elapsedVirtualTime (time e * 1000)
       (set_trace (trace st ++ [Fed (payload e)]) st)).

Definition emit_all (l : list frame) (st : engine) : engine :=
  fold_left (fun s e => emit e s) l st.

(** The same followed by a reading of the clock, as in [runFrame]. *)
Definition emit_timed (l : list frame) (st : engine) : engine :=
  fold_left (fun s e => set_clock (S (clock s)) (emit e s)) l st.

(** The payloads fed, in order, among the events of a trace. *)
Fixpoint fed (tr : list event) : list string :=
  match tr with
  | [] => []
  | Fed d :: tr' => d :: fed tr'
  | StateSet _ _ :: tr' => fed tr'
  end.

(** The last frame of a timeline. *)
Definition last_frame (l : list frame) : frame := last l (0, EmptyString).

(** What [init] establishes and every operation keeps: there is a frame,
    and [duration] is the time of the last one. *)
Definition initialised (st : engine) : Prop :=
  frames st <> [] /\ duration st = time (last_frame (frames st)).

(** The round trip via the poster as the specification states it, at one
    state: what [getPoster(duration)] returns is what the replay by
    [step()] feeds. *)
Definition poster_round_trip (st : engine) : Prop :=
  forall p st1 st2,
    getPoster (duration st) st = Ok (p, st1) ->
    steps (List.length (frames st)) st = Ok (tt, st2) ->
    fed (trace st2) = fed (trace st) ++ p.

(** A source with inline data whose parser finds the frames [fs]. *)
Definition inline_source (fs : list frame) (limit : option idle_limit) : source :=
  {| url := None; data := Some EmptyString; minFrameTime := None;
     parser := fun _ => {| r_cols := 80; r_rows := 24; r_frames := fs;
                           r_idleTimeLimit := limit |} |}.

(** A [fetch] that finds nothing. *)
Definition no_network : string -> response :=
  fun _ => {| ok := false; statusText := "Not Found"; status := 404;
              text := EmptyString |}.

(** *** The outcomes of [scheduleNextFrame] *)

Section Outcomes.

Variable now : nat -> Q.

(** [max(0, t - elapsedWallTime)] for the frame [e], the clock being read
    in state [st]. *)
Definition delay_until (e : frame) (st : engine) : Q :=
  let timeout := time e * 1000 - (now (clock st) - startTime st) in
  if Num.ltb timeout 0 then 0 else timeout.

(** A timer is set for the frame [e]. *)
Definition scheduled (e : frame) (st : engine) : engine :=
  set_timeoutId (Some (delay_until e st)) (set_clock (S (clock st)) st).

(** The end of the timeline with no replay left: the engine stops. *)
Definition ended (st : engine) : engine :=
  set_trace (trace st ++ [StateSet "stopped" "ended"])
    (set_effectiveStartAt None
       (set_pauseElapsedTime (Some (duration st * 1000))
          (set_timeoutId None (set_playCount (S (playCount st)) st)))).

(** The end of the timeline with a replay left: the cursor goes back to 0,
    the wall clock is anchored anew and the terminal is reset. *)
Definition restarted (st : engine) : engine :=
  set_trace (trace st ++ [Fed reset_terminal])
    (set_startTime (now (clock st))
       (set_clock (S (clock st))
          (set_nextFrameIndex 0 (set_playCount (S (playCount st)) st)))).

(** *** The states [pause], [seek] and [resume] go through *)

(** A pending timer is cancelled and the elapsed time is noted. *)
Definition paused (st : engine) : engine :=
  set_pauseElapsedTime (Some (now (clock st) - startTime st))
    (set_clock (S (clock st)) (set_timeoutId None st)).

(** The state [seek] works on after its call of [pause()]. *)
Definition halted (st : engine) : engine :=
  match timeoutId st with Some _ => paused st | None => st end.

(** The target of [seek(where)], in milliseconds. *)
Definition target (where_ : position) (st : engine) : Q :=
  target_of (resolve where_ (halted st)) (duration st).

(** The terminal is reset and the cursor is back at the start. *)
Definition rewound (st : engine) : engine :=
  set_elapsedVirtualTime 0
    (set_nextFrameIndex 0 (set_trace (trace st ++ [Fed reset_terminal]) st)).

(** The state from which the loop of [seek] runs. *)
Definition positioned (targetTime : Q) (st : engine) : engine :=
  if Num.ltb targetTime (elapsedVirtualTime st) then rewound st else st.

(** The frames the loop of [seek] feeds. *)
Definition caught_up (targetTime : Q) (st : engine) : list frame :=
  before targetTime
    (frames_from (nextFrameIndex (positioned targetTime st)) (positioned targetTime st)).

(** The state [seek(where)] reaches before it resumes, if it does. *)
Definition sought (where_ : position) (st : engine) : engine :=
  let targetTime := target where_ st in
  set_effectiveStartAt None
    (set_pauseElapsedTime (Some targetTime)
       (emit_all (caught_up targetTime (halted st))
          (positioned targetTime (halted st)))).

(** The state [resume()] hands to [scheduleNextFrame]. *)
Definition anchored (st : engine) : engine :=
  set_pauseElapsedTime None
    (set_startTime (now (clock st) - or_zero (pauseElapsedTime st))
       (set_clock (S (clock st)) st)).

(** The state [play()] hands to [seek] and [resume]: at the end of the
    timeline the start offset is set to 0; a start offset is sought. *)
Definition primed (st : engine) : engine :=
  match nth_error (frames st) (nextFrameIndex st) with
  | None => set_effectiveStartAt (Some 0) st
  | Some _ => st
  end.

Definition cued (st : engine) : engine :=
  match effectiveStartAt (primed st) with
  | Some s => sought (Absolute s) (primed st)
  | None => primed st
  end.

End Outcomes.

(** A clock that stands still. *)
Definition frozen_clock : nat -> Q := fun _ => 0.

(** The events of one replay after the first -- the terminal reset, then
    every payload -- and of [k] of them. *)
Definition replay_events (fs : list frame) : list event :=
  Fed reset_terminal :: map Fed (payloads fs).

Fixpoint replays (k : nat) (fs : list frame) : list event :=
  match k with
  | O => []
  | S k' => replay_events fs ++ replays k' fs
  end.

(** [setState('stopped', { reason: 'ended' })] *)
Definition stopped_ended : event := StateSet "stopped" "ended".

(** A timeline of two frames and the engine [init] makes of it. *)
Definition two_frames : list frame := [(0, "a"%string); (1, "b"%string)].

Definition sample_engine (lp : loop_setting) : engine :=
  {| cols := Some 80%nat; rows := Some 24%nat;
     frames := two_frames; duration := 1;
     effectiveStartAt := Some 0; timeoutId := None;
     nextFrameIndex := 0; elapsedVirtualTime := 0;
     startTime := 0; pauseElapsedTime := None;
     playCount := 0; idleTimeLimit := None;
     startAt := None; loop := lp; clock := 0; trace := [] |}.

(** That engine once [play()] was called, the clock standing still: a
    timer is pending for the first frame. *)
Definition playing_sample : engine :=
  {| cols := Some 80%nat; rows := Some 24%nat;
     frames := two_frames; duration := 1;
     effectiveStartAt := None; timeoutId := Some 0;
     nextFrameIndex := 0; elapsedVirtualTime := 0;
     startTime := 0; pauseElapsedTime := None;
     playCount := 0; idleTimeLimit := None;
     startAt := None; loop := LoopAbsent; clock := 2; trace := [] |}.

(** ** The operations as values *)

(** The operations the engine returns, and what they return. *)
Inductive operation : Type :=
| Play
| Pause
| Stop
| Seek (where_ : position)
| Step
| GetPoster (t : Q)
| GetCurrentTime.

Inductive returned : Type :=
| Flag (b : bool)
| Nothing
| Poster (p : list string)
| Seconds (q : Q).

Section Calls.

Variable now : nat -> Q.
Variable fetch : string -> response.

Definition perform (op : operation) : M returned :=
  match op with
  | Play => b <- play now ;; ret (Flag b)
  | Pause => b <- pause now ;; ret (Flag b)
  | Stop => b <- stop now ;; ret (Flag b)
  | Seek w => b <- seek now w ;; ret (Flag b)
  | Step => step ;; ret Nothing
  | GetPoster t => p <- getPoster t ;; ret (Poster p)
  | GetCurrentTime => q <- getCurrentTime now ;; ret (Seconds q)
  end.

(** The states of an engine that was initialised once, with success: the
    state [init] leaves, and every state an operation or a firing of the
    timer leads to from such a state. *)
Inductive reachable : engine -> Prop :=
| reach_init (src : source) (limit : option idle_limit) (start : option Q)
    (lp : loop_setting) (res : nat * nat * Q) (st : engine) :
    init fetch src (recording limit start lp) = Ok (res, st) ->
    reachable st
| reach_call (op : operation) (v : returned) (st st' : engine) :
    reachable st -> perform op st = Ok (v, st') -> reachable st'
| reach_fire (st st' : engine) :
    reachable st -> fire now st = Ok (tt, st') -> reachable st'.

End Calls.

(** What holds in every reachable state: the timeline is not empty,
    [duration] is the time of its last frame, and a start offset is pending
    only with the cursor at 0 and no timer. *)
Definition settled (st : engine) : Prop :=
  initialised st
  /\ (effectiveStartAt st <> None ->
      nextFrameIndex st = 0%nat /\ timeoutId st = None).

(** What a parser is expected to deliver: frames in non-decreasing time
    order, none before time 0. *)
Definition well_timed (fs : list frame) : Prop :=
  sorted fs /\ match fs with e :: _ => 0 <= time e | [] => True end.

(** ** Further reference definitions *)

(** Each frame of [l] comes at least [m] after the one before it, the
    first of them after time [t]. *)
Fixpoint spaced_from (m : Q) (t : Q) (l : list frame) : Prop :=
  match l with
  | [] => True
  | e :: l' => m <= time e - t /\ spaced_from m (time e) l'
  end.

Definition spaced (m : Q) (l : list frame) : Prop :=
  match l with
  | [] => True
  | e :: l' => spaced_from m (time e) l'
  end.

(** Each frame of [l] comes at most [limit] after the one before it, the
    first of them after time [t]: no idle time to compress. *)
Fixpoint calm_from (limit : idle_limit) (t : Q) (l : list frame) : Prop :=
  match l with
  | [] => True
  | e :: l' => within limit (time e - t) /\ calm_from limit (time e) l'
  end.

(** A [loop] option that never asks for a replay: absent, [false], or a
    number that no play count stays below. *)
Definition no_replay (l : loop_setting) : Prop :=
  forall c, loop_again l c = false.

(** Every event of a trace is a payload fed: no state was signalled. *)
Definition only_fed (tr : list event) : Prop :=
  exists l, tr = map Fed l.

(** * Properties *)

(** ** Numbers *)

Lemma ltb_lt (x y : Q) : Num.ltb x y = true <-> x < y.
Proof.
  unfold Num.ltb. rewrite negb_true_iff. split; intro H.
  - apply Qnot_le_lt. intro L. apply Qle_bool_iff in L. congruence.
  - destruct (Qle_bool y x) eqn:E; [|reflexivity].
    apply Qle_bool_iff in E. exfalso. lra.
Qed.

Lemma ltb_ge (x y : Q) : Num.ltb x y = false <-> y <= x.
Proof.
  unfold Num.ltb. rewrite negb_false_iff. apply Qle_bool_iff.
Qed.

Lemma ltb_spec (x y : Q) : BoolSpec (x < y) (y <= x) (Num.ltb x y).
Proof.
  destruct (Num.ltb x y) eqn:E; constructor.
  - now apply ltb_lt.
  - now apply ltb_ge.
Qed.

Lemma max_spec (x y : Q) :
  (x < y /\ Num.max x y = y) \/ (y <= x /\ Num.max x y = x).
Proof. unfold Num.max. destruct (ltb_spec x y); auto. Qed.

Lemma min_spec (x y : Q) :
  (y < x /\ Num.min x y = y) \/ (x <= y /\ Num.min x y = x).
Proof. unfold Num.min. destruct (ltb_spec y x); auto. Qed.

(** Subtracting zero leaves the very same fraction. *)
Lemma sub_0_r (x : Q) : x - 0 = x.
Proof.
  destruct x as [n d]. unfold Qminus, Qplus, Qopp. simpl.
  rewrite Z.mul_1_r, Z.add_0_r, Pos.mul_1_r. reflexivity.
Qed.

Lemma of_nat_lt (a b : nat) : Num.of_nat a < Num.of_nat b <-> (a < b)%nat.
Proof.
  unfold Num.of_nat. rewrite <- Zlt_Qlt. lia.
Qed.

Lemma loop_again_number (k c : nat) :
  loop_again (LoopNumber (Num.of_nat k)) c = (c <? k)%nat.
Proof.
  simpl. destruct (ltb_spec (Num.of_nat c) (Num.of_nat k)) as [H|H].
  - apply of_nat_lt in H. symmetry. now apply Nat.ltb_lt.
  - symmetry. apply Nat.ltb_ge. destruct (Nat.le_gt_cases k c) as [L|L]; [exact L|].
    apply of_nat_lt in L. lra.
Qed.

(** ** Batching *)

Example batch_scenario :
  batchFrames [(0, "a"); (5 # 1000, "b"); (1, "c")]%string None
  = [(0, "ab"); (1, "c")]%string.
Proof. reflexivity. Qed.

Lemma batch_from_buffered (m : Q) (l : list frame) :
  forall (prev : frame) (i o : nat),
    snd (batch_from m {| prevFrame := Some prev; ic := i; oc := o |} l)
    = batch_after m prev l.
Proof.
  induction l as [|fr l IH]; intros prev i o.
  - reflexivity.
  - unfold batch_from in *. simpl. unfold batch_step. simpl.
    destruct (Num.ltb (time fr - time prev) m).
    + specialize (IH (time prev, (payload prev ++ payload fr)%string) (S i) o).
      destruct (Stream.transform _ _ l) as [b out]. simpl in *. exact IH.
    + specialize (IH fr (S i) (S o)).
      destruct (Stream.transform _ _ l) as [b out]. simpl in *. now rewrite IH.
Qed.

Lemma batchFrames_cons (fr : frame) (l : list frame) (mo : option Q) :
  batchFrames (fr :: l) mo
  = batch_after (min_frame_time mo) fr l.
Proof.
  unfold batchFrames.
  rewrite <- (batch_from_buffered _ l fr 1 0).
  unfold batch_from. simpl.
  destruct (Stream.transform _ _ l) as [b out]. reflexivity.
Qed.

Lemma append_assoc (a b c : string) : ((a ++ b) ++ c = a ++ (b ++ c))%string.
Proof. induction a as [|ch a IH]; simpl; [reflexivity | now rewrite IH]. Qed.

Lemma batch_after_joined (m : Q) (l : list frame) :
  forall prev, joined (batch_after m prev l) = (payload prev ++ joined l)%string.
Proof.
  induction l as [|fr l IH]; intros prev; simpl.
  - reflexivity.
  - destruct (Num.ltb (time fr - time prev) m); simpl.
    + rewrite IH. simpl. apply append_assoc.
    + now rewrite IH.
Qed.

Lemma sorted_from_weaken (u v : Q) (l : list frame) :
  v <= u -> sorted_from u l -> sorted_from v l.
Proof.
  destruct l as [|x l]; simpl; [auto|].
  intros H [H1 H2]. split; [lra | exact H2].
Qed.

(** Every batched frame keeps the time of an input frame, in order: from a
    sorted input, a sorted output that starts at the first input time. *)
Lemma batch_after_sorted (m : Q) (l : list frame) :
  forall prev t, t <= time prev -> sorted_from (time prev) l ->
    sorted_from t (batch_after m prev l).
Proof.
  induction l as [|fr l IH]; intros prev t Ht Hs; simpl in *.
  - split; [exact Ht | exact I].
  - destruct Hs as [H1 H2].
    destruct (Num.ltb (time fr - time prev) m).
    + apply IH; simpl; [exact Ht|].
      now apply (sorted_from_weaken (time fr)).
    + simpl. split; [exact Ht|]. apply IH; [exact H1 | exact H2].
Qed.

(** C6 (as stated) fails: the frames at times 1 and 2 come less than
    [minFrameTime = 2] apart, yet the second one starts an output frame of
    its own, because it is 2 after the frame buffered at time 0. *)
Lemma batching_consecutive_counterexample :
  sorted [(0, "a"); (1, "b"); (2, "c")]%string
  /\ 2 - 1 < 2
  /\ batchFrames [(0, "a"); (1, "b"); (2, "c")]%string (Some 2)
     = [(0, "ab"); (2, "c")]%string
  /\ ~ batching_as_specified 2 [(0, "a"); (1, "b"); (2, "c")]%string.
Proof.
  split; [|split; [|split]].
  - simpl. split; [|split]; [lra | lra | exact I].
  - lra.
  - reflexivity.
  - intros [H _]. vm_compute in H. discriminate H.
Qed.

(** C6 (amended): a frame is merged into the buffered frame when it comes
    less than [minFrameTime] after the time the buffered frame keeps (the
    time of the first frame of the batch), whatever the frame just before
    it; otherwise the buffered frame is emitted and the frame is buffered.
    The buffered frame keeps its time and takes the payloads in arrival
    order, and the output payloads joined are the input payloads joined. *)
Theorem batching_compares_with_buffered_frame :
  forall (mo : option Q),
    batchFrames [] mo = []
    /\ (forall fr l, batchFrames (fr :: l) mo = batch_after (min_frame_time mo) fr l)
    /\ (forall prev fr l,
          time fr - time prev < min_frame_time mo ->
          batch_after (min_frame_time mo) prev (fr :: l)
          = batch_after (min_frame_time mo)
              (time prev, (payload prev ++ payload fr)%string) l)
    /\ (forall prev fr l,
          min_frame_time mo <= time fr - time prev ->
          batch_after (min_frame_time mo) prev (fr :: l)
          = prev :: batch_after (min_frame_time mo) fr l)
    /\ (forall l, joined (batchFrames l mo) = joined l).
Proof.
  intros mo. split; [reflexivity|]. split; [intros; apply batchFrames_cons|].
  split; [|split].
  - intros prev fr l H. simpl. apply ltb_lt in H. now rewrite H.
  - intros prev fr l H. simpl. apply ltb_ge in H. now rewrite H.
  - intros [|fr l]; [reflexivity|].
    rewrite batchFrames_cons. apply batch_after_joined.
Qed.

Lemma batching_compares_with_buffered_frame_witness :
  batch_after (min_frame_time None) (0, "a"%string) [(5 # 1000, "b"%string)]
  = batch_after (min_frame_time None) (0, "ab"%string) []
  /\ batch_after (min_frame_time None) (0, "a"%string) [(1, "c"%string)]
     = [(0, "a"%string); (1, "c"%string)].
Proof.
  split.
  - apply (proj1 (proj2 (proj2 (batching_compares_with_buffered_frame None)))
             (0, "a"%string) (5 # 1000, "b"%string) []).
    vm_compute. reflexivity.
  - apply (proj1 (proj2 (proj2 (proj2 (batching_compares_with_buffered_frame None))))
             (0, "a"%string) (1, "c"%string) []).
    vm_compute. discriminate.
Defined.

(** ** Compression *)

(** C1 (as stated) fails: with payloads a, b, c, d and the default
    [minFrameTime], the adjusted times are not 0, 2, 3, 4. *)
Lemma compression_scenario_counterexample :
  ~ Forall2 Qeq
      (times (p_frames (prepareFrames (scenario_frames "a" "b" "c" "d")
                          (Some (Limit 2)) None None)))
      [0; 2; 3; 4].
Proof.
  intro H. vm_compute in H.
  inversion H as [|? ? ? ? _ H1]; subst; clear H.
  inversion H1 as [|? ? ? ? _ H2]; subst; clear H1.
  inversion H2 as [|? ? ? ? E _]; subst; clear H2.
  discriminate E.
Qed.

(** C1 (amended): for the frames at times 0, 5, 20, 21, whatever their
    payloads, with [idleTimeLimit = 2] and a [minFrameTime] of at most 1
    (so that batching merges nothing), the adjusted times are 0, 2, 4, 5:
    the gaps 5 and 15 are cut to 2, the gap 1 is kept. *)
Theorem compression_scenario :
  forall (p0 p1 p2 p3 : string) (startAt : option Q) (mo : option Q),
    min_frame_time mo <= 1 ->
    times (p_frames (prepareFrames (scenario_frames p0 p1 p2 p3)
                       (Some (Limit 2)) startAt mo))
    = [0; 2; 4; 5].
Proof.
  intros p0 p1 p2 p3 startAt mo Hm.
  unfold prepareFrames, scenario_frames. rewrite batchFrames_cons.
  assert (E1 : Num.ltb (time (5, p1) - time (0, p0)) (min_frame_time mo) = false)
    by (apply ltb_ge; simpl; lra).
  assert (E2 : Num.ltb (time (20, p2) - time (5, p1)) (min_frame_time mo) = false)
    by (apply ltb_ge; simpl; lra).
  assert (E3 : Num.ltb (time (21, p3) - time (20, p2)) (min_frame_time mo) = false)
    by (apply ltb_ge; simpl; lra).
  cbn [batch_after]. rewrite E1. cbn [batch_after]. rewrite E2.
  cbn [batch_after]. rewrite E3. cbn [batch_after].
  reflexivity.
Qed.

Lemma compression_scenario_witness :
  min_frame_time None <= 1
  /\ times (p_frames (prepareFrames (scenario_frames "a" "b" "c" "d")
                        (Some (Limit 2)) None None))
     = [0; 2; 4; 5].
Proof.
  assert (H : min_frame_time None <= 1) by (vm_compute; discriminate).
  split; [exact H | exact (compression_scenario "a" "b" "c" "d" None None H)].
Defined.

Arguments compress_frame : simpl never.

Lemma compress_frame_unbounded (start : Q) (c : compressor) (e : frame) :
  shift c = 0 ->
  compress_frame Infinity start c e
  = ({| prevT := time e; shift := 0; c_effectiveStartAt := c_effectiveStartAt c |}, e).
Proof.
  intros H. unfold compress_frame. simpl. rewrite H, sub_0_r.
  destruct e; reflexivity.
Qed.

Lemma map_with_unbounded (start : Q) (l : list frame) :
  forall c, shift c = 0 ->
    snd (Stream.map_with (compress_frame Infinity start) c l) = l
    /\ shift (fst (Stream.map_with (compress_frame Infinity start) c l)) = 0
    /\ c_effectiveStartAt (fst (Stream.map_with (compress_frame Infinity start) c l))
       = c_effectiveStartAt c.
Proof.
  induction l as [|e l IH]; intros c H.
  - simpl. auto.
  - cbn [Stream.map_with]. rewrite (compress_frame_unbounded start c e H).
    destruct (IH {| prevT := time e; shift := 0;
                    c_effectiveStartAt := c_effectiveStartAt c |} eq_refl)
      as (I1 & I2 & I3).
    destruct (Stream.map_with _ _ l) as [c2 out]. simpl in *.
    subst out. auto.
Qed.

(** C10: with [idleTimeLimit] unbounded -- absent from both the options and
    the recording, so that the default [Infinity] applies, or [Infinity]
    itself -- the compression leaves every batched frame as it is, its time
    included, [shift] ends at 0, and the returned [effectiveStartAt] is the
    requested [startAt] (0 when absent). *)
Theorem unbounded_limit_keeps_times :
  forall (fs : list frame) (startAt : option Q) (mo : option Q),
    or_infinity (coalesce None None) = Infinity
    /\ snd (compress Infinity (or_zero startAt) (batchFrames fs mo)) = batchFrames fs mo
    /\ shift (fst (compress Infinity (or_zero startAt) (batchFrames fs mo))) = 0
    /\ times (p_frames (prepareFrames fs None startAt mo)) = times (batchFrames fs mo)
    /\ p_frames (prepareFrames fs None startAt mo) = batchFrames fs mo
    /\ p_effectiveStartAt (prepareFrames fs None startAt mo) = or_zero startAt
    /\ p_frames (prepareFrames fs (Some Infinity) startAt mo) = batchFrames fs mo
    /\ p_effectiveStartAt (prepareFrames fs (Some Infinity) startAt mo) = or_zero startAt.
Proof.
  intros fs startAt mo.
  destruct (map_with_unbounded (or_zero startAt) (batchFrames fs mo)
              {| prevT := 0; shift := 0; c_effectiveStartAt := or_zero startAt |}
              eq_refl) as (H1 & H2 & H3).
  unfold prepareFrames, compress in *. simpl or_infinity.
  destruct (Stream.map_with _ _ (batchFrames fs mo)) as [c out].
  simpl in *. subst out. repeat split; auto.
Qed.

Lemma compress_frame_gap (limit : idle_limit) (start : Q) (c : compressor) (e : frame) :
  limit_nonneg limit -> prevT c <= time e ->
  let r := compress_frame limit start c e in
  prevT (fst r) = time e
  /\ time (snd r) = prevT (fst r) - shift (fst r)
  /\ 0 <= time (snd r) - (prevT c - shift c)
  /\ within limit (time (snd r) - (prevT c - shift c)).
Proof.
  intros Hl Hs. unfold compress_frame.
  destruct limit as [q|]; simpl in *.
  - destruct (ltb_spec 0 (time e - prevT c - q)) as [H|H]; simpl;
      repeat split; lra.
  - repeat split; lra.
Qed.

Lemma map_with_gaps (limit : idle_limit) (start : Q) (l : list frame) :
  limit_nonneg limit ->
  forall c, sorted_from (prevT c) l ->
    gaps_ok limit (prevT c - shift c)
      (snd (Stream.map_with (compress_frame limit start) c l)).
Proof.
  intros Hl. induction l as [|e l IH]; intros c Hs.
  - exact I.
  - destruct Hs as [H1 H2].
    destruct (compress_frame_gap limit start c e Hl H1) as (G1 & G2 & G3 & G4).
    cbn [Stream.map_with]. cbv zeta in G1, G2, G3, G4.
    destruct (compress_frame limit start c e) as [c1 a].
    cbn [fst snd] in G1, G2, G3, G4.
    specialize (IH c1). rewrite G1 in IH. specialize (IH H2).
    destruct (Stream.map_with _ c1 l) as [c2 out]. cbn [fst snd gaps_ok] in *.
    split; [split; assumption|]. rewrite G2, G1. exact IH.
Qed.



(** ** The engine: what the loops do *)

Lemma fed_map_Fed (l : list string) : fed (map Fed l) = l.
Proof. induction l as [|d l IH]; simpl; [reflexivity | now rewrite IH]. Qed.

Lemma before_from_target (t : Q) (l : list frame) :
  before t l ++ from_target t l = l.
Proof.
  induction l as [|e l IH]; simpl; [reflexivity|].
  destruct (Num.ltb (time e * 1000) t); simpl; [now rewrite IH | reflexivity].
Qed.

Lemma before_all_earlier (t : Q) (l : list frame) :
  Forall (fun e => time e * 1000 < t) (before t l).
Proof.
  induction l as [|e l IH]; simpl; [constructor|].
  destruct (ltb_spec (time e * 1000) t); constructor; assumption.
Qed.

Lemma from_target_head (t : Q) (l : list frame) :
  match from_target t l with
  | e :: _ => t <= time e * 1000
  | [] => True
  end.
Proof.
  induction l as [|e l IH]; simpl; [exact I|].
  destruct (ltb_spec (time e * 1000) t); [exact IH | assumption].
Qed.

Lemma before_from_target_nil (t : Q) (l : list frame) :
  before t (from_target t l) = [].
Proof.
  pose proof (from_target_head t l) as H.
  destruct (from_target t l) as [|e r]; [reflexivity|].
  simpl. apply ltb_ge in H. now rewrite H.
Qed.

Lemma poster_loop_before (t : Q) (l : list frame) :
  poster_loop t l = payloads (before t l).
Proof.
  induction l as [|e l IH]; simpl; [reflexivity|].
  destruct (Num.ltb (time e * 1000) t); simpl; [now rewrite IH | reflexivity].
Qed.

(** What [emit_all] changes and what it leaves. *)
Lemma emit_all_fields (l : list frame) :
  forall st,
    trace (emit_all l st) = trace st ++ map Fed (payloads l)
    /\ nextFrameIndex (emit_all l st) = (nextFrameIndex st + List.length l)%nat
    /\ elapsedVirtualTime (emit_all l st)
       = match l with [] => elapsedVirtualTime st | _ => time (last_frame l) * 1000 end
    /\ frames (emit_all l st) = frames st
    /\ duration (emit_all l st) = duration st
    /\ loop (emit_all l st) = loop st
    /\ timeoutId (emit_all l st) = timeoutId st
    /\ effectiveStartAt (emit_all l st) = effectiveStartAt st
    /\ pauseElapsedTime (emit_all l st) = pauseElapsedTime st
    /\ startTime (emit_all l st) = startTime st
    /\ playCount (emit_all l st) = playCount st
    /\ clock (emit_all l st) = clock st.
Proof.
  induction l as [|e l IH]; intros st.
  - simpl. rewrite app_nil_r, Nat.add_0_r. repeat split; reflexivity.
  - change (emit_all (e :: l) st) with (emit_all l (emit e st)).
    destruct (IH (emit e st)) as (H1 & H2 & H3 & H4 & H5 & H6 & H7 & H8 & H9 & H10 & H11 & H12).
    rewrite H1, H2, H3, H4, H5, H6, H7, H8, H9, H10, H11, H12. simpl.
    rewrite <- app_assoc. simpl.
    repeat split; try reflexivity; try lia.
    destruct l as [|x l]; reflexivity.
Qed.

Lemma seek_loop_spec (t : Q) (rest : list frame) :
  forall st, seek_loop t rest st = Ok (tt, emit_all (before t rest) st).
Proof.
  induction rest as [|e rest IH]; intros st; simpl.
  - reflexivity.
  - destruct (Num.ltb (time e * 1000) t); [|reflexivity].
    unfold bind, feed, modify. simpl. rewrite IH. reflexivity.
Qed.

Lemma skipn_nth_some {A : Type} (l : list A) :
  forall i e, nth_error l i = Some e -> skipn i l = e :: skipn (S i) l.
Proof.
  induction l as [|x l IH]; intros [|i] e H; simpl in *; try discriminate.
  - now inversion H.
  - apply IH. exact H.
Qed.

Lemma skipn_nth_none {A : Type} (l : list A) :
  forall i, nth_error l i = None -> skipn i l = [].
Proof.
  induction l as [|x l IH]; intros [|i] H; simpl in *; try discriminate; auto.
Qed.

Lemma nth_error_skipn_hd {A : Type} (l : list A) (i : nat) :
  nth_error l i = hd_error (skipn i l).
Proof.
  destruct (nth_error l i) as [e|] eqn:E.
  - now rewrite (skipn_nth_some l i e E).
  - now rewrite (skipn_nth_none l i E).
Qed.

(** [step()] with a frame left: the frame is fed and the engine is paused
    at its time. *)
Lemma step_some (st : engine) (e : frame) :
  nth_error (frames st) (nextFrameIndex st) = Some e ->
  step st = Ok (tt, set_effectiveStartAt None
                      (set_pauseElapsedTime (Some (time e * 1000)) (emit e st))).
Proof.
  intros H. unfold step, bind, get. rewrite H. reflexivity.
Qed.

(** [step()] without a frame left: only the start offset is cleared. *)
Lemma step_none (st : engine) :
  nth_error (frames st) (nextFrameIndex st) = None ->
  step st = Ok (tt, set_effectiveStartAt None st).
Proof.
  intros H. unfold step, bind, get. rewrite H. reflexivity.
Qed.

(** [n] calls of [step()] feed the next [n] frames, or all that are left. *)
Lemma steps_spec (n : nat) :
  forall st, exists st',
    steps n st = Ok (tt, st')
    /\ trace st' = trace st
         ++ map Fed (payloads (firstn n (frames_from (nextFrameIndex st) st)))
    /\ nextFrameIndex st'
       = (nextFrameIndex st
          + List.length (firstn n (frames_from (nextFrameIndex st) st)))%nat
    /\ frames st' = frames st
    /\ duration st' = duration st
    /\ timeoutId st' = timeoutId st.
Proof.
  induction n as [|n IH]; intros st.
  - exists st. simpl. rewrite app_nil_r, Nat.add_0_r. repeat split; reflexivity.
  - cbn [steps]. unfold bind at 1. unfold frames_from.
    destruct (nth_error (frames st) (nextFrameIndex st)) as [e|] eqn:E.
    + rewrite (step_some st e E).
      destruct (IH (set_effectiveStartAt None
                      (set_pauseElapsedTime (Some (time e * 1000)) (emit e st))))
        as (st' & R & T & I & F & D & P).
      exists st'. rewrite R. unfold frames_from in T, I. simpl in T, I, F, D, P.
      rewrite (skipn_nth_some _ _ _ E). simpl.
      rewrite T, I, <- app_assoc. simpl.
      repeat split; try assumption; try reflexivity. lia.
    + rewrite (step_none st E).
      destruct (IH (set_effectiveStartAt None st)) as (st' & R & T & I & F & D & P).
      exists st'. rewrite R. unfold frames_from in T, I. simpl in T, I, F, D, P.
      rewrite (skipn_nth_none _ _ E) in *. rewrite firstn_nil in T, I.
      simpl in *. repeat split; assumption.
Qed.

(** ** init *)

Lemma last_cons_default (l : list frame) (x d : frame) :
  last (x :: l) d = last l x.
Proof.
  revert x d. induction l as [|y l IH]; intros x d; [reflexivity|].
  change (last (x :: y :: l) d) with (last (y :: l) d).
  change (last (y :: l) x) with (last (y :: l) x).
  rewrite (IH y d), (IH y x). reflexivity.
Qed.

(** What a successful [init] leaves. *)
Lemma init_ok (fetch : string -> response) (src : source) (st0 st : engine)
    (res : nat * nat * Q) :
  init fetch src st0 = Ok (res, st) ->
  exists fetched,
    doFetch fetch src = Ok fetched
    /\ frames st
       = p_frames (prepareFrames (r_frames (parser src fetched))
                     (coalesce (idleTimeLimit st0) (r_idleTimeLimit (parser src fetched)))
                     (startAt st0) (minFrameTime src))
    /\ initialised st
    /\ res = (r_cols (parser src fetched), r_rows (parser src fetched), duration st)
    /\ effectiveStartAt st
       = Some (p_effectiveStartAt
                 (prepareFrames (r_frames (parser src fetched))
                    (coalesce (idleTimeLimit st0) (r_idleTimeLimit (parser src fetched)))
                    (startAt st0) (minFrameTime src)))
    /\ nextFrameIndex st = nextFrameIndex st0
    /\ elapsedVirtualTime st = elapsedVirtualTime st0
    /\ timeoutId st = timeoutId st0
    /\ playCount st = playCount st0
    /\ loop st = loop st0
    /\ trace st = trace st0.
Proof.
  unfold init. destruct (doFetch fetch src) as [fetched|e]; [|discriminate].
  intros H. exists fetched. split; [reflexivity|].
  destruct (p_frames (prepareFrames _ _ _ _)) as [|first others] eqn:E;
    [discriminate|].
  inversion H; subst; clear H. simpl.
  unfold initialised, last_frame. simpl.
  pose proof (last_cons_default others first (0, EmptyString)) as L.
  simpl in L. rewrite L.
  repeat split; try reflexivity. discriminate.
Qed.

(** ** The poster and the replay by [step] *)

Lemma from_target_keeps_last (t : Q) (l : list frame) :
  l <> [] -> t <= time (last_frame l) * 1000 ->
  from_target t l <> [] /\ last_frame (from_target t l) = last_frame l.
Proof.
  unfold last_frame. induction l as [|e l IH]; intros Hne Hl; [congruence|].
  simpl from_target. destruct (ltb_spec (time e * 1000) t) as [H|H].
  - destruct l as [|x l].
    + simpl in Hl. lra.
    + change (last (e :: x :: l) (0, EmptyString)) with (last (x :: l) (0, EmptyString)) in *.
      apply IH; [discriminate | exact Hl].
  - split; [discriminate | reflexivity].
Qed.

(** C2 (as stated) fails on the timeline of two frames at times 0 and 1:
    [getPoster(1)] returns the first payload only, the replay feeds both. *)
Lemma poster_round_trip_counterexample :
  exists res st,
    init no_network (inline_source [(0, "a"); (1, "b")]%string None)
      (recording None None LoopAbsent) = Ok (res, st)
    /\ ~ poster_round_trip st.
Proof.
  eexists. eexists. split; [vm_compute; reflexivity|].
  intros H. pose proof (H _ _ _ eq_refl eq_refl) as K.
  vm_compute in K. discriminate K.
Qed.

(** C2 (amended): on the timeline of a successful [init],
    [getPoster(duration)] returns, in order, the payloads of the leading
    frames whose time is strictly less than [duration], and leaves the
    engine as it is.  The replay by [step()] from index 0 feeds the payloads
    of all frames, in order, and ends with no frame left.  So the poster is
    a proper prefix of the replay: the frames from the first one whose time
    is not less than [duration] on -- at least the last frame -- are fed by
    the replay only. *)
Theorem poster_is_proper_prefix_of_replay :
  forall (fetch : string -> response) (src : source)
         (limit : option idle_limit) (start : option Q) (lp : loop_setting)
         (res : nat * nat * Q) (st : engine),
    init fetch src (recording limit start lp) = Ok (res, st) ->
    exists st2,
      getPoster (duration st) st
      = Ok (payloads (before (duration st * 1000) (frames st)), st)
      /\ steps (List.length (frames st)) st = Ok (tt, st2)
      /\ fed (trace st2) = payloads (frames st)
      /\ nth_error (frames st2) (nextFrameIndex st2) = None
      /\ frames st = before (duration st * 1000) (frames st)
                     ++ from_target (duration st * 1000) (frames st)
      /\ Forall (fun e => time e * 1000 < duration st * 1000)
           (before (duration st * 1000) (frames st))
      /\ from_target (duration st * 1000) (frames st) <> []
      /\ last_frame (from_target (duration st * 1000) (frames st))
         = last_frame (frames st).
Proof.
  intros fetch src limit start lp res st Hinit.
  destruct (init_ok _ _ _ _ _ Hinit)
    as (fetched & _ & _ & [Hne Hd] & _ & _ & Hi & _ & _ & _ & _ & Ht).
  simpl in Hi, Ht.
  destruct (steps_spec (List.length (frames st)) st) as (st2 & R & T & I & F & _).
  unfold frames_from in T, I. rewrite Hi in T, I. simpl in T, I.
  rewrite firstn_all in T, I. rewrite Ht in T. simpl in T.
  exists st2. split; [|split; [exact R|split; [|split; [|split; [|split]]]]].
  - unfold getPoster, bind, get, ret. now rewrite poster_loop_before.
  - rewrite T. apply fed_map_Fed.
  - rewrite F, I. apply nth_error_None. lia.
  - symmetry. apply before_from_target.
  - apply before_all_earlier.
  - apply from_target_keeps_last; [exact Hne|]. rewrite Hd. apply Qle_refl.
Qed.

Lemma poster_is_proper_prefix_of_replay_witness :
  exists st st2,
    init no_network (inline_source [(0, "a"); (1, "b")]%string None)
      (recording None None LoopAbsent) = Ok ((80%nat, 24%nat, 1), st)
    /\ getPoster (duration st) st = Ok (["a"%string], st)
    /\ steps 2 st = Ok (tt, st2)
    /\ fed (trace st2) = ["a"; "b"]%string.
Proof.
  assert (H : init no_network (inline_source [(0, "a"); (1, "b")]%string None)
                (recording None None LoopAbsent)
              = Ok ((80%nat, 24%nat, 1),
                    {| cols := Some 80%nat; rows := Some 24%nat;
                       frames := [(0, "a"); (1, "b")]%string; duration := 1;
                       effectiveStartAt := Some 0; timeoutId := None;
                       nextFrameIndex := 0; elapsedVirtualTime := 0;
                       startTime := 0; pauseElapsedTime := None;
                       playCount := 0; idleTimeLimit := None;
                       startAt := None; loop := LoopAbsent;
                       clock := 0; trace := [] |}))
    by (vm_compute; reflexivity).
  destruct (poster_is_proper_prefix_of_replay _ _ _ _ _ _ _ H)
    as (st2 & P & R & T & _).
  eexists. exists st2. split; [exact H|].
  split; [exact P|]. split; [exact R | exact T].
Defined.

(** ** Scheduling *)

Section Scheduling.

Variable now : nat -> Q.

Lemma stack_limit_two : stack_limit = S (S 998).
Proof. reflexivity. Qed.

(** A frame is left: a timer is set for it. *)
Lemma schedule_next (d : nat) (st : engine) (e : frame) :
  nth_error (frames st) (nextFrameIndex st) = Some e ->
  scheduleNextFrame now (S d) st = Ok (tt, scheduled now e st).
Proof.
  intros H. cbn [scheduleNextFrame]. unfold bind at 1. unfold get.
  rewrite H. reflexivity.
Qed.

(** No frame is left and no replay either: the engine stops. *)
Lemma schedule_end (d : nat) (st : engine) :
  nth_error (frames st) (nextFrameIndex st) = None ->
  loop_again (loop st) (S (playCount st)) = false ->
  scheduleNextFrame now (S d) st = Ok (tt, ended st).
Proof.
  intros H L. cbn [scheduleNextFrame]. unfold bind at 1. unfold get.
  rewrite H. unfold bind, modify, get. simpl. rewrite L. reflexivity.
Qed.

(** No frame is left and a replay is: the timeline restarts, and, there
    being a first frame, a timer is set for it. *)
Lemma schedule_restart (d : nat) (st : engine) (e : frame) (l : list frame) :
  nth_error (frames st) (nextFrameIndex st) = None ->
  loop_again (loop st) (S (playCount st)) = true ->
  frames st = e :: l ->
  scheduleNextFrame now (S (S d)) st
  = Ok (tt, scheduled now e (restarted now st)).
Proof.
  intros H L F. cbn [scheduleNextFrame].
  unfold bind, modify, read_clock, feed, get. rewrite H. simpl.
  rewrite L. simpl. rewrite F. reflexivity.
Qed.

Lemma pause_spec (st : engine) :
  pause now st = Ok (true, halted now st).
Proof.
  unfold pause, halted, bind, get. destruct (timeoutId st); reflexivity.
Qed.

Lemma resume_spec (st : engine) :
  resume now st = scheduleNextFrame now stack_limit (anchored now st).
Proof. reflexivity. Qed.

Lemma halted_fields (st : engine) :
  frames (halted now st) = frames st
  /\ duration (halted now st) = duration st
  /\ loop (halted now st) = loop st
  /\ nextFrameIndex (halted now st) = nextFrameIndex st
  /\ elapsedVirtualTime (halted now st) = elapsedVirtualTime st
  /\ trace (halted now st) = trace st
  /\ timeoutId (halted now st) = None
  /\ effectiveStartAt (halted now st) = effectiveStartAt st
  /\ playCount (halted now st) = playCount st.
Proof.
  unfold halted. destruct (timeoutId st) eqn:E; simpl; repeat split; auto.
Qed.

(** [seek(where)]: the engine is brought to [sought], and resumed when a
    timer was pending. *)
Lemma seek_spec (where_ : position) (st : engine) :
  seek now where_ st
  = match timeoutId st with
    | Some _ =>
        match resume now (sought now where_ st) with
        | Ok (_, st') => Ok (true, st')
        | Raise e => Raise e
        end
    | None => Ok (true, sought now where_ st)
    end.
Proof.
  unfold seek. unfold bind at 1. unfold get at 1.
  unfold bind at 1. rewrite pause_spec.
  unfold bind at 1. unfold get at 1.
  destruct (halted_fields st) as (F & D & _).
  unfold sought, target, caught_up, positioned.
  rewrite <- D.
  set (T := target_of (resolve where_ (halted now st)) (duration (halted now st))).
  set (h := halted now st).
  unfold bind at 1.
  assert (P : (if Num.ltb T (elapsedVirtualTime h)
               then feed reset_terminal ;; modify (set_nextFrameIndex 0) ;;
                    modify (set_elapsedVirtualTime 0)
               else ret tt) h
              = Ok (tt, if Num.ltb T (elapsedVirtualTime h) then rewound h else h)).
  { destruct (Num.ltb T (elapsedVirtualTime h)); reflexivity. }
  rewrite P. clear P.
  set (p := if Num.ltb T (elapsedVirtualTime h) then rewound h else h).
  unfold bind at 1. unfold get at 1.
  unfold bind at 1. rewrite seek_loop_spec.
  destruct (timeoutId st); reflexivity.
Qed.

End Scheduling.

(** ** [step] while a timer is pending *)

(** [step()] never touches the timer. *)
Lemma step_keeps_timer (st st' : engine) :
  step st = Ok (tt, st') -> timeoutId st' = timeoutId st.
Proof.
  intros H. destruct (nth_error (frames st) (nextFrameIndex st)) as [e|] eqn:E.
  - rewrite (step_some st e E) in H. inversion H. reflexivity.
  - rewrite (step_none st E) in H. inversion H. reflexivity.
Qed.

(** C3, on the code: a recording of one frame is played, so that a timer
    is pending for that frame, and [step()] is called.  The frame is fed and
    the cursor moves past it, but the timer is still pending; when it fires,
    [runFrame] reads [frames[1]], which is [undefined], and throws. *)
Theorem step_leaves_the_timer_pending :
  exists res st0 st1 st2 h,
    init no_network (inline_source [(1, "a"%string)] None)
      (recording None None LoopAbsent) = Ok (res, st0)
    /\ play frozen_clock st0 = Ok (true, st1)
    /\ timeoutId st1 = Some h
    /\ nth_error (frames st1) (nextFrameIndex st1) = Some (1, "a"%string)
    /\ step st1 = Ok (tt, st2)
    /\ timeoutId st2 = Some h
    /\ nextFrameIndex st2 = 1%nat
    /\ fed (trace st2) = ["a"%string]
    /\ fire frozen_clock st2 = Raise TypeError.
Proof.
  eexists. eexists. eexists. eexists. eexists.
  split; [vm_compute; reflexivity|].
  split; [vm_compute; reflexivity|].
  split; [vm_compute; reflexivity|].
  split; [vm_compute; reflexivity|].
  split; [vm_compute; reflexivity|].
  split; [vm_compute; reflexivity|].
  split; [vm_compute; reflexivity|].
  split; vm_compute; reflexivity.
Qed.

(** ** The timer callback *)

Lemma emit_timed_fields (l : list frame) :
  forall st,
    trace (emit_timed l st) = trace st ++ map Fed (payloads l)
    /\ nextFrameIndex (emit_timed l st) = (nextFrameIndex st + List.length l)%nat
    /\ frames (emit_timed l st) = frames st
    /\ duration (emit_timed l st) = duration st
    /\ loop (emit_timed l st) = loop st
    /\ timeoutId (emit_timed l st) = timeoutId st
    /\ effectiveStartAt (emit_timed l st) = effectiveStartAt st
    /\ playCount (emit_timed l st) = playCount st.
Proof.
  induction l as [|e l IH]; intros st.
  - simpl. rewrite app_nil_r, Nat.add_0_r. repeat split; reflexivity.
  - change (emit_timed (e :: l) st)
      with (emit_timed l (set_clock (S (clock (emit e st))) (emit e st))).
    destruct (IH (set_clock (S (clock (emit e st))) (emit e st)))
      as (H1 & H2 & H3 & H4 & H5 & H6 & H7 & H8).
    rewrite H1, H2, H3, H4, H5, H6, H7, H8. simpl.
    rewrite <- app_assoc. simpl.
    repeat split; try reflexivity; lia.
Qed.

Section Callback.

Variable now : nat -> Q.

(** The loop of [runFrame] feeds the frame it is entered with and, the
    clock deciding, some of the frames that follow; it returns. *)
Lemma runFrame_loop_spec (rest : list frame) :
  forall current st,
  exists fedNow later,
    current :: rest = fedNow ++ later
    /\ fedNow <> []
    /\ runFrame_loop now current rest st = Ok (tt, emit_timed fedNow st).
Proof.
  induction rest as [|next rest IH]; intros current st.
  - exists [current], []. split; [reflexivity|]. split; [discriminate|reflexivity].
  - cbn [runFrame_loop]. unfold bind, feed, modify, read_clock, get.
    cbn [fst snd].
    match goal with
    | |- context [if ?b then _ else _] => destruct b
    end.
    + destruct (IH next (set_clock (S (clock (emit current st))) (emit current st)))
        as (fedNow & later & E & N & R).
      exists (current :: fedNow), later. split; [now rewrite E|].
      split; [discriminate|]. exact R.
    + exists [current], (next :: rest). split; [reflexivity|].
      split; [discriminate|reflexivity].
Qed.

End Callback.

(** ** Looping *)

Lemma skipn_length_app {A : Type} (a b : list A) :
  skipn (List.length a) (a ++ b) = b.
Proof. induction a as [|x a IH]; simpl; [reflexivity | exact IH]. Qed.

Lemma skipn_length_app_eq {A : Type} (a b l : list A) :
  a ++ b = l -> skipn (List.length a) l = b.
Proof. intros H. rewrite <- H. apply skipn_length_app. Qed.

Lemma frames_from_split (st : engine) (i : nat) (a b : list frame) :
  frames_from i st = a ++ b ->
  frames_from (i + List.length a) st = b.
Proof.
  unfold frames_from. intros H.
  rewrite Nat.add_comm, <- skipn_skipn, H. apply skipn_length_app.
Qed.

Lemma frames_from_length (st : engine) (i : nat) :
  (i <= List.length (frames st))%nat ->
  (i + List.length (frames_from i st) = List.length (frames st))%nat.
Proof.
  intros H. unfold frames_from. rewrite length_skipn. lia.
Qed.

Lemma frames_from_cons (st : engine) (i : nat) :
  (i < List.length (frames st))%nat ->
  exists e l, frames_from i st = e :: l /\ nth_error (frames st) i = Some e.
Proof.
  intros H. destruct (nth_error (frames st) i) as [e|] eqn:E.
  - exists e, (skipn (S i) (frames st)). split; [|reflexivity].
    apply skipn_nth_some. exact E.
  - apply nth_error_None in E. lia.
Qed.

Section Looping.

Variable now : nat -> Q.

Lemma run_idle (n : nat) (st : engine) :
  timeoutId st = None -> run now n st = Ok (tt, st).
Proof.
  intros H. destruct n; [reflexivity|].
  cbn [run]. unfold bind, get. rewrite H. reflexivity.
Qed.

(** One firing of the timer, from a state with a frame at the cursor: some
    frames are fed, and then a timer is set for the next frame, or the
    timeline restarts, or the engine stops. *)
Lemma runFrame_spec (st : engine) :
  frames st <> [] ->
  (nextFrameIndex st < List.length (frames st))%nat ->
  exists fedNow later,
    frames_from (nextFrameIndex st) st = fedNow ++ later
    /\ fedNow <> []
    /\ match later with
       | e :: _ =>
           runFrame now st = Ok (tt, scheduled now e (emit_timed fedNow st))
       | [] =>
           if loop_again (loop st) (S (playCount st))
           then exists e, hd_error (frames st) = Some e
                  /\ runFrame now st
                     = Ok (tt, scheduled now e (restarted now (emit_timed fedNow st)))
           else runFrame now st = Ok (tt, ended (emit_timed fedNow st))
       end.
Proof.
  intros Hne Hi.
  destruct (frames_from_cons st _ Hi) as (current & rest & E & _).
  destruct (runFrame_loop_spec now rest current st) as (fedNow & later & S1 & N1 & R).
  exists fedNow, later. rewrite E. split; [exact S1|]. split; [exact N1|].
  rewrite <- E in S1.
  pose proof (frames_from_split st _ _ _ S1) as L.
  destruct (emit_timed_fields fedNow st) as (_ & I & F & _ & Lp & _ & _ & P).
  assert (X : nth_error (frames (emit_timed fedNow st))
                (nextFrameIndex (emit_timed fedNow st)) = hd_error later).
  { rewrite F, I, nth_error_skipn_hd. unfold frames_from in L. now rewrite L. }
  assert (G : runFrame now st
              = scheduleNextFrame now (S (S 998)) (emit_timed fedNow st)).
  { unfold runFrame. unfold bind at 1. unfold get at 1. rewrite E.
    unfold bind at 1. rewrite R. now rewrite stack_limit_two. }
  rewrite G. clear G.
  destruct later as [|e later'].
  - rewrite <- Lp, <- P.
    destruct (loop_again _ _) eqn:A.
    + destruct (frames st) as [|e0 l0] eqn:Fr; [congruence|].
      exists e0. split; [reflexivity|].
      apply (schedule_restart now _ _ e0 l0 X A). exact F.
    + apply (schedule_end now _ _ X A).
  - apply (schedule_next now _ _ e X).
Qed.

Lemma nonempty_length {A : Type} (l : list A) : l <> [] -> (1 <= List.length l)%nat.
Proof. destruct l; [congruence | simpl; lia]. Qed.

Lemma replays_succ (j : nat) (fs : list frame) :
  replays (S j) fs = Fed reset_terminal :: map Fed (payloads fs) ++ replays j fs.
Proof. reflexivity. Qed.

(** From a state with a timer pending for a frame, in the replay number
    [playCount + 1] of [k]: enough firings of the timer bring the engine to
    a stop, having fed the rest of the present replay and then the
    [k - 1 - playCount] replays left, each after a terminal reset. *)
Lemma run_to_end (k : nat) :
  forall n st,
    frames st <> [] ->
    loop st = LoopNumber (Num.of_nat k) ->
    timeoutId st <> None ->
    (nextFrameIndex st < List.length (frames st))%nat ->
    (playCount st < k)%nat ->
    ((k - 1 - playCount st) * List.length (frames st)
     + (List.length (frames st) - nextFrameIndex st) <= n)%nat ->
    exists st',
      run now n st = Ok (tt, st')
      /\ timeoutId st' = None
      /\ playCount st' = k
      /\ frames st' = frames st
      /\ trace st'
         = trace st ++ map Fed (payloads (frames_from (nextFrameIndex st) st))
             ++ replays (k - 1 - playCount st) (frames st) ++ [stopped_ended].
Proof.
  induction n as [|n IH]; intros st Hne Hl Ht Hi Hp Hn.
  { exfalso. apply Nat.le_0_r, Nat.eq_add_0 in Hn. lia. }
  cbn [run]. unfold bind at 1. unfold get at 1.
  destruct (timeoutId st) as [h|] eqn:Th; [clear Ht | congruence].
  unfold bind at 1.
  destruct (runFrame_spec st Hne Hi) as (fedNow & later & S1 & N1 & M).
  destruct (emit_timed_fields fedNow st) as (T1 & I1 & F1 & _ & L1 & _ & _ & P1).
  pose proof (frames_from_split st _ _ _ S1) as Sp.
  pose proof (frames_from_length st _ (Nat.lt_le_incl _ _ Hi)) as Len.
  rewrite S1, length_app in Len.
  pose proof (nonempty_length fedNow N1) as Lf.
  destruct later as [|e later'].
  - rewrite Hl, loop_again_number in M.
    destruct (S (playCount st) <? k)%nat eqn:A.
    + apply Nat.ltb_lt in A. destruct M as (e0 & He0 & R). rewrite R.
      destruct (IH (scheduled now e0 (restarted now (emit_timed fedNow st))))
        as (st' & R' & T' & P' & F' & Tr'); simpl;
        try rewrite F1; try rewrite L1; try rewrite P1;
        try assumption; try discriminate; try lia.
      { replace (k - 1 - playCount st)%nat with (S (k - 1 - S (playCount st))) in Hn
          by lia.
        rewrite Nat.mul_succ_l in Hn. lia. }
      exists st'. rewrite R'. simpl in F', Tr'. rewrite F1 in F', Tr'.
      rewrite P1, T1 in Tr'. unfold frames_from in Tr'. simpl in Tr'.
      rewrite F1 in Tr'.
      split; [reflexivity|]. split; [exact T'|]. split; [exact P'|].
      split; [exact F'|]. rewrite Tr'. rewrite S1, app_nil_r.
      replace (k - 1 - playCount st)%nat with (S (k - 1 - S (playCount st))) by lia.
      rewrite replays_succ. rewrite <- !app_assoc. cbn [app].
      rewrite <- !app_assoc. reflexivity.
    + apply Nat.ltb_ge in A. rewrite M.
      rewrite run_idle by reflexivity.
      exists (ended (emit_timed fedNow st)). simpl. rewrite P1, F1, T1.
      split; [reflexivity|]. split; [reflexivity|]. split; [lia|].
      split; [reflexivity|]. rewrite S1, app_nil_r.
      replace (k - 1 - playCount st)%nat with 0%nat by lia. simpl.
      rewrite <- app_assoc. reflexivity.
  - rewrite M.
    destruct (IH (scheduled now e (emit_timed fedNow st)))
      as (st' & R' & T' & P' & F' & Tr'); simpl;
      try rewrite F1; try rewrite L1; try rewrite P1; try rewrite I1;
      try assumption; try discriminate.
    { simpl in Len. lia. }
    { simpl in Len. lia. }
    exists st'. rewrite R'. simpl in F', Tr'. rewrite F1 in F'.
    rewrite P1, T1, I1 in Tr'. unfold frames_from in Tr', Sp. simpl in Tr'.
    rewrite F1, Sp in Tr'.
    split; [reflexivity|]. split; [exact T'|]. split; [exact P'|].
    split; [exact F'|]. rewrite Tr', S1. unfold payloads.
    rewrite !map_app, <- !app_assoc. reflexivity.
Qed.

End Looping.

(** ** Seeking *)

Section Seeking.

Variable now : nat -> Q.

Lemma positioned_fields (t : Q) (st : engine) :
  frames (positioned t st) = frames st
  /\ duration (positioned t st) = duration st
  /\ loop (positioned t st) = loop st
  /\ timeoutId (positioned t st) = timeoutId st
  /\ playCount (positioned t st) = playCount st
  /\ clock (positioned t st) = clock st
  /\ ((t < elapsedVirtualTime st
       /\ trace (positioned t st) = trace st ++ [Fed reset_terminal]
       /\ nextFrameIndex (positioned t st) = 0%nat
       /\ elapsedVirtualTime (positioned t st) = 0)
      \/ (elapsedVirtualTime st <= t /\ positioned t st = st)).
Proof.
  unfold positioned.
  destruct (ltb_spec t (elapsedVirtualTime st)) as [H|H]; simpl;
    repeat split; auto.
Qed.

(** What [seek(where)] has done when it comes to resuming. *)
Lemma sought_fields (where_ : position) (st : engine) :
  let h := halted now st in
  let t := target now where_ st in
  let p := positioned t h in
  let c := caught_up t h in
  trace (sought now where_ st) = trace p ++ map Fed (payloads c)
  /\ nextFrameIndex (sought now where_ st) = (nextFrameIndex p + List.length c)%nat
  /\ elapsedVirtualTime (sought now where_ st)
     = match c with [] => elapsedVirtualTime p | _ => time (last_frame c) * 1000 end
  /\ frames (sought now where_ st) = frames st
  /\ duration (sought now where_ st) = duration st
  /\ loop (sought now where_ st) = loop st
  /\ timeoutId (sought now where_ st) = None
  /\ effectiveStartAt (sought now where_ st) = None
  /\ pauseElapsedTime (sought now where_ st) = Some t
  /\ playCount (sought now where_ st) = playCount st
  /\ clock (sought now where_ st) = clock h.
Proof.
  intros h t p c.
  destruct (halted_fields now st) as (F & D & L & _ & _ & _ & Ti & _ & P).
  destruct (positioned_fields t h) as (F' & D' & L' & Ti' & P' & C' & _).
  destruct (emit_all_fields c p)
    as (H1 & H2 & H3 & H4 & H5 & H6 & H7 & _ & _ & _ & H11 & H12).
  change (sought now where_ st)
    with (set_effectiveStartAt None (set_pauseElapsedTime (Some t) (emit_all c p))).
  cbn [trace nextFrameIndex elapsedVirtualTime frames duration loop timeoutId
       effectiveStartAt pauseElapsedTime playCount clock
       set_effectiveStartAt set_pauseElapsedTime].
  rewrite H1, H2, H3, H4, H5, H6, H7, H11, H12.
  fold h in F, D, L, Ti, P. fold p in F', D', L', Ti', P', C'.
  rewrite F', D', L', Ti', P', C', F, D, L, Ti, P.
  repeat split; reflexivity.
Qed.

(** [play()]: nothing while a timer is pending; otherwise the engine is
    cued and resumed. *)
Lemma play_spec (st : engine) :
  play now st
  = match timeoutId st with
    | Some _ => Ok (true, st)
    | None =>
        match resume now (cued now st) with
        | Ok (_, st') => Ok (true, st')
        | Raise e => Raise e
        end
    end.
Proof.
  unfold play. unfold bind at 1. unfold get at 1.
  destruct (timeoutId st) eqn:Ti; [reflexivity|].
  unfold bind at 1. unfold cued, primed.
  destruct (nth_error (frames st) (nextFrameIndex st)) eqn:E.
  - unfold ret at 1. unfold bind at 1. unfold get at 1.
    destruct (effectiveStartAt st) eqn:Ef.
    + unfold bind at 1. unfold bind at 1. rewrite seek_spec, Ti.
      unfold ret at 1. unfold bind. destruct (resume now _) as [[u s']|e]; reflexivity.
    + unfold bind at 1. unfold ret at 1.
      unfold bind. destruct (resume now _) as [[u s']|e]; reflexivity.
  - unfold modify at 1. unfold bind at 1. unfold get at 1.
    cbn [effectiveStartAt set_effectiveStartAt].
    unfold bind at 1. unfold bind at 1. rewrite seek_spec.
    cbn [timeoutId set_effectiveStartAt]. rewrite Ti.
    unfold ret at 1. unfold bind. destruct (resume now _) as [[u s']|e]; reflexivity.
Qed.

End Seeking.

Lemma target_of_bounds (w d : Q) :
  0 <= d -> 0 <= target_of w d /\ target_of w d <= d * 1000.
Proof.
  intros H. unfold target_of.
  destruct (max_spec w 0) as [[A B]|[A B]]; rewrite B;
    destruct (min_spec 0 d) as [[C D]|[C D]];
    destruct (min_spec w d) as [[C' D']|[C' D']];
    try rewrite D; try rewrite D'; split; lra.
Qed.

Lemma before_length_lt (t : Q) (l : list frame) :
  l <> [] -> t <= time (last_frame l) * 1000 ->
  (List.length (before t l) < List.length l)%nat.
Proof.
  intros Hne Hl.
  destruct (from_target_keeps_last t l Hne Hl) as [N _].
  apply nonempty_length in N.
  rewrite <- (before_from_target t l) at 2. rewrite length_app. lia.
Qed.

Lemma anchored_fields (now : nat -> Q) (st : engine) :
  frames (anchored now st) = frames st
  /\ nextFrameIndex (anchored now st) = nextFrameIndex st
  /\ loop (anchored now st) = loop st
  /\ playCount (anchored now st) = playCount st
  /\ trace (anchored now st) = trace st
  /\ duration (anchored now st) = duration st
  /\ elapsedVirtualTime (anchored now st) = elapsedVirtualTime st
  /\ timeoutId (anchored now st) = timeoutId st
  /\ effectiveStartAt (anchored now st) = effectiveStartAt st.
Proof. repeat split; reflexivity. Qed.

Lemma scheduled_fields (now : nat -> Q) (e : frame) (st : engine) :
  frames (scheduled now e st) = frames st
  /\ nextFrameIndex (scheduled now e st) = nextFrameIndex st
  /\ loop (scheduled now e st) = loop st
  /\ playCount (scheduled now e st) = playCount st
  /\ trace (scheduled now e st) = trace st
  /\ duration (scheduled now e st) = duration st
  /\ elapsedVirtualTime (scheduled now e st) = elapsedVirtualTime st
  /\ timeoutId (scheduled now e st) = Some (delay_until now e st)
  /\ effectiveStartAt (scheduled now e st) = effectiveStartAt st.
Proof. repeat split; reflexivity. Qed.

(** ** The loop count *)

(** C7: with [loop = k], [k] a positive integer, after a successful [init]
    and one call of [play()], the firings of the timer -- whatever the clock
    reads, and as soon as there have been enough of them -- feed the whole
    timeline exactly [k] times, each replay after the first behind a
    terminal reset, and then stop the engine with the state 'stopped' and
    the reason 'ended'; no timer is pending then, and a further firing does
    nothing, so there is no replay number [k + 1].  At the end of each
    replay but the last, [scheduleNextFrame] counts the replay, puts the
    cursor back to 0, anchors the wall clock at the present reading, feeds
    the terminal reset and sets a timer for the first frame: no state is
    signalled and a timer stays pending. *)
Theorem loop_count_is_exact :
  forall (now : nat -> Q) (fetch : string -> response) (src : source)
         (limit : option idle_limit) (start : option Q) (k : nat)
         (res : nat * nat * Q) (st0 : engine),
    (1 <= k)%nat ->
    init fetch src (recording limit start (LoopNumber (Num.of_nat k))) = Ok (res, st0) ->
    0 <= duration st0 ->
    (forall n, (k * List.length (frames st0) <= n)%nat ->
       exists st1 st',
         play now st0 = Ok (true, st1)
         /\ timeoutId st1 <> None
         /\ run now n st1 = Ok (tt, st')
         /\ timeoutId st' = None
         /\ playCount st' = k
         /\ trace st' = map Fed (payloads (frames st0))
                          ++ replays (k - 1) (frames st0) ++ [stopped_ended]
         /\ fire now st' = Ok (tt, st'))
    /\ (forall st,
          frames st = frames st0 -> loop st = loop st0 ->
          nth_error (frames st) (nextFrameIndex st) = None ->
          (S (playCount st) < k)%nat ->
          exists e st',
            scheduleNextFrame now stack_limit st = Ok (tt, st')
            /\ hd_error (frames st) = Some e
            /\ st' = scheduled now e (restarted now st)
            /\ playCount st' = S (playCount st)
            /\ nextFrameIndex st' = 0%nat
            /\ startTime st' = now (clock st)
            /\ trace st' = trace st ++ [Fed reset_terminal]
            /\ timeoutId st' <> None).
Proof.
  intros now fetch src limit start k res st0 Hk Hinit Hd.
  destruct (init_ok _ _ _ _ _ Hinit)
    as (fetched & _ & _ & [Hne Hlast] & _ & Hs & Hi & He & Ht & Hp & Hl & Htr).
  simpl in Hi, He, Ht, Hp, Hl, Htr.
  split.
  - intros n Hn.
    rewrite play_spec, Ht, resume_spec.
    destruct (frames_from_cons st0 0) as (e0 & l0 & Fr & N0).
    { apply nonempty_length in Hne. lia. }
    unfold cued, primed. rewrite Hi, N0, Hs.
    set (s := p_effectiveStartAt _).
    destruct (sought_fields now (Absolute s) st0)
      as (T1 & I1 & _ & F1 & D1 & L1 & Ti1 & _ & _ & P1 & _).
    assert (Hh : halted now st0 = st0) by (unfold halted; now rewrite Ht).
    rewrite Hh in T1, I1.
    set (t := target now (Absolute s) st0) in *.
    assert (Ht0 : 0 <= t /\ t <= duration st0 * 1000)
      by (apply target_of_bounds; exact Hd).
    assert (Hpos : positioned t st0 = st0).
    { unfold positioned. rewrite He.
      destruct (ltb_spec t 0) as [X|X]; [lra | reflexivity]. }
    unfold caught_up in T1, I1. rewrite Hpos, Hi in T1, I1.
    unfold frames_from in T1, I1. cbn [skipn] in T1, I1.
    rewrite Htr in T1. cbn [app] in T1. rewrite Nat.add_0_l in I1.
    set (sg := sought now (Absolute s) st0) in *.
    pose proof (before_length_lt t (frames st0) Hne) as Lt.
    rewrite <- Hlast in Lt. specialize (Lt (proj2 Ht0)).
    destruct (anchored_fields now sg) as (Fa & Ia & La & Pa & Ta & _).
    destruct (frames_from_cons (anchored now sg) (nextFrameIndex (anchored now sg)))
      as (e & l & Fe & Ne).
    { rewrite Fa, Ia, F1, I1. exact Lt. }
    rewrite stack_limit_two, (schedule_next now _ _ e Ne).
    destruct (scheduled_fields now e (anchored now sg))
      as (Fs & Is & Ls & Ps & Ts & _ & _ & Tis & _).
    set (st1 := scheduled now e (anchored now sg)) in *.
    destruct (run_to_end now k n st1) as (st' & R & Tn & Pn & Fn & Trn).
    + now rewrite Fs, Fa, F1.
    + now rewrite Ls, La, L1.
    + rewrite Tis. discriminate.
    + rewrite Fs, Fa, F1, Is, Ia, I1. exact Lt.
    + rewrite Ps, Pa, P1, Hp. lia.
    + rewrite Fs, Fa, F1, Ps, Pa, P1, Hp, Is, Ia, I1.
      replace (k - 1 - 0)%nat with (k - 1)%nat by lia.
      assert (X : (k = S (k - 1))%nat) by lia. rewrite X in Hn at 1.
      rewrite Nat.mul_succ_l in Hn. lia.
    + exists st1, st'. split; [reflexivity|].
      split; [rewrite Tis; discriminate|].
      split; [exact R|]. split; [exact Tn|]. split; [exact Pn|]. split.
      * rewrite Trn. rewrite Ts, Ta, T1, Ps, Pa, P1, Hp, Fs, Fa, F1, Is, Ia, I1.
        unfold frames_from. rewrite Fs, Fa, F1.
        replace (k - 1 - 0)%nat with (k - 1)%nat by lia.
        rewrite app_assoc. f_equal.
        rewrite <- map_app. unfold payloads. rewrite <- map_app. do 2 f_equal.
        rewrite (skipn_length_app_eq _ _ _ (before_from_target t (frames st0))).
        apply before_from_target.
      * unfold fire, bind, get. rewrite Tn. reflexivity.
  - intros st F L N P.
    destruct (frames st) as [|e l] eqn:Fr; [congruence|]. rewrite <- Fr in N.
    exists e, (scheduled now e (restarted now st)).
    rewrite stack_limit_two.
    rewrite (schedule_restart now _ st e l N); [|rewrite L, Hl, loop_again_number;
      now apply Nat.ltb_lt | exact Fr].
    simpl. repeat split; try reflexivity. discriminate.
Qed.

Lemma init_sample (lp : loop_setting) :
  init no_network (inline_source two_frames None) (recording None None lp)
  = Ok ((80%nat, 24%nat, 1), sample_engine lp).
Proof. reflexivity. Qed.

Lemma loop_count_is_exact_witness :
  exists st1 st',
    play frozen_clock (sample_engine (LoopNumber (Num.of_nat 2))) = Ok (true, st1)
    /\ timeoutId st1 <> None
    /\ run frozen_clock 4 st1 = Ok (tt, st')
    /\ timeoutId st' = None
    /\ playCount st' = 2%nat
    /\ trace st' = [Fed "a"; Fed "b"; Fed reset_terminal; Fed "a"; Fed "b";
                    StateSet "stopped" "ended"]%string
    /\ fire frozen_clock st' = Ok (tt, st').
Proof.
  assert (H1 : (1 <= 2)%nat) by lia.
  assert (H3 : 0 <= duration (sample_engine (LoopNumber (Num.of_nat 2))))
    by (vm_compute; discriminate).
  assert (H4 : (2 * List.length (frames (sample_engine (LoopNumber (Num.of_nat 2)))) <= 4)%nat)
    by (vm_compute; lia).
  exact (proj1 (loop_count_is_exact frozen_clock no_network
                  (inline_source two_frames None) None None 2 _ _ H1
                  (init_sample (LoopNumber (Num.of_nat 2))) H3) 4%nat H4).
Defined.

(** ** Sorted timelines *)

Lemma sorted_from_all (u : Q) (l : list frame) :
  sorted_from u l -> Forall (fun e => u <= time e) l.
Proof.
  revert u. induction l as [|x l IH]; intros u H; [constructor|].
  destruct H as [H1 H2]. constructor; [exact H1|].
  apply IH. now apply (sorted_from_weaken (time x)).
Qed.

Lemma sorted_from_sorted (u : Q) (l : list frame) : sorted_from u l -> sorted l.
Proof. destruct l as [|x l]; [auto | intros [_ H]; exact H]. Qed.

Lemma sorted_app_r (a b : list frame) : sorted (a ++ b) -> sorted b.
Proof.
  induction a as [|x a IH]; intros H; [exact H|].
  apply IH. simpl in H. now apply (sorted_from_sorted (time x)).
Qed.

Lemma sorted_skipn (i : nat) (l : list frame) : sorted l -> sorted (skipn i l).
Proof.
  intros H. rewrite <- (firstn_skipn i l) in H. now apply sorted_app_r in H.
Qed.

(** In a sorted timeline the loop of [seek] leaves no frame that comes
    before the target. *)
Lemma from_target_all_later (t : Q) (l : list frame) :
  sorted l -> Forall (fun e => t <= time e * 1000) (from_target t l).
Proof.
  intros H.
  assert (S1 : sorted (from_target t l)).
  { apply (sorted_app_r (before t l)). now rewrite before_from_target. }
  pose proof (from_target_head t l) as Hh.
  destruct (from_target t l) as [|e r]; [constructor|].
  constructor; [exact Hh|].
  apply sorted_from_all in S1.
  apply Forall_impl with (2 := S1). intros a Ha. simpl in Ha. lra.
Qed.

(** ** Seeking: the contract *)

(** With a timeline that is not empty [scheduleNextFrame] returns, in one
    of its three ways. *)
Lemma schedule_returns (now : nat -> Q) (st : engine) :
  frames st <> [] ->
  exists st',
    scheduleNextFrame now stack_limit st = Ok (tt, st')
    /\ ((exists e, nth_error (frames st) (nextFrameIndex st) = Some e
                   /\ st' = scheduled now e st)
        \/ (nth_error (frames st) (nextFrameIndex st) = None
            /\ loop_again (loop st) (S (playCount st)) = false
            /\ st' = ended st)
        \/ (nth_error (frames st) (nextFrameIndex st) = None
            /\ loop_again (loop st) (S (playCount st)) = true
            /\ exists e, hd_error (frames st) = Some e
                         /\ st' = scheduled now e (restarted now st))).
Proof.
  intros Hne. rewrite stack_limit_two.
  destruct (nth_error (frames st) (nextFrameIndex st)) as [e|] eqn:E.
  - exists (scheduled now e st). split; [now apply schedule_next|].
    left. exists e. auto.
  - destruct (loop_again (loop st) (S (playCount st))) eqn:A.
    + destruct (frames st) as [|e l] eqn:Fr; [congruence|]. rewrite <- Fr in E.
      exists (scheduled now e (restarted now st)).
      split; [now apply (schedule_restart now _ st e l)|].
      right. right. rewrite Fr in E. repeat split; auto. exists e. auto.
    + exists (ended st). split; [now apply schedule_end|].
      right. left. auto.
Qed.

(** It leaves the recording as it is and never sets a start offset. *)
Lemma schedule_keeps (now : nat -> Q) (st st' : engine) :
  frames st <> [] ->
  scheduleNextFrame now stack_limit st = Ok (tt, st') ->
  frames st' = frames st /\ duration st' = duration st /\ loop st' = loop st
  /\ (effectiveStartAt st' = effectiveStartAt st \/ effectiveStartAt st' = None).
Proof.
  intros Hne H. destruct (schedule_returns now st Hne) as (st2 & R & C).
  rewrite R in H. inversion H; subst st2; clear H.
  destruct C as [(e & _ & ->)|[(_ & _ & ->)|(_ & _ & e & _ & ->)]];
    simpl; auto.
Qed.

Lemma resume_returns (now : nat -> Q) (st : engine) :
  frames st <> [] ->
  exists st',
    resume now st = Ok (tt, st')
    /\ frames st' = frames st /\ duration st' = duration st /\ loop st' = loop st
    /\ (effectiveStartAt st' = effectiveStartAt st \/ effectiveStartAt st' = None).
Proof.
  intros Hne. rewrite resume_spec.
  destruct (schedule_returns now (anchored now st) Hne) as (st' & R & _).
  exists st'. split; [exact R|].
  apply (schedule_keeps now (anchored now st) st' Hne R).
Qed.

Section SeekContract.

Variable now : nat -> Q.

Lemma halted_timing (st : engine) :
  pauseElapsedTime (halted now st)
  = match timeoutId st with
    | Some _ => Some (now (clock st) - startTime st)
    | None => pauseElapsedTime st
    end
  /\ clock (halted now st)
     = match timeoutId st with Some _ => S (clock st) | None => clock st end
  /\ startTime (halted now st) = startTime st.
Proof. unfold halted. destruct (timeoutId st); repeat split; reflexivity. Qed.

Lemma target_resolved (where_ : position) (st : engine) :
  target now where_ st
  = Num.min
      (Num.max
         (let currentTime :=
            or_zero (match timeoutId st with
                     | Some _ => Some (now (clock st) - startTime st)
                     | None => pauseElapsedTime st
                     end) / 1000 in
          match where_ with
          | Absolute x => x
          | Rewind => currentTime - 5
          | Forward => currentTime + 5
          | RewindMore => currentTime - (1 # 10) * duration st
          | ForwardMore => currentTime + (1 # 10) * duration st
          | Percent n => n / 100 * duration st
          end) 0) (duration st) * 1000.
Proof.
  unfold target, target_of, resolve.
  destruct (halted_timing st) as (P & _).
  destruct (halted_fields now st) as (_ & D & _).
  rewrite P, D. destruct where_; reflexivity.
Qed.

(** The state [seek] reaches before it resumes, field by field. *)
Lemma sought_shape (where_ : position) (st : engine) :
  let t := target now where_ st in
  let back := Num.ltb t (elapsedVirtualTime st) in
  let from := if back then 0%nat else nextFrameIndex st in
  let c := before t (skipn from (frames st)) in
  let s := sought now where_ st in
  trace s = trace st ++ (if back then [Fed reset_terminal] else []) ++ map Fed (payloads c)
  /\ nextFrameIndex s = (from + List.length c)%nat
  /\ elapsedVirtualTime s
     = match c with
       | [] => if back then 0 else elapsedVirtualTime st
       | _ => time (last_frame c) * 1000
       end
  /\ startTime s = startTime st
  /\ clock s = match timeoutId st with Some _ => S (clock st) | None => clock st end
  /\ skipn (nextFrameIndex s) (frames st) = from_target t (skipn from (frames st)).
Proof.
  intros t back from c s.
  destruct (halted_fields now st) as (Fh & _ & _ & Ih & Eh & Th & _).
  destruct (halted_timing st) as (_ & Ch & Sh).
  assert (Hp : frames (positioned t (halted now st)) = frames st
               /\ nextFrameIndex (positioned t (halted now st)) = from
               /\ trace (positioned t (halted now st))
                  = trace st ++ (if back then [Fed reset_terminal] else [])
               /\ elapsedVirtualTime (positioned t (halted now st))
                  = (if back then 0 else elapsedVirtualTime st)
               /\ startTime (positioned t (halted now st)) = startTime st
               /\ clock (positioned t (halted now st)) = clock (halted now st)).
  { unfold positioned. rewrite Eh. fold back. unfold from.
    destruct back; cbn [frames nextFrameIndex trace elapsedVirtualTime startTime clock
                        rewound set_elapsedVirtualTime set_nextFrameIndex set_trace];
      rewrite ?Fh, ?Ih, ?Eh, ?Th, ?Sh, ?app_nil_r; repeat split; reflexivity. }
  destruct Hp as (Fp & Ip & Tp & Ep & Sp & Cp).
  assert (Hc : caught_up t (halted now st) = c).
  { unfold caught_up, frames_from. rewrite Fp, Ip. reflexivity. }
  destruct (emit_all_fields c (positioned t (halted now st)))
    as (H1 & H2 & H3 & _ & _ & _ & _ & _ & _ & H10 & _ & H12).
  assert (Hs : s = set_effectiveStartAt None
                     (set_pauseElapsedTime (Some t)
                        (emit_all c (positioned t (halted now st))))).
  { unfold s, sought. fold t. rewrite Hc. reflexivity. }
  rewrite Hs.
  cbn [trace nextFrameIndex elapsedVirtualTime startTime clock
       set_effectiveStartAt set_pauseElapsedTime].
  rewrite H1, H2, H3, H10, H12, Tp, Ip, Ep, Sp, Cp, Ch, <- app_assoc.
  repeat split; try reflexivity.
  apply (frames_from_split st from c). unfold frames_from, c.
  symmetry. apply before_from_target.
Qed.

(** The same state as far as [seek] has set it. *)
Lemma sought_settings (where_ : position) (st : engine) :
  let s := sought now where_ st in
  frames s = frames st /\ duration s = duration st /\ loop s = loop st
  /\ timeoutId s = None /\ effectiveStartAt s = None
  /\ pauseElapsedTime s = Some (target now where_ st)
  /\ playCount s = playCount st.
Proof.
  destruct (sought_fields now where_ st)
    as (_ & _ & _ & F & D & L & Ti & E & P & Pc & _).
  cbv zeta. auto 10.
Qed.

(** [seek(where)], in full: what it returns and the state it leaves, by
    fields, for an engine that was not playing and for one that was. *)
Lemma seek_returns (where_ : position) (st : engine) :
  initialised st -> sorted (frames st) -> 0 <= duration st ->
  let t := target now where_ st in
  let back := Num.ltb t (elapsedVirtualTime st) in
  let from := if back then 0%nat else nextFrameIndex st in
  let c := before t (skipn from (frames st)) in
  let rest := from_target t (skipn from (frames st)) in
  let fed_now := (if back then [Fed reset_terminal] else []) ++ map Fed (payloads c) in
  (0 <= t /\ t <= duration st * 1000)
  /\ (skipn from (frames st) = c ++ rest
      /\ Forall (fun e => time e * 1000 < t) c
      /\ Forall (fun e => t <= time e * 1000) rest)
  /\ exists st',
       seek now where_ st = Ok (true, st')
       /\ frames st' = frames st /\ duration st' = duration st /\ loop st' = loop st
       /\ effectiveStartAt st' = None
       /\ elapsedVirtualTime st'
          = match c with
            | [] => if back then 0 else elapsedVirtualTime st
            | _ => time (last_frame c) * 1000
            end
       /\ (timeoutId st = None ->
             trace st' = trace st ++ fed_now
             /\ nextFrameIndex st' = (from + List.length c)%nat
             /\ pauseElapsedTime st' = Some t
             /\ timeoutId st' = None
             /\ startTime st' = startTime st
             /\ playCount st' = playCount st
             /\ clock st' = clock st)
       /\ (timeoutId st <> None ->
             match rest with
             | e :: _ =>
                 trace st' = trace st ++ fed_now
                 /\ nextFrameIndex st' = (from + List.length c)%nat
                 /\ pauseElapsedTime st' = None
                 /\ startTime st' = now (S (clock st)) - t
                 /\ timeoutId st'
                    = Some (let timeout :=
                              time e * 1000
                              - (now (S (S (clock st))) - (now (S (clock st)) - t)) in
                            if Num.ltb timeout 0 then 0 else timeout)
                 /\ playCount st' = playCount st
                 /\ clock st' = S (S (S (clock st)))
             | [] =>
                 if loop_again (loop st) (S (playCount st)) then
                   trace st' = trace st ++ fed_now ++ [Fed reset_terminal]
                   /\ nextFrameIndex st' = 0%nat
                   /\ pauseElapsedTime st' = None
                   /\ startTime st' = now (S (S (clock st)))
                   /\ (exists e0,
                         hd_error (frames st) = Some e0
                         /\ timeoutId st'
                            = Some (let timeout :=
                                      time e0 * 1000
                                      - (now (S (S (S (clock st))))
                                         - now (S (S (clock st)))) in
                                    if Num.ltb timeout 0 then 0 else timeout))
                   /\ playCount st' = S (playCount st)
                   /\ clock st' = S (S (S (S (clock st))))
                 else
                   trace st' = trace st ++ fed_now ++ [stopped_ended]
                   /\ nextFrameIndex st' = (from + List.length c)%nat
                   /\ pauseElapsedTime st' = Some (duration st * 1000)
                   /\ startTime st' = now (S (clock st)) - t
                   /\ timeoutId st' = None
                   /\ playCount st' = S (playCount st)
                   /\ clock st' = S (S (clock st))
             end).
Proof.
  intros [Hne Hlast] Hs Hd t back from c rest fed_now.
  destruct (sought_shape where_ st) as (T & I & E & St & C & Sk).
  destruct (sought_settings where_ st) as (F & D & L & Ti & Ef & P & Pc).
  cbv zeta in T, I, E, St, C, Sk, F, D, L, Ti, Ef, P, Pc.
  fold t in T, I, E, St, C, Sk, P. fold back in T, I, E, Sk. fold from in T, I, E, Sk.
  fold c in T, I, E. fold rest in Sk. fold fed_now in T.
  set (s := sought now where_ st) in *.
  split.
  { apply (target_of_bounds (resolve where_ (halted now st)) (duration st) Hd). }
  split.
  { split; [symmetry; apply before_from_target|].
    split; [apply before_all_earlier|].
    apply from_target_all_later. now apply sorted_skipn. }
  rewrite seek_spec. fold s.
  destruct (timeoutId st) as [hd|] eqn:Ht.
  - (* a timer was pending: it is cancelled and the engine resumes *)
    rewrite resume_spec, stack_limit_two.
    destruct (anchored_fields now s) as (Fa & Ia & La & Pa & Ta & Da & Ea & Tia & Efa).
    assert (Ca : clock (anchored now s) = S (S (clock st)))
      by (change (clock (anchored now s)) with (S (clock s)); now rewrite C).
    assert (Sa : startTime (anchored now s) = now (S (clock st)) - t).
    { change (startTime (anchored now s))
        with (now (clock s) - or_zero (pauseElapsedTime s)).
      now rewrite C, P. }
    assert (Na : nth_error (frames (anchored now s)) (nextFrameIndex (anchored now s))
                 = hd_error rest).
    { rewrite Fa, Ia, F, nth_error_skipn_hd, Sk. reflexivity. }
    destruct rest as [|e rest'] eqn:Er.
    + destruct (loop_again (loop st) (S (playCount st))) eqn:A.
      * destruct (frames st) as [|e0 l0] eqn:Fr; [congruence|].
        rewrite (schedule_restart now _ (anchored now s) e0 l0 Na).
        2:{ now rewrite La, Pa, L, Pc. }
        2:{ now rewrite Fa, F. }
        eexists. split; [reflexivity|].
        cbn [frames duration loop effectiveStartAt elapsedVirtualTime trace
             nextFrameIndex pauseElapsedTime startTime timeoutId playCount clock
             scheduled restarted set_timeoutId set_clock set_trace set_startTime
             set_nextFrameIndex set_playCount].
        rewrite Fa, Da, La, Efa, Ea, Ta, Pa, Ca, F, D, L, Ef, E, T, Pc.
        do 5 (split; [reflexivity|]).
        split; [intros X; discriminate X|]. intros _.
        split; [now rewrite <- app_assoc|].
        do 3 (split; [reflexivity|]).
        split; [|split; reflexivity].
        exists e0. split; [reflexivity|]. unfold delay_until.
        cbn [clock startTime restarted set_timeoutId set_clock set_trace
             set_startTime set_nextFrameIndex set_playCount].
        rewrite Ca. reflexivity.
      * rewrite (schedule_end now _ (anchored now s) Na).
        2:{ now rewrite La, Pa, L, Pc. }
        eexists. split; [reflexivity|].
        cbn [frames duration loop effectiveStartAt elapsedVirtualTime trace
             nextFrameIndex pauseElapsedTime startTime timeoutId playCount clock
             ended set_timeoutId set_clock set_trace set_startTime
             set_nextFrameIndex set_playCount set_effectiveStartAt
             set_pauseElapsedTime].
        rewrite Fa, Da, La, Ea, Ta, Pa, Ia, Ca, Sa, F, D, L, E, T, I, Pc.
        do 5 (split; [reflexivity|]).
        split; [intros X; discriminate X|]. intros _.
        split; [now rewrite <- app_assoc|].
        repeat split; reflexivity.
    + rewrite (schedule_next now _ (anchored now s) e Na).
      eexists. split; [reflexivity|].
      destruct (scheduled_fields now e (anchored now s))
        as (Fs & Is & Ls & Ps & Ts & Ds & Es & Tis & Efs).
      rewrite Fs, Ds, Ls, Efs, Es, Fa, Da, La, Efa, Ea, F, D, L, Ef, E.
      do 5 (split; [reflexivity|]).
      split; [intros X; discriminate X|]. intros _.
      assert (Ss : startTime (scheduled now e (anchored now s))
                   = startTime (anchored now s)) by reflexivity.
      assert (Pp : pauseElapsedTime (scheduled now e (anchored now s)) = None)
        by reflexivity.
      assert (Cs : clock (scheduled now e (anchored now s))
                   = S (clock (anchored now s))) by reflexivity.
      rewrite Ts, Is, Tis, Ps, Ss, Pp, Cs, Ta, Ia, Pa, T, I, Pc.
      unfold delay_until. rewrite Ca, Sa.
      repeat split; reflexivity.
  - exists s. split; [reflexivity|].
    rewrite F, D, L, Ef, E.
    do 5 (split; [reflexivity|]).
    split; [|intros X; exfalso; apply X; reflexivity].
    intros _. rewrite T, I, P, Ti, St, Pc, C. repeat split; reflexivity.
Qed.

End SeekContract.

(** C4: [seek(where)] after a successful [init], on a sorted timeline.
    [pause()] comes first: a pending timer is cancelled and the elapsed
    time is noted as the clock reads it.  The target [t] is [where] --
    a number, or resolved from the current time, which is the elapsed time
    noted or kept -- clamped to the range from 0 to [duration], in
    milliseconds.  When it precedes [elapsedVirtualTime], the terminal
    reset is fed and the cursor and [elapsedVirtualTime] go back to 0, and
    not otherwise; then, from the cursor on, the frames [c] whose time is
    strictly less than the target are fed, in order, and no other: the
    frames [rest] that follow come at or after the target.  The start
    offset is cleared.  When no timer was pending that is all:
    [pauseElapsedTime] is the target, no timer is set and no clock is read.
    When one was, the engine resumes: [startTime] is the present reading of
    the clock less the target, [pauseElapsedTime] is cleared and a timer is
    set for the frame at the cursor, for the time left until that frame is
    due; if no frame is left there -- [step()] has used up the timeline
    while the timer was pending -- the timeline restarts or the engine
    stops, as at the end of playback. *)
Theorem seek_contract :
  forall (now : nat -> Q) (where_ : position) (st : engine),
    initialised st -> sorted (frames st) -> 0 <= duration st ->
    let noted := match timeoutId st with
                 | Some _ => Some (now (clock st) - startTime st)
                 | None => pauseElapsedTime st
                 end in
    let currentTime := or_zero noted / 1000 in
    let asked := match where_ with
                 | Absolute x => x
                 | Rewind => currentTime - 5
                 | Forward => currentTime + 5
                 | RewindMore => currentTime - (1 # 10) * duration st
                 | ForwardMore => currentTime + (1 # 10) * duration st
                 | Percent n => n / 100 * duration st
                 end in
    let t := Num.min (Num.max asked 0) (duration st) * 1000 in
    let back := Num.ltb t (elapsedVirtualTime st) in
    let from := if back then 0%nat else nextFrameIndex st in
    let c := before t (skipn from (frames st)) in
    let rest := from_target t (skipn from (frames st)) in
    let fed_now := (if back then [Fed reset_terminal] else [])
                   ++ map Fed (payloads c) in
    (0 <= t /\ t <= duration st * 1000)
    /\ (skipn from (frames st) = c ++ rest
        /\ Forall (fun e => time e * 1000 < t) c
        /\ Forall (fun e => t <= time e * 1000) rest)
    /\ exists st',
         seek now where_ st = Ok (true, st')
         /\ frames st' = frames st /\ duration st' = duration st
         /\ loop st' = loop st
         /\ effectiveStartAt st' = None
         /\ elapsedVirtualTime st'
            = match c with
              | [] => if back then 0 else elapsedVirtualTime st
              | _ => time (last_frame c) * 1000
              end
         /\ (timeoutId st = None ->
               trace st' = trace st ++ fed_now
               /\ nextFrameIndex st' = (from + List.length c)%nat
               /\ pauseElapsedTime st' = Some t
               /\ timeoutId st' = None
               /\ startTime st' = startTime st
               /\ playCount st' = playCount st
               /\ clock st' = clock st)
         /\ (timeoutId st <> None ->
               match rest with
               | e :: _ =>
                   trace st' = trace st ++ fed_now
                   /\ nextFrameIndex st' = (from + List.length c)%nat
                   /\ pauseElapsedTime st' = None
                   /\ startTime st' = now (S (clock st)) - t
                   /\ timeoutId st'
                      = Some (let timeout :=
                                time e * 1000
                                - (now (S (S (clock st)))
                                   - (now (S (clock st)) - t)) in
                              if Num.ltb timeout 0 then 0 else timeout)
                   /\ playCount st' = playCount st
                   /\ clock st' = S (S (S (clock st)))
               | [] =>
                   if loop_again (loop st) (S (playCount st)) then
                     trace st' = trace st ++ fed_now ++ [Fed reset_terminal]
                     /\ nextFrameIndex st' = 0%nat
                     /\ pauseElapsedTime st' = None
                     /\ startTime st' = now (S (S (clock st)))
                     /\ (exists e0,
                           hd_error (frames st) = Some e0
                           /\ timeoutId st'
                              = Some (let timeout :=
                                        time e0 * 1000
                                        - (now (S (S (S (clock st))))
                                           - now (S (S (clock st)))) in
                                      if Num.ltb timeout 0 then 0 else timeout))
                     /\ playCount st' = S (playCount st)
                     /\ clock st' = S (S (S (S (clock st))))
                   else
                     trace st' = trace st ++ fed_now ++ [stopped_ended]
                     /\ nextFrameIndex st' = (from + List.length c)%nat
                     /\ pauseElapsedTime st' = Some (duration st * 1000)
                     /\ startTime st' = now (S (clock st)) - t
                     /\ timeoutId st' = None
                     /\ playCount st' = S (playCount st)
                     /\ clock st' = S (S (clock st))
               end).
Proof.
  intros now where_ st H1 H2 H3.
  pose proof (seek_returns now where_ st H1 H2 H3) as R.
  cbv zeta in R. rewrite (target_resolved now where_ st) in R.
  exact R.
Qed.

Lemma seek_contract_witness :
  exists st',
    seek (fun n => Num.of_nat n * 100) (Percent 50) playing_sample = Ok (true, st')
    /\ trace st' = [Fed "a"%string]
    /\ nextFrameIndex st' = 1%nat
    /\ pauseElapsedTime st' = None
    /\ startTime st' = 3 * 100 - (Num.min (Num.max (50 / 100 * 1) 0) 1 * 1000)
    /\ timeoutId st' <> None.
Proof.
  assert (H1 : initialised playing_sample)
    by (split; [discriminate | reflexivity]).
  assert (H2 : sorted (frames playing_sample))
    by (simpl; split; [lra | exact I]).
  assert (H3 : 0 <= duration playing_sample)
    by (vm_compute; discriminate).
  destruct (seek_contract (fun n => Num.of_nat n * 100) (Percent 50) playing_sample
              H1 H2 H3) as (_ & _ & st' & S & _ & _ & _ & _ & _ & _ & P).
  specialize (P ltac:(discriminate)).
  exists st'. split; [exact S|].
  destruct P as (T & I & Pe & St & Ti & _).
  split; [exact T|]. split; [exact I|]. split; [exact Pe|].
  split; [exact St|]. rewrite Ti. discriminate.
Defined.

(** The scenario of the specification: on a recording that lasts 10
    seconds, [seek("50%")] aims at 5 seconds. *)
Example seek_half_scenario (now : nat -> Q) (st : engine) :
  duration st = 10 -> target now (Percent 50) st == 5 * 1000.
Proof.
  intros H. unfold target, target_of, resolve.
  destruct (halted_fields now st) as (_ & D & _). rewrite D, H.
  vm_compute. reflexivity.
Qed.

(** ** The reachable states *)

Section Reachable.

Variable now : nat -> Q.
Variable fetch : string -> response.

Lemma init_settled (src : source) (st0 st : engine) (res : nat * nat * Q) :
  nextFrameIndex st0 = 0%nat -> timeoutId st0 = None ->
  init fetch src st0 = Ok (res, st) -> settled st.
Proof.
  intros Hi Ht H.
  destruct (init_ok _ _ _ _ _ H) as (_ & _ & _ & Hin & _ & _ & I & _ & T & _).
  split; [exact Hin|]. intros _. rewrite I, T. auto.
Qed.

(** [play()] leaves no start offset pending when it comes to resuming. *)
Lemma cued_settles (st : engine) :
  timeoutId st = None ->
  frames (cued now st) = frames st
  /\ duration (cued now st) = duration st
  /\ effectiveStartAt (cued now st) = None.
Proof.
  intros Ht. unfold cued, primed.
  destruct (nth_error (frames st) (nextFrameIndex st)) eqn:E.
  - destruct (effectiveStartAt st) eqn:Ef; [|auto].
    destruct (sought_fields now (Absolute q) st)
      as (_ & _ & _ & F & D & _ & _ & Es & _).
    auto.
  - cbn [effectiveStartAt set_effectiveStartAt].
    destruct (sought_fields now (Absolute 0) (set_effectiveStartAt (Some 0) st))
      as (_ & _ & _ & F & D & _ & _ & Es & _).
    auto.
Qed.


Lemma perform_settled (op : operation) (v : returned) (st st' : engine) :
  settled st -> perform now op st = Ok (v, st') -> settled st'.
Proof.
  intros [[Hne Hd] J] H. unfold settled, initialised.
  destruct op as [| | |w| |t|]; unfold perform, bind in H.
  - rewrite play_spec in H. destruct (timeoutId st) eqn:Ht.
    + inversion H; subst. rewrite Ht. auto.
    + destruct (cued_settles st Ht) as (F & D & E).
      destruct (resume_returns now (cued now st)) as (s2 & R & F2 & D2 & _ & E2);
        [now rewrite F|].
      rewrite R in H. inversion H; subst s2; clear H.
      rewrite F2, D2, F, D. split; [auto|].
      intros X. destruct E2 as [E2|E2]; rewrite E2 in X; congruence.
  - rewrite pause_spec in H. inversion H; subst; clear H.
    destruct (halted_fields now st) as (F & D & _ & I & _ & _ & T & E & _).
    rewrite F, D, I, T, E. split; [auto|]. intros X. split; [now apply J | reflexivity].
  - unfold stop in H. rewrite pause_spec in H. inversion H; subst; clear H.
    destruct (halted_fields now st) as (F & D & _ & I & _ & _ & T & E & _).
    rewrite F, D, I, T, E. split; [auto|]. intros X. split; [now apply J | reflexivity].
  - rewrite seek_spec in H.
    destruct (sought_fields now w st) as (_ & _ & _ & F & D & _ & _ & E & _).
    destruct (timeoutId st) eqn:Ht.
    + destruct (resume_returns now (sought now w st)) as (s2 & R & F2 & D2 & _ & E2);
        [now rewrite F|].
      rewrite R in H. inversion H; subst s2; clear H.
      rewrite F2, D2, F, D. split; [auto|].
      intros X. destruct E2 as [E2|E2]; rewrite E2 in X; congruence.
    + inversion H; subst; clear H. rewrite F, D, E. split; [auto | congruence].
  - destruct (nth_error (frames st) (nextFrameIndex st)) as [e|] eqn:E.
    + rewrite (step_some st e E) in H. inversion H; subst; clear H.
      simpl. split; [auto | congruence].
    + rewrite (step_none st E) in H. inversion H; subst; clear H.
      simpl. split; [auto | congruence].
  - unfold getPoster, bind, get, ret in H. inversion H; subst; clear H. auto.
  - unfold getCurrentTime, bind, get, ret, read_clock in H.
    destruct (timeoutId st) eqn:Ht; inversion H; subst; clear H; simpl;
      rewrite Ht; auto.
Qed.

Lemma fire_settled (st st' : engine) :
  settled st -> fire now st = Ok (tt, st') -> settled st'.
Proof.
  intros [[Hne Hd] J] H. unfold settled, initialised.
  unfold fire, bind, get in H. destruct (timeoutId st) eqn:Ht.
  - assert (E0 : effectiveStartAt st = None).
    { destruct (effectiveStartAt st) eqn:E; [|reflexivity].
      destruct J as [_ J]; [discriminate | congruence]. }
    destruct (frames_from (nextFrameIndex st) st) as [|cur rest] eqn:Fr.
    + unfold runFrame, bind, get in H. rewrite Fr in H. discriminate H.
    + assert (Hi : (nextFrameIndex st < List.length (frames st))%nat).
      { destruct (Nat.lt_ge_cases (nextFrameIndex st) (List.length (frames st)))
          as [L|L]; [exact L|].
        unfold frames_from in Fr. rewrite skipn_all2 in Fr by exact L.
        discriminate Fr. }
      destruct (runFrame_spec now st Hne Hi) as (fedNow & later & _ & _ & M).
      destruct (emit_timed_fields fedNow st) as (_ & _ & F & D & _ & _ & E & _).
      destruct later as [|e later'].
      * destruct (loop_again _ _).
        -- destruct M as (e0 & _ & R). rewrite R in H.
           inversion H; subst; clear H. simpl. rewrite F, D, E, E0.
           split; [auto | congruence].
        -- rewrite M in H. inversion H; subst; clear H. simpl.
           rewrite F, D. split; [auto | congruence].
      * rewrite M in H. inversion H; subst; clear H. simpl.
        rewrite F, D, E, E0. split; [auto | congruence].
  - inversion H; subst; clear H. rewrite Ht. auto.
Qed.

Lemma reachable_settled (st : engine) : reachable now fetch st -> settled st.
Proof.
  induction 1 as [src limit start lp res st H | op v st st' _ IH H | st st' _ IH H].
  - apply (init_settled src (recording limit start lp) st res eq_refl eq_refl H).
  - apply (perform_settled op v st st' IH H).
  - apply (fire_settled st st' IH H).
Qed.

End Reachable.

(** ** Errors *)

Lemma doFetch_raises (fetch : string -> response) (src : source) (e : exn) :
  doFetch fetch src = Raise e ->
  (e = MissingSource /\ url src = None /\ data src = None)
  \/ (exists u, url src = Some u /\ ok (fetch u) = false
                /\ e = FetchError (statusText (fetch u)) (status (fetch u))).
Proof.
  unfold doFetch. destruct (url src) as [u|].
  - destruct (ok (fetch u)) eqn:K; simpl; intros H; [discriminate|].
    inversion H. right. exists u. auto.
  - destruct (data src); intros H; [discriminate|]. inversion H. left. auto.
Qed.




(** ** Seeking twice *)

Lemma last_frame_in (P : frame -> Prop) (l : list frame) :
  l <> [] -> Forall P l -> P (last_frame l).
Proof.
  unfold last_frame. induction l as [|x l IH]; intros Hne H; [congruence|].
  inversion H as [|? ? Hx Hl]; subst.
  destruct l as [|y l]; [exact Hx|].
  change (last (x :: y :: l) (0, EmptyString)) with (last (y :: l) (0, EmptyString)).
  apply IH; [discriminate | exact Hl].
Qed.

Lemma last_app_nonempty (a b : list frame) (d : frame) :
  b <> [] -> last (a ++ b) d = last b d.
Proof.
  intros Hb. induction a as [|x a IH]; [reflexivity|].
  simpl app. destruct (a ++ b) as [|y r] eqn:E.
  - destruct a; [simpl in E; congruence | discriminate E].
  - exact IH.
Qed.

Section SeekTwice.

Variable now : nat -> Q.

(** The target of an absolute position depends on [duration] only. *)
Lemma target_absolute (t : Q) (st : engine) :
  target now (Absolute t) st = target_of t (duration st).
Proof. reflexivity. Qed.

(** After [seek] has positioned the engine and fed the frames before the
    target, [elapsedVirtualTime] does not exceed the target and the frame at
    the cursor, if any, does not come before it. *)
Lemma sought_stable (w : position) (st : engine) :
  0 <= duration st ->
  elapsedVirtualTime (sought now w st) <= target now w st
  /\ before (target now w st)
       (frames_from (nextFrameIndex (sought now w st)) (sought now w st)) = [].
Proof.
  intros Hd.
  destruct (target_of_bounds (resolve w (halted now st)) (duration st) Hd) as [B _].
  fold (target now w st) in B.
  destruct (sought_fields now w st) as (_ & I & E & F & _).
  cbv zeta in I, E.
  set (t := target now w st) in *. set (h := halted now st) in *.
  destruct (positioned_fields t h) as (Fp & _ & _ & _ & _ & _ & Cp).
  set (p := positioned t h) in *.
  split.
  - rewrite E. destruct (caught_up t h) as [|x c] eqn:Ec.
    + destruct Cp as [(_ & _ & _ & Z)|[Hge Hp]].
      * rewrite Z. exact B.
      * rewrite Hp. exact Hge.
    + assert (X : time (last_frame (x :: c)) * 1000 < t).
      { apply (last_frame_in (fun e => time e * 1000 < t)); [discriminate|].
        rewrite <- Ec. apply before_all_earlier. }
      lra.
  - unfold frames_from at 1. rewrite F, I.
    destruct (halted_fields now st) as (Fh & _).
    fold h in Fh.
    assert (Fc : frames_from (nextFrameIndex p) st
                 = caught_up t h
                   ++ from_target t (frames_from (nextFrameIndex p) st)).
    { unfold caught_up. fold p. unfold frames_from.
      rewrite Fp, Fh. symmetry. apply before_from_target. }
    pose proof (frames_from_split st _ _ _ Fc) as Sp.
    unfold frames_from in Sp at 1. rewrite Sp.
    apply before_from_target_nil.
Qed.

(** From a state that [seek] has left so, seeking the same target feeds
    nothing and resets nothing. *)
Lemma sought_again (w : position) (x : engine) :
  elapsedVirtualTime x <= target now w x ->
  before (target now w x) (frames_from (nextFrameIndex x) x) = [] ->
  trace (sought now w x) = trace x
  /\ nextFrameIndex (sought now w x) = nextFrameIndex x
  /\ elapsedVirtualTime (sought now w x) = elapsedVirtualTime x.
Proof.
  intros He Hb.
  destruct (sought_fields now w x) as (T & I & E & _).
  cbv zeta in T, I, E.
  destruct (halted_fields now x) as (Fh & _ & _ & Ih & Eh & Th & _).
  set (t := target now w x) in *. set (h := halted now x) in *.
  assert (Hp : positioned t h = h).
  { unfold positioned. rewrite Eh.
    destruct (ltb_spec t (elapsedVirtualTime x)) as [X|X]; [lra | reflexivity]. }
  assert (Hc : caught_up t h = []).
  { unfold caught_up. rewrite Hp. unfold frames_from. rewrite Fh, Ih. exact Hb. }
  rewrite Hp, Hc in T, I, E.
  change (map Fed (payloads [])) with (@nil event) in T.
  change (List.length (@nil frame)) with 0%nat in I.
  cbv beta iota in E.
  rewrite app_nil_r in T. rewrite Nat.add_0_r in I.
  rewrite T, I, E, Th, Ih, Eh. auto.
Qed.

(** X21: seeking an absolute target twice feeds what seeking it once feeds: the
    second [seek] feeds no frame and resets nothing.  This holds in every
    state in which a pending timer has a frame to emit -- as it has unless
    [step()] was called during playback until no frame was left. *)
Lemma seek_twice_feeds_once (t : Q) (st : engine) :
  initialised st -> 0 <= duration st ->
  (timeoutId st <> None -> (nextFrameIndex st < List.length (frames st))%nat) ->
  exists st1 st2,
    seek now (Absolute t) st = Ok (true, st1)
    /\ seek now (Absolute t) st1 = Ok (true, st2)
    /\ trace st2 = trace st1
    /\ nextFrameIndex st2 = nextFrameIndex st1
    /\ elapsedVirtualTime st2 = elapsedVirtualTime st1.
Proof.
  intros [Hne Hlast] Hd Hpending.
  set (s1 := sought now (Absolute t) st).
  destruct (sought_stable (Absolute t) st Hd) as [Ev Bf]. fold s1 in Ev, Bf.
  destruct (sought_fields now (Absolute t) st)
    as (_ & I1 & _ & F1 & D1 & _ & Ti1 & _). fold s1 in I1, F1, D1, Ti1.
  cbv zeta in I1.
  rewrite target_absolute in Ev, Bf, I1.
  set (T := target_of t (duration st)) in *.
  destruct (timeoutId st) as [hd|] eqn:Ht.
  - (* a timer was pending: the engine resumes after each seek *)
    assert (Hi : (nextFrameIndex st < List.length (frames st))%nat)
      by (apply Hpending; discriminate).
    destruct (halted_fields now st) as (Fh & _ & _ & Ih & _).
    destruct (positioned_fields T (halted now st)) as (Fp & _ & _ & _ & _ & _ & Cp).
    set (p := positioned T (halted now st)) in *.
    assert (Hip : (nextFrameIndex p < List.length (frames st))%nat).
    { destruct Cp as [(_ & _ & Z & _)|[_ Hp]].
      - rewrite Z. pose proof (nonempty_length _ Hne). lia.
      - rewrite Hp, Ih. exact Hi. }
    assert (Hi1 : (nextFrameIndex s1 < List.length (frames s1))%nat).
    { rewrite F1, I1.
      assert (Fc : frames_from (nextFrameIndex p) st
                   = caught_up T (halted now st)
                     ++ from_target T (frames_from (nextFrameIndex p) st)).
      { unfold caught_up. fold p. unfold frames_from.
        rewrite Fp, Fh. symmetry. apply before_from_target. }
      destruct (frames_from_cons st _ Hip) as (e & l & Fe & _).
      assert (Lst : last_frame (frames_from (nextFrameIndex p) st)
                    = last_frame (frames st)).
      { unfold last_frame, frames_from.
        rewrite <- (firstn_skipn (nextFrameIndex p) (frames st)) at 2.
        rewrite last_app_nonempty; [reflexivity|].
        unfold frames_from in Fe. rewrite Fe. discriminate. }
      destruct (from_target_keeps_last T (frames_from (nextFrameIndex p) st))
        as [Nn _].
      { rewrite Fe. discriminate. }
      { rewrite Lst, <- Hlast.
        apply (target_of_bounds t (duration st) Hd). }
      apply nonempty_length in Nn.
      pose proof (frames_from_length st _ (Nat.lt_le_incl _ _ Hip)) as Len.
      rewrite Fc, length_app in Len. lia. }
    destruct (anchored_fields now s1) as (Fa & Ia & _ & _ & Ta & Da & Ea & _).
    destruct (frames_from_cons (anchored now s1) (nextFrameIndex (anchored now s1)))
      as (e & l & _ & Ne); [rewrite Fa, Ia; exact Hi1|].
    destruct (scheduled_fields now e (anchored now s1))
      as (Fs & Is & _ & _ & Ts & Ds & Es & Tis & _).
    assert (S1 : seek now (Absolute t) st
                 = Ok (true, scheduled now e (anchored now s1))).
    { rewrite seek_spec, Ht. fold s1.
      now rewrite resume_spec, stack_limit_two, (schedule_next now _ _ e Ne). }
    set (st1 := scheduled now e (anchored now s1)) in *.
    assert (Ev1 : elapsedVirtualTime st1 <= target now (Absolute t) st1).
    { rewrite target_absolute, Ds, Da, D1, Es, Ea. exact Ev. }
    assert (Bf1 : before (target now (Absolute t) st1)
                    (frames_from (nextFrameIndex st1) st1) = []).
    { rewrite target_absolute, Ds, Da, D1. unfold frames_from.
      rewrite Fs, Fa, Is, Ia. exact Bf. }
    destruct (sought_again (Absolute t) st1 Ev1 Bf1) as (T2 & I2 & E2).
    destruct (sought_fields now (Absolute t) st1) as (_ & _ & _ & F2 & _).
    set (s2 := sought now (Absolute t) st1) in *.
    destruct (anchored_fields now s2) as (Fa2 & Ia2 & _ & _ & Ta2 & _ & Ea2 & _).
    destruct (frames_from_cons (anchored now s2) (nextFrameIndex (anchored now s2)))
      as (e2 & l2 & _ & Ne2).
    { rewrite Fa2, Ia2, F2, I2, Fs, Fa, Is, Ia. exact Hi1. }
    destruct (scheduled_fields now e2 (anchored now s2))
      as (_ & Is2 & _ & _ & Ts2 & _ & Es2 & _).
    assert (S2 : seek now (Absolute t) st1
                 = Ok (true, scheduled now e2 (anchored now s2))).
    { rewrite seek_spec, Tis. fold s2.
      now rewrite resume_spec, stack_limit_two, (schedule_next now _ _ e2 Ne2). }
    exists st1, (scheduled now e2 (anchored now s2)).
    split; [exact S1|]. split; [exact S2|].
    rewrite Ts2, Ta2, T2, Is2, Ia2, I2, Es2, Ea2, E2. auto.
  - (* no timer was pending *)
    assert (Ev1 : elapsedVirtualTime s1 <= target now (Absolute t) s1)
      by (rewrite target_absolute, D1; exact Ev).
    assert (Bf1 : before (target now (Absolute t) s1)
                    (frames_from (nextFrameIndex s1) s1) = [])
      by (rewrite target_absolute, D1; exact Bf).
    destruct (sought_again (Absolute t) s1 Ev1 Bf1) as (T2 & I2 & E2).
    exists s1, (sought now (Absolute t) s1).
    split; [rewrite seek_spec, Ht; reflexivity|].
    split; [rewrite seek_spec, Ti1; reflexivity|]. auto.
Qed.

End SeekTwice.

(** C9, on the code: a recording of two frames is played with [loop =
    true] and [step()] is called twice, which feeds both frames and leaves
    the timer of [play()] pending.  [seek(1)] then feeds no frame, but as a
    timer was pending it resumes, and the timeline being exhausted it
    restarts: the terminal reset is fed and the cursor goes back to 0,
    [elapsedVirtualTime] staying at the end.  The second [seek(1)] finds the
    cursor before the target and feeds the first frame again. *)
Theorem second_seek_feeds_again :
  exists st1 st2 st3 st4 st5,
    play frozen_clock (sample_engine (LoopBool true)) = Ok (true, st1)
    /\ step st1 = Ok (tt, st2)
    /\ step st2 = Ok (tt, st3)
    /\ timeoutId st3 <> None
    /\ nth_error (frames st3) (nextFrameIndex st3) = None
    /\ seek frozen_clock (Absolute 1) st3 = Ok (true, st4)
    /\ seek frozen_clock (Absolute 1) st4 = Ok (true, st5)
    /\ fed (trace st4) = ["a"; "b"; reset_terminal]%string
    /\ fed (trace st5) = ["a"; "b"; reset_terminal; "a"]%string.
Proof.
  eexists. eexists. eexists. eexists. eexists.
  split; [vm_compute; reflexivity|].
  split; [vm_compute; reflexivity|].
  split; [vm_compute; reflexivity|].
  split; [vm_compute; discriminate|].
  split; [vm_compute; reflexivity|].
  split; [vm_compute; reflexivity|].
  split; [vm_compute; reflexivity|].
  split; vm_compute; reflexivity.
Qed.

(** ** The compression bound *)

(** Every batched frame keeps the time of an input frame. *)
Lemma batch_after_times (P : Q -> Prop) (m : Q) (l : list frame) :
  forall prev,
    P (time prev) -> Forall (fun e => P (time e)) l ->
    Forall (fun e => P (time e)) (batch_after m prev l).
Proof.
  induction l as [|fr l IH]; intros prev Hp Hl; simpl.
  - constructor; [exact Hp | constructor].
  - inversion Hl as [|? ? Hfr Hl']; subst.
    destruct (Num.ltb (time fr - time prev) m).
    + apply IH; [exact Hp | exact Hl'].
    + constructor; [exact Hp|]. apply IH; [exact Hfr | exact Hl'].
Qed.

Lemma batchFrames_times (P : Q -> Prop) (fs : list frame) (mo : option Q) :
  Forall (fun e => P (time e)) fs -> Forall (fun e => P (time e)) (batchFrames fs mo).
Proof.
  intros H. destruct fs as [|fr fs]; [constructor|].
  rewrite batchFrames_cons. inversion H; subst. now apply batch_after_times.
Qed.

(** *** Numbers between which binary64 computes exactly *)

Lemma grid_unit_pos (k : nat) : 0 < inject_Z (2 ^ Z.of_nat k).
Proof.
  change 0 with (inject_Z 0). rewrite <- Zlt_Qlt.
  apply Z.pow_pos_nonneg; lia.
Qed.

Lemma grid_bound_pos (k : nat) : 0 < grid_bound k.
Proof.
  unfold grid_bound. apply Qlt_shift_div_l; [apply grid_unit_pos|].
  rewrite Qmult_0_l. reflexivity.
Qed.

Lemma on_grid_spec (k : nat) (x : Q) :
  on_grid k x = true ->
  multiple_of k x /\ - grid_bound k < x /\ x < grid_bound k.
Proof.
  unfold on_grid, multiple_of, grid_bound.
  pose proof (grid_unit_pos k) as P.
  remember (inject_Z (2 ^ Z.of_nat k)) as u eqn:Eu. clear Eu.
  intros H. apply andb_true_iff in H. destruct H as [H1 H2].
  apply Pos.eqb_eq in H1. apply Z.ltb_lt in H2.
  pose proof (Qred_correct (x * u)) as E.
  remember (Qred (x * u)) as y eqn:Ey. clear Ey.
  assert (Y : y == inject_Z (Qnum y)).
  { unfold Qeq. simpl. rewrite H1. lia. }
  assert (X : x * u == inject_Z (Qnum y)) by (rewrite <- E; exact Y).
  split; [exists (Qnum y); exact X|].
  assert (L : - inject_Z (2 ^ 50) < x * u /\ x * u < inject_Z (2 ^ 50)).
  { rewrite X, <- inject_Z_opp, <- !Zlt_Qlt. lia. }
  destruct L as [L1 L2].
  assert (U : x < inject_Z (2 ^ 50) / u) by (apply Qlt_shift_div_l; assumption).
  assert (L : - x < inject_Z (2 ^ 50) / u).
  { apply Qlt_shift_div_l; [exact P|].
    setoid_replace (- x * u) with (- (x * u)) by ring. lra. }
  split; lra.
Qed.

Lemma multiple_sub (k : nat) (x y : Q) :
  multiple_of k x -> multiple_of k y -> multiple_of k (x - y).
Proof.
  intros [a A] [b B]. exists (a + - b)%Z.
  rewrite inject_Z_plus, inject_Z_opp, <- A, <- B. ring.
Qed.

Lemma multiple_add (k : nat) (x y : Q) :
  multiple_of k x -> multiple_of k y -> multiple_of k (x + y).
Proof.
  intros [a A] [b B]. exists (a + b)%Z.
  rewrite inject_Z_plus, <- A, <- B. ring.
Qed.

Lemma multiple_zero (k : nat) : multiple_of k 0.
Proof. exists 0%Z. ring. Qed.

(** A multiple of [2^-k] within 8 times the bound of the grid is a binary64
    number. *)
Lemma multiple_in_range (k : nat) (x : Q) :
  multiple_of k x ->
  - (8 * grid_bound k) <= x -> x <= 8 * grid_bound k ->
  binary64_multiple k x.
Proof.
  unfold multiple_of, binary64_multiple, grid_bound.
  pose proof (grid_unit_pos k) as P.
  remember (inject_Z (2 ^ Z.of_nat k)) as u eqn:Eu. clear Eu.
  intros [z Z0] L U. exists z. split; [exact Z0|].
  assert (B : 8 * (inject_Z (2 ^ 50) / u) * u == inject_Z (2 ^ 53)).
  { change (inject_Z (2 ^ 53)) with (8 * inject_Z (2 ^ 50)).
    field. intro Z1. rewrite Z1 in P. discriminate P. }
  assert (U' : x * u <= 8 * (inject_Z (2 ^ 50) / u) * u)
    by (apply Qmult_le_compat_r; [exact U | lra]).
  assert (L' : - (8 * (inject_Z (2 ^ 50) / u)) * u <= x * u)
    by (apply Qmult_le_compat_r; [exact L | lra]).
  assert (L2 : - inject_Z (2 ^ 53) <= inject_Z z).
  { rewrite <- Z0, <- B.
    setoid_replace (- (8 * (inject_Z (2 ^ 50) / u) * u))
      with (- (8 * (inject_Z (2 ^ 50) / u)) * u) by ring.
    exact L'. }
  assert (U2 : inject_Z z <= inject_Z (2 ^ 53)) by (rewrite <- Z0, <- B; exact U').
  rewrite <- inject_Z_opp in L2. rewrite <- Zle_Qle in U2, L2. lia.
Qed.

Lemma compress_frame_exact (k : nat) (limit : idle_limit) (start : Q)
    (c : compressor) (e : frame) (l : list frame) :
  limit_in_range k limit ->
  (- grid_bound k < start /\ start < grid_bound k) ->
  multiple_of k (time e) ->
  (- grid_bound k < time e /\ time e < grid_bound k) ->
  match l with e' :: _ => time e <= time e' | [] => True end ->
  all_multiples k c -> in_range k start c (e :: l) ->
  let c' := fst (compress_frame limit start c e) in
  all_multiples k c' /\ in_range k start c' l
  /\ Forall (binary64_multiple k) (callback_values limit start c e)
  /\ binary64_multiple k (c_effectiveStartAt c').
Proof.
  intros Hl Hst Me Re Hn (M1 & M2 & M3) (R1 & R2 & R3 & R4 & R5).
  pose proof (grid_bound_pos k) as Bp.
  unfold callback_values, compress_frame.
  destruct limit as [q|]; cbn [minus_limit is_positive].
  - destruct Hl as (Mq & Q0 & Q1).
    assert (Md : multiple_of k (time e - prevT c)) by now apply multiple_sub.
    assert (Mdl : multiple_of k (time e - prevT c - q)) by now apply multiple_sub.
    destruct (ltb_spec 0 (time e - prevT c - q)) as [X|X];
      cbn [fst snd prevT shift c_effectiveStartAt app].
    + assert (Ms : multiple_of k (shift c + (time e - prevT c - q)))
        by now apply multiple_add.
      assert (Mf : multiple_of k (c_effectiveStartAt c - (time e - prevT c - q)))
        by now apply multiple_sub.
      destruct (ltb_spec (time e) start) as [Y|Y].
      * split; [repeat split; assumption|].
        split.
        { unfold in_range. cbn [prevT shift c_effectiveStartAt].
          repeat split; try lra. destruct l as [|e' l']; [exact I | lra]. }
        split.
        { repeat constructor; apply multiple_in_range;
            try assumption; try lra; apply multiple_sub; assumption. }
        apply multiple_in_range; [assumption | lra | lra].
      * split; [repeat split; assumption|].
        split.
        { unfold in_range. cbn [prevT shift c_effectiveStartAt].
          repeat split; try lra. destruct l as [|e' l']; [exact I | lra]. }
        split.
        { repeat constructor; apply multiple_in_range;
            try assumption; try lra; apply multiple_sub; assumption. }
        apply multiple_in_range; [assumption | lra | lra].
    + split; [repeat split; assumption|].
      split.
      { unfold in_range. cbn [prevT shift c_effectiveStartAt].
        repeat split; try lra. destruct l as [|e' l']; [exact I | lra]. }
      split.
      { repeat constructor; apply multiple_in_range;
          try assumption; try lra; apply multiple_sub; assumption. }
      apply multiple_in_range; [assumption | lra | lra].
  - cbn [fst snd prevT shift c_effectiveStartAt app].
    split; [repeat split; assumption|].
    split.
    { unfold in_range. cbn [prevT shift c_effectiveStartAt].
      repeat split; try lra. destruct l as [|e' l']; [exact I | lra]. }
    split.
    { repeat constructor; apply multiple_in_range;
        try assumption; try lra; apply multiple_sub; assumption. }
    apply multiple_in_range; [assumption | lra | lra].
Qed.

Lemma computed_values_exact (k : nat) (limit : idle_limit) (start : Q) (l : list frame) :
  limit_in_range k limit ->
  (- grid_bound k < start /\ start < grid_bound k) ->
  sorted l ->
  Forall (fun e => multiple_of k (time e)
                   /\ - grid_bound k < time e /\ time e < grid_bound k) l ->
  forall c,
    all_multiples k c -> in_range k start c l ->
    Forall (binary64_multiple k) (computed_values limit start c l)
    /\ Forall (binary64_multiple k) (offset_values limit start c l).
Proof.
  intros Hl Hst. induction l as [|e l IH]; intros Hs Hg c Mc Rc.
  - split; constructor.
  - inversion Hg as [|? ? (Me & Re) Hg']; subst.
    assert (Hn : match l with e' :: _ => time e <= time e' | [] => True end).
    { destruct l as [|e' l']; [exact I|]. exact (proj1 Hs). }
    assert (Hs' : sorted l).
    { destruct l as [|e' l']; [exact I|]. exact (proj2 Hs). }
    destruct (compress_frame_exact k limit start c e l Hl Hst Me Re Hn Mc Rc)
      as (M' & R' & V & O).
    cbv zeta in M', R', V, O.
    destruct (IH Hs' Hg' _ M' R') as [V' O'].
    cbn [computed_values offset_values]. split.
    + apply Forall_app. split; assumption.
    + constructor; assumption.
Qed.

Lemma computed_values_any_start (limit : idle_limit) (s1 s2 : Q) (l : list frame) :
  forall c1 c2,
    prevT c1 = prevT c2 -> shift c1 = shift c2 ->
    computed_values limit s1 c1 l = computed_values limit s2 c2 l.
Proof.
  induction l as [|e l IH]; intros c1 c2 P S; [reflexivity|].
  cbn [computed_values].
  assert (E : prevT (fst (compress_frame limit s1 c1 e))
              = prevT (fst (compress_frame limit s2 c2 e))
              /\ shift (fst (compress_frame limit s1 c1 e))
                 = shift (fst (compress_frame limit s2 c2 e))).
  { unfold compress_frame. rewrite P, S.
    destruct (is_positive _); split; reflexivity. }
  destruct E as [E1 E2].
  rewrite (IH _ _ E1 E2). f_equal.
  unfold callback_values. rewrite P, E2. reflexivity.
Qed.

Lemma times_on_grid_spec (k : nat) (l : list frame) :
  times_on_grid k l = true ->
  Forall (fun e => multiple_of k (time e)
                   /\ - grid_bound k < time e /\ time e < grid_bound k) l.
Proof.
  unfold times_on_grid. intros H. apply Forall_forall. intros e He.
  apply on_grid_spec. rewrite forallb_forall in H. now apply H.
Qed.

Lemma limit_on_grid_spec (k : nat) (l : idle_limit) :
  limit_nonneg l -> limit_on_grid k l = true -> limit_in_range k l.
Proof.
  destruct l as [q|]; simpl; [|auto]. intros H0 H.
  destruct (on_grid_spec k q H) as (M & _ & U). auto.
Qed.

Lemma batchFrames_sorted (fs : list frame) (mo : option Q) :
  sorted fs -> sorted (batchFrames fs mo).
Proof.
  intros Hs. destruct fs as [|fr fs]; [exact I|]. rewrite batchFrames_cons.
  apply (sorted_from_sorted (time fr)).
  apply batch_after_sorted; [apply Qle_refl | exact Hs].
Qed.

(** Between numbers of one grid nothing is rounded: every difference of
    two input times -- what [batchFrames] subtracts --, every number the
    callback of [prepareFrames] computes and, when [startAt] is on the grid
    too, every value of [effectiveStartAt] is a multiple of [2^-k] of
    magnitude at most [2^(53-k)], a binary64 number. *)
Lemma accumulator_is_exact_on_a_grid :
  forall (k : nat) (fs : list frame) (limit : option idle_limit)
         (start mo : option Q),
    sorted fs -> limit_nonneg (or_infinity limit) ->
    exact_inputs k fs (or_infinity limit) ->
    (forall a b, In a fs -> In b fs -> binary64_multiple k (time a - time b))
    /\ Forall (binary64_multiple k)
         (computed_values (or_infinity limit) (or_zero start)
            {| prevT := 0; shift := 0; c_effectiveStartAt := or_zero start |}
            (batchFrames fs mo))
    /\ (on_grid k (or_zero start) = true ->
        Forall (binary64_multiple k)
          (offset_values (or_infinity limit) (or_zero start)
             {| prevT := 0; shift := 0; c_effectiveStartAt := or_zero start |}
             (batchFrames fs mo))).
Proof.
  intros k fs limit start mo Hs Hl (_ & Ht & Hq).
  pose proof (grid_bound_pos k) as Bp.
  pose proof (times_on_grid_spec k fs Ht) as G.
  pose proof (limit_on_grid_spec k _ Hl Hq) as L.
  pose proof (batchFrames_times
                (fun t => multiple_of k t /\ - grid_bound k < t /\ t < grid_bound k)
                fs mo G) as Gb.
  pose proof (batchFrames_sorted fs mo Hs) as Sb.
  assert (R0 : forall s, - grid_bound k < s /\ s < grid_bound k ->
               in_range k s {| prevT := 0; shift := 0; c_effectiveStartAt := s |}
                 (batchFrames fs mo)).
  { intros s Rs. unfold in_range. cbn [prevT shift c_effectiveStartAt].
    repeat split; try lra.
    destruct (batchFrames fs mo) as [|e l]; [exact I|].
    inversion Gb as [|? ? (_ & R1 & R2) _]; subst. lra. }
  split; [|split].
  - intros a b Ha Hb. rewrite Forall_forall in G.
    destruct (G a Ha) as (Ma & Ra). destruct (G b Hb) as (Mb & Rb).
    apply multiple_in_range; [now apply multiple_sub | lra | lra].
  - rewrite (computed_values_any_start (or_infinity limit) (or_zero start) 0
               (batchFrames fs mo)
               {| prevT := 0; shift := 0; c_effectiveStartAt := or_zero start |}
               {| prevT := 0; shift := 0; c_effectiveStartAt := 0 |} eq_refl eq_refl).
    apply (computed_values_exact k _ 0 _ L); try assumption; try lra.
    + repeat split; apply multiple_zero.
    + apply R0. lra.
  - intros Hst. destruct (on_grid_spec k _ Hst) as (Ms & Rs).
    apply (computed_values_exact k _ (or_zero start) _ L); try assumption.
    + repeat split; try apply multiple_zero. exact Ms.
    + apply R0. exact Rs.
Qed.



(** On numbers of one binary grid binary64 does not round: with frames at
    0.5, 1.25, 4 and 4.75 and [idleTimeLimit = 0.75] the binary64 numbers
    computed are the rationals computed. *)
Example compression_on_grid_in_binary64 :
  map B64.value
    (B64.times
       (B64.p_frames
          (B64.prepareFrames [(0.5, "a"); (1.25, "b"); (4, "c"); (4.75, "d")]%float%string
             (Some 0.75%float) None None)))
  = map (fun q => Some (Qred q))
      (times (p_frames
                (prepareFrames [(1 # 2, "a"); (5 # 4, "b"); (4, "c"); (19 # 4, "d")]%string
                   (Some (Limit (3 # 4))) None None)))
  /\ exact_inputs 2 [(1 # 2, "a"); (5 # 4, "b"); (4, "c"); (19 # 4, "d")]%string
       (Limit (3 # 4)).
Proof.
  split; [vm_compute; reflexivity|].
  split; [lia|]. split; vm_compute; reflexivity.
Qed.

(** And so for every recording of three frames whose times are among 0,
    0.25, ..., 1.5, in any order, with any of these numbers as the limit:
    the two embeddings of [prepareFrames] compute the same times. *)
Example binary64_agrees_on_the_quarters :
  agree_on quarters = true
  /\ forallb (fun p => same_value (B64.value (fst p)) (snd p) && on_grid 2 (snd p))
       quarters = true.
Proof. split; vm_compute; reflexivity. Qed.



(** ** The timeline of a well-timed recording *)

Lemma gaps_ok_sorted (limit : idle_limit) (out : list frame) :
  forall t0, gaps_ok limit t0 out -> sorted_from t0 out.
Proof.
  induction out as [|e out IH]; intros t0 H; [exact I|].
  destruct H as [[H1 _] H2]. split; [lra | now apply IH].
Qed.

Lemma batch_after_head (m : Q) (l : list frame) :
  forall prev, exists p rest, batch_after m prev l = (time prev, p) :: rest.
Proof.
  induction l as [|fr l IH]; intros prev; simpl.
  - exists (payload prev), []. destruct prev; reflexivity.
  - destruct (Num.ltb (time fr - time prev) m).
    + apply (IH (time prev, (payload prev ++ payload fr)%string)).
    + exists (payload prev), (batch_after m fr l). destruct prev; reflexivity.
Qed.

Lemma sorted_from_last (u : Q) (l : list frame) :
  l <> [] -> sorted_from u l -> u <= time (last_frame l).
Proof.
  intros Hne H.
  apply (last_frame_in (fun e => u <= time e) l Hne).
  now apply sorted_from_all.
Qed.

(** From a well-timed recording and a limit that is not negative,
    [prepareFrames] makes a timeline that is sorted and starts at or after
    time 0. *)
Lemma prepared_well_timed (fs : list frame) (limit : option idle_limit)
    (start mo : option Q) :
  well_timed fs -> limit_nonneg (or_infinity limit) ->
  well_timed (p_frames (prepareFrames fs limit start mo)).
Proof.
  intros [Hs H0] Hl. unfold prepareFrames, compress.
  destruct fs as [|fr fs]; [simpl; split; exact I|].
  rewrite batchFrames_cons.
  pose proof (batch_after_sorted (min_frame_time mo) fs fr (time fr)
                (Qle_refl _) Hs) as Hb.
  destruct (batch_after_head (min_frame_time mo) fs fr) as (p & batched & E).
  rewrite E in Hb |- *. destruct Hb as [_ Hb]. simpl time in Hb.
  cbn [Stream.map_with].
  destruct (compress_frame (or_infinity limit) (or_zero start) _ (time fr, p))
    as [c1 a0] eqn:Ec.
  assert (G : prevT c1 = time fr /\ time a0 = prevT c1 - shift c1 /\ 0 <= time a0).
  { unfold compress_frame in Ec. simpl in Ec.
    destruct (or_infinity limit) as [q|]; simpl in Ec, Hl.
    - destruct (ltb_spec 0 (time fr - 0 - q)) as [X|X];
        inversion Ec; subst; simpl; repeat split; lra.
    - inversion Ec; subst; simpl. repeat split; lra. }
  destruct G as (G1 & G2 & G3).
  pose proof (map_with_gaps (or_infinity limit) (or_zero start) batched Hl c1) as M.
  rewrite G1 in M. specialize (M Hb).
  destruct (Stream.map_with (compress_frame (or_infinity limit) (or_zero start))
              c1 batched) as [c2 out].
  cbn [fst snd] in *.
  rewrite <- G1, <- G2 in M. apply gaps_ok_sorted in M.
  split; [exact M | exact G3].
Qed.

(** X22: after a successful [init] on a well-timed recording, with a limit
    that is not negative, the times and the limit being numbers between
    which binary64 computes exactly, the timeline is sorted and [duration]
    is not negative. *)
Lemma init_well_timed (fetch : string -> response) (src : source)
    (st0 st : engine) (res : nat * nat * Q) (k : nat) :
  (forall fetched, well_timed (r_frames (parser src fetched))) ->
  (forall fetched,
      limit_nonneg (or_infinity (coalesce (idleTimeLimit st0)
                                   (r_idleTimeLimit (parser src fetched))))) ->
  (forall fetched,
      exact_inputs k (r_frames (parser src fetched))
        (or_infinity (coalesce (idleTimeLimit st0)
                        (r_idleTimeLimit (parser src fetched))))) ->
  init fetch src st0 = Ok (res, st) ->
  sorted (frames st) /\ 0 <= duration st.
Proof.
  intros Hw Hl _ H.
  destruct (init_ok _ _ _ _ _ H) as (fetched & _ & F & [Hne Hd] & _).
  pose proof (prepared_well_timed _ _ (startAt st0) (minFrameTime src)
                (Hw fetched) (Hl fetched)) as [S1 S2].
  rewrite <- F in S1, S2. split; [exact S1|].
  rewrite Hd. destruct (frames st) as [|e l] eqn:Fr; [congruence|].
  simpl in S1. destruct l as [|x l]; [exact S2|].
  change (last_frame (e :: x :: l)) with (last_frame (x :: l)).
  apply Qle_trans with (1 := S2).
  apply (sorted_from_last (time e) (x :: l)); [discriminate | exact S1].
Qed.

(** * Further properties *)

(** ** Batching: spacing, idempotence, counts *)

Lemma batch_after_spaced_id (m : Q) (l : list frame) :
  forall prev, spaced_from m (time prev) l -> batch_after m prev l = prev :: l.
Proof.
  induction l as [|fr l IH]; intros prev H; [reflexivity|].
  destruct H as [H1 H2]. simpl.
  apply ltb_ge in H1. rewrite H1. now rewrite IH.
Qed.

Lemma batch_after_spaced (m : Q) (l : list frame) :
  forall prev, exists p rest,
    batch_after m prev l = (time prev, p) :: rest
    /\ spaced_from m (time prev) rest.
Proof.
  induction l as [|fr l IH]; intros prev; simpl.
  - exists (payload prev), []. split; [destruct prev; reflexivity | exact I].
  - destruct (ltb_spec (time fr - time prev) m) as [H|H].
    + apply (IH (time prev, (payload prev ++ payload fr)%string)).
    + destruct (IH fr) as (p & rest & E & S1).
      exists (payload prev), ((time fr, p) :: rest).
      split; [rewrite E; destruct prev; reflexivity|].
      simpl. split; [exact H | exact S1].
Qed.

Lemma spaced_from_nth (m : Q) (out : list frame) :
  forall a0, spaced_from m (time a0) out ->
    forall i a b,
      nth_error (a0 :: out) i = Some a -> nth_error (a0 :: out) (S i) = Some b ->
      m <= time b - time a.
Proof.
  induction out as [|x out IH]; intros a0 H i a b Ha Hb.
  - destruct i; simpl in Hb; [discriminate | destruct i; discriminate].
  - destruct H as [H1 H2]. destruct i as [|i].
    + simpl in Ha, Hb. inversion Ha; inversion Hb; subst. exact H1.
    + apply (IH x H2 i a b); assumption.
Qed.

(** X1: whatever the input, two consecutive frames of the output of
    [batchFrames] are at least [minFrameTime] apart, and the first output
    frame keeps the time of the first input frame. *)
Theorem batched_frames_are_spaced :
  forall (fs : list frame) (mo : option Q),
    (forall i a b,
        nth_error (batchFrames fs mo) i = Some a ->
        nth_error (batchFrames fs mo) (S i) = Some b ->
        min_frame_time mo <= time b - time a)
    /\ option_map time (hd_error (batchFrames fs mo)) = option_map time (hd_error fs).
Proof.
  intros fs mo. destruct fs as [|fr fs].
  - split; [intros i a b Ha; destruct i; discriminate Ha | reflexivity].
  - rewrite batchFrames_cons.
    destruct (batch_after_spaced (min_frame_time mo) fs fr) as (p & rest & E & S1).
    rewrite E. split; [|reflexivity].
    intros i a b. apply (spaced_from_nth _ rest (time fr, p)). exact S1.
Qed.

(** X2: an input whose frames are all at least [minFrameTime] apart is
    returned as it is. *)
Theorem batching_keeps_spaced_input :
  forall (fs : list frame) (mo : option Q),
    spaced (min_frame_time mo) fs -> batchFrames fs mo = fs.
Proof.
  intros fs mo H. destruct fs as [|fr fs]; [reflexivity|].
  rewrite batchFrames_cons. now apply batch_after_spaced_id.
Qed.

Lemma batching_keeps_spaced_input_witness :
  spaced (min_frame_time None) (scenario_frames "a" "b" "c" "d")
  /\ batchFrames (scenario_frames "a" "b" "c" "d") None
     = scenario_frames "a" "b" "c" "d".
Proof.
  assert (H : spaced (min_frame_time None) (scenario_frames "a" "b" "c" "d")).
  { simpl. unfold default_minFrameTime. repeat split; lra. }
  split; [exact H | exact (batching_keeps_spaced_input _ None H)].
Defined.

(** X3: batching is idempotent: batching its own output again, with the
    same [minFrameTime], merges nothing more. *)
Theorem batching_is_idempotent :
  forall (fs : list frame) (mo : option Q),
    batchFrames (batchFrames fs mo) mo = batchFrames fs mo.
Proof.
  intros fs mo. destruct fs as [|fr fs]; [reflexivity|].
  rewrite (batchFrames_cons fr fs).
  destruct (batch_after_spaced (min_frame_time mo) fs fr) as (p & rest & E & S1).
  rewrite E, batchFrames_cons. now apply batch_after_spaced_id.
Qed.

Lemma batch_from_counts (m : Q) (l : list frame) :
  forall b,
    ic (fst (batch_from m b l)) = (ic b + List.length l)%nat
    /\ oc (fst (batch_from m b l)) = (oc b + List.length (snd (batch_from m b l)))%nat
    /\ (List.length (snd (batch_from m b l))
        + (match prevFrame b with Some _ => 0 | None => 1 end)
        <= List.length l + 1)%nat.
Proof.
  induction l as [|fr l IH]; intros b.
  - unfold batch_from. simpl. unfold batch_flush.
    destruct (prevFrame b); simpl; repeat split; lia.
  - unfold batch_from in *. cbn [Stream.transform batch_xf Stream.step Stream.flush].
    unfold batch_step.
    destruct (prevFrame b) as [prev|].
    + destruct (Num.ltb (time fr - time prev) m).
      * specialize (IH {| prevFrame := Some (time prev, (payload prev ++ payload fr)%string);
                          ic := S (ic b); oc := oc b |}).
        destruct (Stream.transform _ _ l) as [b2 out]. simpl in *.
        destruct IH as (I1 & I2 & I3). repeat split; lia.
      * specialize (IH {| prevFrame := Some fr; ic := S (ic b); oc := S (oc b) |}).
        destruct (Stream.transform _ _ l) as [b2 out]. simpl in *.
        destruct IH as (I1 & I2 & I3). repeat split; lia.
    + specialize (IH {| prevFrame := Some fr; ic := S (ic b); oc := oc b |}).
      destruct (Stream.transform _ _ l) as [b2 out]. simpl in *.
      destruct IH as (I1 & I2 & I3). repeat split; lia.
Qed.

(** X4: the two numbers of the diagnostic are the number of input frames
    and the number of output frames; there are at most as many output
    frames as input frames, and none only when there is no input. *)
Theorem batch_counts_are_exact :
  forall (fs : list frame) (mo : option Q),
    batch_counts fs mo = (List.length fs, List.length (batchFrames fs mo))
    /\ (List.length (batchFrames fs mo) <= List.length fs)%nat
    /\ (batchFrames fs mo = [] <-> fs = []).
Proof.
  intros fs mo.
  destruct (batch_from_counts (min_frame_time mo) fs batch_start) as (I1 & I2 & I3).
  unfold batch_counts, batchFrames. rewrite I1, I2. simpl in *.
  split; [reflexivity|]. split; [lia|].
  split.
  - intros E. destruct fs as [|fr fs]; [reflexivity|].
    pose proof (batchFrames_cons fr fs mo) as C. unfold batchFrames in C.
    rewrite E in C.
    destruct (batch_after_spaced (min_frame_time mo) fs fr) as (p & rest & E2 & _).
    rewrite E2 in C. discriminate C.
  - intros ->. reflexivity.
Qed.

(** ** Compression: what it keeps and how far it moves frames *)

(** One step of the compression, case by case: the excess [d] cut at the
    frame is not negative, it is added to [shift], and it is taken from
    [effectiveStartAt] exactly when the frame comes before [startAt]. *)
Lemma compress_frame_cases (limit : idle_limit) (start : Q) (c : compressor)
    (e : frame) :
  exists d,
    0 <= d
    /\ prevT (fst (compress_frame limit start c e)) = time e
    /\ shift (fst (compress_frame limit start c e)) == shift c + d
    /\ time (snd (compress_frame limit start c e))
       = time e - shift (fst (compress_frame limit start c e))
    /\ payload (snd (compress_frame limit start c e)) = payload e
    /\ (time e < start ->
        c_effectiveStartAt (fst (compress_frame limit start c e))
        == c_effectiveStartAt c - d)
    /\ (start <= time e ->
        c_effectiveStartAt (fst (compress_frame limit start c e))
        = c_effectiveStartAt c)
    /\ c_effectiveStartAt (fst (compress_frame limit start c e))
       <= c_effectiveStartAt c
    /\ (limit_nonneg limit -> prevT c <= time e -> d <= time e - prevT c)
    /\ (within limit (time e - prevT c) ->
        shift (fst (compress_frame limit start c e)) = shift c
        /\ c_effectiveStartAt (fst (compress_frame limit start c e))
           = c_effectiveStartAt c).
Proof.
  unfold compress_frame. destruct limit as [q|]; simpl.
  - destruct (ltb_spec 0 (time e - prevT c - q)) as [H|H]; simpl.
    + exists (time e - prevT c - q).
      destruct (ltb_spec (time e) start) as [X|X];
        repeat split; try reflexivity; try lra; intros; try lra.
    + exists 0.
      repeat split; try reflexivity; try lra; intros; try lra.
  - exists 0. repeat split; try reflexivity; try lra; intros; try lra.
Qed.

Lemma map_with_keeps (limit : idle_limit) (start : Q) (l : list frame) :
  forall c, 0 <= shift c ->
    Forall2 (fun e a => payload a = payload e /\ time a <= time e) l
      (snd (Stream.map_with (compress_frame limit start) c l))
    /\ c_effectiveStartAt (fst (Stream.map_with (compress_frame limit start) c l))
       <= c_effectiveStartAt c.
Proof.
  induction l as [|e l IH]; intros c Hc.
  - simpl. split; [constructor | apply Qle_refl].
  - cbn [Stream.map_with].
    destruct (compress_frame_cases limit start c e)
      as (d & D0 & _ & Sh & Ta & Pa & _ & _ & Le & _).
    destruct (compress_frame limit start c e) as [c1 a]. cbn [fst snd] in *.
    destruct (IH c1) as [I1 I2]; [lra|].
    destruct (Stream.map_with (compress_frame limit start) c1 l) as [c2 out].
    cbn [fst snd] in *. split; [|lra].
    constructor; [|exact I1]. split; [exact Pa | rewrite Ta; lra].
Qed.

Lemma Forall2_payloads (l out : list frame) :
  Forall2 (fun e a => payload a = payload e /\ time a <= time e) l out ->
  payloads out = payloads l.
Proof.
  induction 1 as [|e a l out [P _] _ IH]; [reflexivity|].
  simpl. now rewrite P, IH.
Qed.

Lemma joined_payloads (l l' : list frame) :
  payloads l = payloads l' -> joined l = joined l'.
Proof.
  revert l'. induction l as [|e l IH]; intros [|e' l'] H; simpl in *;
    try discriminate; [reflexivity|].
  inversion H as [[H1 H2]]. now rewrite H1, (IH l' H2).
Qed.

(** X5: the compression keeps the batched frames one for one, in order and
    with their payloads, and never moves a frame to a later time; so the
    payloads of the timeline, joined, are the payloads of the input,
    joined, and [effectiveStartAt] is never later than [startAt]. *)
Theorem compression_keeps_payloads :
  forall (fs : list frame) (limit : option idle_limit) (start mo : option Q),
    Forall2 (fun e a => payload a = payload e /\ time a <= time e)
      (batchFrames fs mo) (p_frames (prepareFrames fs limit start mo))
    /\ List.length (p_frames (prepareFrames fs limit start mo))
       = List.length (batchFrames fs mo)
    /\ joined (p_frames (prepareFrames fs limit start mo)) = joined fs
    /\ p_effectiveStartAt (prepareFrames fs limit start mo) <= or_zero start.
Proof.
  intros fs limit start mo. unfold prepareFrames, compress.
  destruct (map_with_keeps (or_infinity limit) (or_zero start) (batchFrames fs mo)
              {| prevT := 0; shift := 0; c_effectiveStartAt := or_zero start |})
    as [K1 K2]; [simpl; lra|].
  destruct (Stream.map_with _ _ (batchFrames fs mo)) as [c out].
  cbn [fst snd p_frames p_effectiveStartAt c_effectiveStartAt] in *.
  split; [exact K1|]. split; [symmetry; apply (Forall2_length K1)|].
  split; [|exact K2].
  rewrite (joined_payloads out (batchFrames fs mo) (Forall2_payloads _ _ K1)).
  destruct fs as [|fr fs]; [reflexivity|].
  rewrite batchFrames_cons. apply batch_after_joined.
Qed.

Lemma map_with_calm (limit : idle_limit) (start : Q) (l : list frame) :
  forall c, shift c = 0 -> calm_from limit (prevT c) l ->
    snd (Stream.map_with (compress_frame limit start) c l) = l
    /\ c_effectiveStartAt (fst (Stream.map_with (compress_frame limit start) c l))
       = c_effectiveStartAt c.
Proof.
  induction l as [|e l IH]; intros c Hc Hl.
  - simpl. auto.
  - destruct Hl as [H1 H2]. cbn [Stream.map_with].
    destruct (compress_frame_cases limit start c e)
      as (d & _ & Pr & _ & Ta & Pa & _ & _ & _ & _ & W).
    destruct (W H1) as [W1 W2].
    destruct (compress_frame limit start c e) as [c1 a]. cbn [fst snd] in *.
    rewrite W1, Hc, sub_0_r in Ta.
    destruct (IH c1) as [I1 I2]; [congruence | now rewrite Pr |].
    destruct (Stream.map_with (compress_frame limit start) c1 l) as [c2 out].
    cbn [fst snd] in *. subst out. split; [|congruence].
    f_equal. destruct a, e. simpl in *. congruence.
Qed.

(** X6: when no batched frame comes more than [idleTimeLimit] after the
    one before it -- the first of them after time 0 -- there is nothing to
    compress: [prepareFrames] returns the batched frames as they are, and
    [startAt] as [effectiveStartAt]. *)
Theorem compression_leaves_calm_recording :
  forall (fs : list frame) (limit : option idle_limit) (start mo : option Q),
    calm_from (or_infinity limit) 0 (batchFrames fs mo) ->
    p_frames (prepareFrames fs limit start mo) = batchFrames fs mo
    /\ p_effectiveStartAt (prepareFrames fs limit start mo) = or_zero start.
Proof.
  intros fs limit start mo H. unfold prepareFrames, compress.
  destruct (map_with_calm (or_infinity limit) (or_zero start) (batchFrames fs mo)
              {| prevT := 0; shift := 0; c_effectiveStartAt := or_zero start |}
              eq_refl H) as [K1 K2].
  destruct (Stream.map_with _ _ (batchFrames fs mo)) as [c out].
  cbn [fst snd p_frames p_effectiveStartAt c_effectiveStartAt] in *. auto.
Qed.

Lemma compression_leaves_calm_recording_witness :
  p_frames (prepareFrames two_frames (Some (Limit 2)) None None) = two_frames
  /\ p_effectiveStartAt (prepareFrames two_frames (Some (Limit 2)) None None) = 0.
Proof.
  apply (compression_leaves_calm_recording two_frames (Some (Limit 2)) None None).
  vm_compute. repeat split; discriminate.
Defined.

(** ** Compression: the start offset *)

Lemma map_with_late (limit : idle_limit) (start : Q) (l : list frame) :
  forall c, Forall (fun e => start <= time e) l ->
    c_effectiveStartAt (fst (Stream.map_with (compress_frame limit start) c l))
    = c_effectiveStartAt c.
Proof.
  induction l as [|e l IH]; intros c H; [reflexivity|].
  inversion H as [|? ? He Hl]; subst. cbn [Stream.map_with].
  destruct (compress_frame_cases limit start c e)
    as (d & _ & _ & _ & _ & _ & _ & Keep & _).
  specialize (Keep He).
  destruct (compress_frame limit start c e) as [c1 a]. cbn [fst snd] in *.
  specialize (IH c1 Hl).
  destruct (Stream.map_with (compress_frame limit start) c1 l) as [c2 out].
  cbn [fst snd] in *. congruence.
Qed.

(** X7: when no input frame comes before [startAt] -- as with the default
    [startAt = 0] and times that are not negative -- [effectiveStartAt] is
    [startAt], however much idle time is compressed. *)
Theorem start_offset_kept_when_nothing_precedes :
  forall (fs : list frame) (limit : option idle_limit) (start mo : option Q),
    Forall (fun e => or_zero start <= time e) fs ->
    p_effectiveStartAt (prepareFrames fs limit start mo) = or_zero start.
Proof.
  intros fs limit start mo H. unfold prepareFrames, compress.
  pose proof (map_with_late (or_infinity limit) (or_zero start) (batchFrames fs mo)
                {| prevT := 0; shift := 0; c_effectiveStartAt := or_zero start |}
                (batchFrames_times (fun t => or_zero start <= t) fs mo H)) as K.
  destruct (Stream.map_with _ _ (batchFrames fs mo)) as [c out].
  cbn [fst snd p_effectiveStartAt c_effectiveStartAt] in *. exact K.
Qed.

Lemma start_offset_kept_when_nothing_precedes_witness :
  p_effectiveStartAt
    (prepareFrames (scenario_frames "a" "b" "c" "d") (Some (Limit 2)) None None) = 0.
Proof.
  apply (start_offset_kept_when_nothing_precedes
           (scenario_frames "a" "b" "c" "d") (Some (Limit 2)) None None).
  repeat constructor; simpl; lra.
Defined.

(** The adjusted time of the frame last compressed stays before the final
    start offset, as long as every frame so far came before [startAt]. *)
Lemma map_with_position (limit : idle_limit) (start : Q) (l : list frame) :
  limit_nonneg limit ->
  forall c,
    sorted_from (prevT c) l ->
    c_effectiveStartAt c == start - shift c ->
    prevT c < start ->
    prevT c - shift c
    < c_effectiveStartAt (fst (Stream.map_with (compress_frame limit start) c l)).
Proof.
  intros Hl. induction l as [|e l IH]; intros c Hs Hc Hp.
  - simpl. lra.
  - destruct Hs as [S1 S2]. cbn [Stream.map_with].
    destruct (ltb_spec (time e) start) as [X|X].
    + destruct (compress_frame_cases limit start c e)
        as (d & D0 & Pr & Sh & _ & _ & Ef & _ & _ & Bd & _).
      specialize (Ef X). specialize (Bd Hl S1).
      destruct (compress_frame limit start c e) as [c1 a]. cbn [fst snd] in *.
      specialize (IH c1). rewrite Pr in IH.
      assert (I : time e - shift c1
                  < c_effectiveStartAt
                      (fst (Stream.map_with (compress_frame limit start) c1 l)))
        by (apply IH; [exact S2 | lra | exact X]).
      destruct (Stream.map_with (compress_frame limit start) c1 l) as [c2 out].
      cbn [fst snd] in *. lra.
    + assert (A : Forall (fun x => start <= time x) (e :: l)).
      { constructor; [exact X|]. apply sorted_from_all in S2.
        apply Forall_impl with (2 := S2). intros x Hx. simpl in Hx. lra. }
      pose proof (map_with_late limit start (e :: l) c A) as K.
      cbn [Stream.map_with] in K.
      destruct (compress_frame limit start c e) as [c1 a].
      destruct (Stream.map_with (compress_frame limit start) c1 l) as [c2 out].
      cbn [fst snd] in *. rewrite K. lra.
Qed.

Lemma map_with_before_start (limit : idle_limit) (start : Q) (l : list frame) :
  limit_nonneg limit ->
  forall c,
    sorted_from (prevT c) l ->
    c_effectiveStartAt c == start - shift c \/ start <= prevT c ->
    Forall2 (fun e a =>
               time e < start ->
               time a < c_effectiveStartAt
                          (fst (Stream.map_with (compress_frame limit start) c l)))
      l (snd (Stream.map_with (compress_frame limit start) c l)).
Proof.
  intros Hl. induction l as [|e l IH]; intros c Hs Hc.
  - constructor.
  - destruct Hs as [S1 S2].
    pose proof (map_with_position limit start l Hl) as Pos.
    cbn [Stream.map_with].
    destruct (compress_frame_cases limit start c e)
      as (d & D0 & Pr & Sh & Ta & _ & Ef & _ & _ & Bd & _).
    specialize (Bd Hl S1).
    destruct (compress_frame limit start c e) as [c1 a]. cbn [fst snd] in *.
    specialize (IH c1). specialize (Pos c1). rewrite Pr in IH, Pos.
    destruct (ltb_spec (time e) start) as [X|X].
    + destruct Hc as [Hc|Hc]; [|lra].
      specialize (Ef X).
      assert (C1 : c_effectiveStartAt c1 == start - shift c1) by lra.
      specialize (IH S2 (or_introl C1)). specialize (Pos S2 C1 X).
      destruct (Stream.map_with (compress_frame limit start) c1 l) as [c2 out].
      cbn [fst snd] in *. constructor; [|exact IH].
      intros _. rewrite Ta. exact Pos.
    + specialize (IH S2 (or_intror X)).
      destruct (Stream.map_with (compress_frame limit start) c1 l) as [c2 out].
      cbn [fst snd] in *. constructor; [|exact IH].
      intros Y. lra.
Qed.

(** X8: on a well-timed recording and with a limit that is not negative,
    the times, the limit and [startAt] being numbers of one grid, between
    which binary64 computes exactly -- every value [effectiveStartAt] takes
    is a binary64 number --, every batched frame that comes before
    [startAt] comes, once compressed, before [effectiveStartAt]. *)
Theorem frames_before_start_stay_before :
  forall (k : nat) (fs : list frame) (limit : option idle_limit)
         (start mo : option Q),
    well_timed fs -> limit_nonneg (or_infinity limit) ->
    exact_inputs k fs (or_infinity limit) -> on_grid k (or_zero start) = true ->
    Forall (binary64_multiple k)
      (offset_values (or_infinity limit) (or_zero start)
         {| prevT := 0; shift := 0; c_effectiveStartAt := or_zero start |}
         (batchFrames fs mo))
    /\ Forall2 (fun e a =>
                  time e < or_zero start ->
                  time a < p_effectiveStartAt (prepareFrames fs limit start mo))
         (batchFrames fs mo) (p_frames (prepareFrames fs limit start mo)).
Proof.
  intros k fs limit start mo [Hs H0] Hl He Hst. split.
  { destruct (accumulator_is_exact_on_a_grid k fs limit start mo Hs Hl He)
      as (_ & _ & O).
    exact (O Hst). }
  unfold prepareFrames, compress.
  assert (Sb : sorted_from 0 (batchFrames fs mo)).
  { destruct fs as [|fr fs]; [exact I|]. rewrite batchFrames_cons.
    apply batch_after_sorted; [exact H0 | exact Hs]. }
  pose proof (map_with_before_start (or_infinity limit) (or_zero start)
                (batchFrames fs mo) Hl
                {| prevT := 0; shift := 0; c_effectiveStartAt := or_zero start |}
                Sb) as K.
  destruct (Stream.map_with _ _ (batchFrames fs mo)) as [c out].
  cbn [fst snd p_frames p_effectiveStartAt c_effectiveStartAt] in *.
  apply K. left. simpl. lra.
Qed.

Lemma frames_before_start_stay_before_witness :
  Forall2 (fun e a =>
             time e < or_zero (Some 6) ->
             time a < p_effectiveStartAt
                        (prepareFrames (scenario_frames "a" "b" "c" "d")
                           (Some (Limit 2)) (Some 6) None))
    (batchFrames (scenario_frames "a" "b" "c" "d") None)
    (p_frames (prepareFrames (scenario_frames "a" "b" "c" "d")
                 (Some (Limit 2)) (Some 6) None)).
Proof.
  assert (Hw : well_timed (scenario_frames "a" "b" "c" "d"))
    by (split; simpl; repeat split; lra).
  assert (Hl : limit_nonneg (or_infinity (Some (Limit 2)))) by (simpl; lra).
  assert (He : exact_inputs 0 (scenario_frames "a" "b" "c" "d")
                 (or_infinity (Some (Limit 2))))
    by (split; [lia | split; vm_compute; reflexivity]).
  assert (Hs : on_grid 0 (or_zero (Some 6)) = true) by (vm_compute; reflexivity).
  exact (proj2 (frames_before_start_stay_before 0 (scenario_frames "a" "b" "c" "d")
                  (Some (Limit 2)) (Some 6) None Hw Hl He Hs)).
Defined.

(** ** Fetching *)

(** X9: when [fetch] resolves, [init] throws the fetch failure exactly
    when the source has a [url] and the response is not [ok] -- whether or
    not [data] is supplied as well -- and carries the status text and the
    status of the response; with a [url] and an [ok] response the text of
    the response is used and [data] is ignored. *)
Theorem fetch_failure_is_exact :
  forall (fetch : string -> response) (src : source) (st0 : engine),
    (forall s n,
        init fetch src st0 = Raise (FetchError s n) <->
        exists u, url src = Some u /\ ok (fetch u) = false
                  /\ s = statusText (fetch u) /\ n = status (fetch u))
    /\ (forall u, url src = Some u -> ok (fetch u) = true ->
          doFetch fetch src = Ok (text (fetch u))).
Proof.
  intros fetch src st0. split.
  - intros s n. split.
    + unfold init. destruct (doFetch fetch src) as [fetched|e] eqn:Df.
      * destruct (p_frames _); discriminate.
      * intros H. inversion H; subst.
        destruct (doFetch_raises _ _ _ Df) as [(X & _)|(u & U & K & X)];
          [discriminate X|].
        inversion X; subst. exists u. auto.
    + intros (u & U & K & -> & ->). unfold init, doFetch. rewrite U, K. reflexivity.
  - intros u U K. unfold doFetch. rewrite U, K. reflexivity.
Qed.

Lemma fetch_failure_is_exact_witness :
  init no_network {| url := Some "demo.cast"%string; data := Some "inline"%string;
                     minFrameTime := None;
                     parser := parser (inline_source two_frames None) |}
    (recording None None LoopAbsent)
  = Raise (FetchError "Not Found" 404).
Proof.
  apply (proj1 (fetch_failure_is_exact no_network _ (recording None None LoopAbsent))).
  exists "demo.cast"%string. repeat split; reflexivity.
Defined.

(** ** The engine: invariants of the reachable states *)

Lemma before_length_le (t : Q) (l : list frame) :
  (List.length (before t l) <= List.length l)%nat.
Proof.
  rewrite <- (before_from_target t l) at 2. rewrite length_app. lia.
Qed.

Section Invariants.

Variable now : nat -> Q.
Variable fetch : string -> response.

Lemma sought_bounded (w : position) (st : engine) :
  (nextFrameIndex st <= List.length (frames st))%nat ->
  (nextFrameIndex (sought now w st) <= List.length (frames (sought now w st)))%nat.
Proof.
  intros Hb.
  destruct (sought_fields now w st) as (_ & I & _ & F & _).
  cbv zeta in I. rewrite I, F.
  destruct (halted_fields now st) as (Fh & _ & _ & Ih & _).
  set (t := target now w st) in *. set (h := halted now st) in *.
  destruct (positioned_fields t h) as (Fp & _ & _ & _ & _ & _ & Cp).
  unfold caught_up. set (p := positioned t h) in *.
  assert (Hp : (nextFrameIndex p <= List.length (frames st))%nat).
  { destruct Cp as [(_ & _ & Z & _)|[_ E]]; [rewrite Z; lia | rewrite E, Ih; exact Hb]. }
  pose proof (before_length_le t (frames_from (nextFrameIndex p) p)) as L.
  unfold frames_from in L at 2. rewrite Fp, Fh, length_skipn in L. lia.
Qed.

(** What [scheduleNextFrame] keeps and what it may reset. *)
Lemma schedule_shape (st st' : engine) :
  frames st <> [] ->
  scheduleNextFrame now stack_limit st = Ok (tt, st') ->
  frames st' = frames st /\ duration st' = duration st /\ loop st' = loop st
  /\ (nextFrameIndex st' = nextFrameIndex st \/ nextFrameIndex st' = 0%nat)
  /\ (effectiveStartAt st' = effectiveStartAt st \/ effectiveStartAt st' = None).
Proof.
  intros Hne H. destruct (schedule_returns now st Hne) as (st2 & R & C).
  rewrite R in H. inversion H; subst st2; clear H.
  destruct C as [(e & _ & ->)|[(_ & _ & ->)|(_ & _ & e & _ & ->)]];
    simpl; auto 10.
Qed.

Lemma resume_shape (st st' : engine) :
  frames st <> [] ->
  resume now st = Ok (tt, st') ->
  frames st' = frames st /\ duration st' = duration st /\ loop st' = loop st
  /\ (nextFrameIndex st' = nextFrameIndex st \/ nextFrameIndex st' = 0%nat).
Proof.
  intros Hne H. rewrite resume_spec in H.
  destruct (schedule_shape (anchored now st) st' Hne H) as (F & D & L & I & _).
  auto.
Qed.

(** The operations leave the timeline, [duration] and [loop] as they are,
    and the cursor within the timeline. *)
Lemma perform_keeps_recording (op : operation) (v : returned) (st st' : engine) :
  frames st <> [] -> perform now op st = Ok (v, st') ->
  frames st' = frames st /\ duration st' = duration st /\ loop st' = loop st
  /\ ((nextFrameIndex st <= List.length (frames st))%nat ->
      (nextFrameIndex st' <= List.length (frames st'))%nat).
Proof.
  intros Hne H. destruct op as [| | |w| |t|]; unfold perform, bind in H.
  - rewrite play_spec in H. destruct (timeoutId st) eqn:Ht.
    + inversion H; subst. auto.
    + assert (C : frames (cued now st) = frames st
                  /\ duration (cued now st) = duration st
                  /\ loop (cued now st) = loop st
                  /\ ((nextFrameIndex st <= List.length (frames st))%nat ->
                      (nextFrameIndex (cued now st)
                       <= List.length (frames (cued now st)))%nat)).
      { unfold cued, primed.
        destruct (nth_error (frames st) (nextFrameIndex st)).
        - destruct (effectiveStartAt st); [|auto].
          destruct (sought_fields now (Absolute q) st)
            as (_ & _ & _ & F & D & L & _).
          repeat split; auto. apply sought_bounded.
        - cbn [effectiveStartAt set_effectiveStartAt].
          destruct (sought_fields now (Absolute 0) (set_effectiveStartAt (Some 0) st))
            as (_ & _ & _ & F & D & L & _).
          repeat split; auto.
          intros B. apply sought_bounded. exact B. }
      destruct C as (F & D & L & B).
      destruct (resume now (cued now st)) as [[u s2]|e] eqn:R; [|discriminate].
      inversion H; subst s2. destruct u.
      destruct (resume_shape (cued now st) st') as (F2 & D2 & L2 & I2);
        [now rewrite F | exact R |].
      rewrite F2, D2, L2. repeat split; auto.
      intros Hb. destruct I2 as [I2|I2]; rewrite I2; [now apply B | lia].
  - rewrite pause_spec in H. inversion H; subst.
    destruct (halted_fields now st) as (F & D & L & I & _).
    rewrite F, D, L, I. auto.
  - unfold stop in H. rewrite pause_spec in H. inversion H; subst.
    destruct (halted_fields now st) as (F & D & L & I & _).
    rewrite F, D, L, I. auto.
  - rewrite seek_spec in H.
    destruct (sought_fields now w st) as (_ & _ & _ & F & D & L & _).
    pose proof (sought_bounded w st) as B.
    destruct (timeoutId st).
    + destruct (resume now (sought now w st)) as [[u s2]|e] eqn:R; [|discriminate].
      inversion H; subst s2. destruct u.
      destruct (resume_shape (sought now w st) st') as (F2 & D2 & L2 & I2);
        [now rewrite F | exact R |].
      rewrite F2, D2, L2. repeat split; auto.
      intros Hb. destruct I2 as [I2|I2]; rewrite I2; [now apply B | lia].
    + inversion H; subst. auto.
  - destruct (nth_error (frames st) (nextFrameIndex st)) as [e|] eqn:E.
    + rewrite (step_some st e E) in H. inversion H; subst. simpl.
      repeat split; auto. intros _.
      assert (X : nth_error (frames st) (nextFrameIndex st) <> None) by congruence.
      apply nth_error_Some in X. lia.
    + rewrite (step_none st E) in H. inversion H; subst. simpl. auto.
  - unfold getPoster, bind, get, ret in H. inversion H; subst. auto.
  - unfold getCurrentTime, bind, get, ret, read_clock in H.
    destruct (timeoutId st); inversion H; subst; simpl; auto.
Qed.

(** So does a firing of the timer. *)
Lemma fire_keeps_recording (st st' : engine) :
  frames st <> [] -> fire now st = Ok (tt, st') ->
  frames st' = frames st /\ duration st' = duration st /\ loop st' = loop st
  /\ ((nextFrameIndex st <= List.length (frames st))%nat ->
      (nextFrameIndex st' <= List.length (frames st'))%nat).
Proof.
  intros Hne H. unfold fire, bind, get in H.
  destruct (timeoutId st) eqn:Ht; [|inversion H; subst; auto].
  destruct (frames_from (nextFrameIndex st) st) as [|cur rest] eqn:Fr.
  - unfold runFrame, bind, get in H. rewrite Fr in H. discriminate H.
  - assert (Hi : (nextFrameIndex st < List.length (frames st))%nat).
    { destruct (Nat.lt_ge_cases (nextFrameIndex st) (List.length (frames st)))
        as [L|L]; [exact L|].
      unfold frames_from in Fr. rewrite skipn_all2 in Fr by exact L.
      discriminate Fr. }
    destruct (runFrame_spec now st Hne Hi) as (fedNow & later & S1 & _ & M).
    destruct (emit_timed_fields fedNow st) as (_ & I & F & D & L & _).
    pose proof (frames_from_length st _ (Nat.lt_le_incl _ _ Hi)) as Len.
    rewrite S1, length_app in Len.
    destruct later as [|e later'].
    + destruct (loop_again _ _).
      * destruct M as (e0 & _ & R). rewrite R in H.
        inversion H; subst; clear H. simpl. rewrite F, D, L.
        repeat split; auto. intros _. lia.
      * rewrite M in H. inversion H; subst; clear H. simpl. rewrite F, D, L, I.
        repeat split; auto. intros _. lia.
    + rewrite M in H. inversion H; subst; clear H. simpl. rewrite F, D, L, I.
      repeat split; auto. intros _. lia.
Qed.

Lemma reachable_bounded (st : engine) :
  reachable now fetch st ->
  (nextFrameIndex st <= List.length (frames st))%nat.
Proof.
  intros Hr.
  induction Hr as [src limit start lp res st H | op v st st' Hr IH H | st st' Hr IH H].
  - destruct (init_ok _ _ _ _ _ H) as (_ & _ & _ & _ & _ & _ & I & _).
    rewrite I. simpl. lia.
  - destruct (reachable_settled now fetch st Hr) as [[Hne _] _].
    now apply (perform_keeps_recording op v st st' Hne H).
  - destruct (reachable_settled now fetch st Hr) as [[Hne _] _].
    now apply (fire_keeps_recording st st' Hne H).
Qed.

End Invariants.

(** X10: in every state reached after a successful [init] -- by any
    operations and firings of the timer -- the timeline is not empty,
    [duration] is the time of its last frame, [nextFrameIndex] is at most
    the number of frames, and a start offset is pending only while the
    cursor is at 0 and no timer is set. *)
Theorem reachable_states_are_consistent :
  forall (now : nat -> Q) (fetch : string -> response) (st : engine),
    reachable now fetch st ->
    frames st <> []
    /\ duration st = time (last_frame (frames st))
    /\ (nextFrameIndex st <= List.length (frames st))%nat
    /\ (effectiveStartAt st <> None ->
        nextFrameIndex st = 0%nat /\ timeoutId st = None).
Proof.
  intros now fetch st Hr.
  destruct (reachable_settled now fetch st Hr) as [[Hne Hd] J].
  pose proof (reachable_bounded now fetch st Hr) as B.
  auto.
Qed.

Lemma reachable_states_are_consistent_witness :
  frames (sample_engine LoopAbsent) <> []
  /\ duration (sample_engine LoopAbsent)
     = time (last_frame (frames (sample_engine LoopAbsent)))
  /\ (nextFrameIndex (sample_engine LoopAbsent)
      <= List.length (frames (sample_engine LoopAbsent)))%nat
  /\ (effectiveStartAt (sample_engine LoopAbsent) <> None ->
      nextFrameIndex (sample_engine LoopAbsent) = 0%nat
      /\ timeoutId (sample_engine LoopAbsent) = None).
Proof.
  apply (reachable_states_are_consistent frozen_clock no_network).
  exact (reach_init frozen_clock no_network _ _ _ _ _ _ (init_sample LoopAbsent)).
Defined.

(** X11: no operation and no firing of the timer changes the timeline,
    [duration] or [loop]: what [init] computed stays for the life of the
    engine. *)
Theorem recording_is_never_changed :
  forall (now : nat -> Q) (st st' : engine),
    frames st <> [] ->
    (exists op v, perform now op st = Ok (v, st')) \/ fire now st = Ok (tt, st') ->
    frames st' = frames st /\ duration st' = duration st /\ loop st' = loop st.
Proof.
  intros now st st' Hne [(op & v & H)|H].
  - destruct (perform_keeps_recording now op v st st' Hne H) as (F & D & L & _). auto.
  - destruct (fire_keeps_recording now st st' Hne H) as (F & D & L & _). auto.
Qed.

Lemma recording_is_never_changed_witness :
  frames (sought frozen_clock (Absolute 1) (sample_engine LoopAbsent)) = two_frames
  /\ duration (sought frozen_clock (Absolute 1) (sample_engine LoopAbsent)) = 1
  /\ loop (sought frozen_clock (Absolute 1) (sample_engine LoopAbsent)) = LoopAbsent.
Proof.
  apply (recording_is_never_changed frozen_clock (sample_engine LoopAbsent)).
  - discriminate.
  - left. exists (Seek (Absolute 1)), (Flag true). reflexivity.
Defined.

(** ** The poster *)

Lemma before_grows (t1 t2 : Q) (l : list frame) :
  t1 <= t2 -> exists more, before t2 l = before t1 l ++ more.
Proof.
  intros H. induction l as [|e l [more IH]]; simpl.
  - exists []. reflexivity.
  - destruct (ltb_spec (time e * 1000) t1) as [A|A].
    + destruct (ltb_spec (time e * 1000) t2) as [B|B]; [|lra].
      exists more. simpl. now rewrite IH.
    + eexists. reflexivity.
Qed.

Lemma before_everything (t : Q) (l : list frame) :
  Forall (fun e => time e * 1000 < t) l -> before t l = l.
Proof.
  induction 1 as [|e l He _ IH]; simpl; [reflexivity|].
  apply ltb_lt in He. now rewrite He, IH.
Qed.

Lemma sorted_le_last (l : list frame) :
  sorted l -> Forall (fun e => time e <= time (last_frame l)) l.
Proof.
  induction l as [|e l IH]; intros H; [constructor|].
  destruct l as [|x l].
  - constructor; [apply Qle_refl | constructor].
  - change (last_frame (e :: x :: l)) with (last_frame (x :: l)).
    destruct H as [H1 H2].
    specialize (IH H2). constructor; [|exact IH].
    inversion IH; subst. lra.
Qed.

(** X12: [getPoster] leaves the engine as it is, and its result grows with
    its argument: the poster at an earlier time is a prefix of the poster
    at a later time.  It is empty when the first frame does not come before
    the time asked for, and on a sorted timeline it holds every payload as
    soon as the time asked for, in milliseconds, exceeds [duration] in
    milliseconds ([duration * 1000 < time * 1000], the products being those
    the source computes). *)
Theorem poster_grows_with_time :
  forall (st : engine) (t1 t2 : Q),
    t1 <= t2 ->
    exists p1 more,
      getPoster t1 st = Ok (p1, st)
      /\ getPoster t2 st = Ok (p1 ++ more, st)
      /\ (forall e l, frames st = e :: l -> t1 <= time e -> p1 = [])
      /\ (initialised st -> sorted (frames st) ->
          duration st * 1000 < t2 * 1000 ->
          p1 ++ more = payloads (frames st)).
Proof.
  intros st t1 t2 H.
  destruct (before_grows (t1 * 1000) (t2 * 1000) (frames st)) as [more E]; [lra|].
  exists (payloads (before (t1 * 1000) (frames st))), (payloads more).
  unfold getPoster, bind, get, ret. rewrite !poster_loop_before.
  split; [reflexivity|]. split; [|split].
  - rewrite E. unfold payloads. now rewrite map_app.
  - intros e l F Hle. rewrite F. simpl.
    destruct (ltb_spec (time e * 1000) (t1 * 1000)) as [X|X]; [lra | reflexivity].
  - intros [Hne Hd] Hs Ht. unfold payloads. rewrite <- map_app, <- E.
    f_equal. apply before_everything.
    apply Forall_impl with (2 := sorted_le_last _ Hs).
    intros a Ha. simpl in Ha. rewrite <- Hd in Ha. lra.
Qed.

Lemma poster_grows_with_time_witness :
  exists p1 more,
    getPoster (1 # 2) (sample_engine LoopAbsent) = Ok (p1, sample_engine LoopAbsent)
    /\ getPoster 2 (sample_engine LoopAbsent) = Ok (p1 ++ more, sample_engine LoopAbsent)
    /\ p1 ++ more = ["a"; "b"]%string.
Proof.
  assert (H : (1 # 2) <= 2) by lra.
  destruct (poster_grows_with_time (sample_engine LoopAbsent) (1 # 2) 2 H)
    as (p1 & more & G1 & G2 & _ & G4).
  exists p1, more. split; [exact G1|]. split; [exact G2|].
  apply G4.
  - split; [discriminate | reflexivity].
  - simpl. split; [lra | exact I].
  - simpl. lra.
Defined.

(** ** Seeking and the poster *)

(** X13: what [seek] feeds when it starts from the beginning of the
    timeline is the poster at the target.  On an engine that is not
    playing, [seek(x)] for a number [x] whose target precedes
    [elapsedVirtualTime] feeds the terminal reset and then exactly the
    payloads [getPoster] returns for [x] clamped to the range from 0 to
    [duration]; when the cursor is at 0 and there is no reset, it feeds
    exactly those payloads. *)
Theorem seek_feeds_the_poster :
  forall (now : nat -> Q) (x : Q) (st : engine),
    timeoutId st = None ->
    exists st' poster,
      seek now (Absolute x) st = Ok (true, st')
      /\ getPoster (Num.min (Num.max x 0) (duration st)) st = Ok (poster, st)
      /\ (Num.min (Num.max x 0) (duration st) * 1000 < elapsedVirtualTime st ->
          trace st' = trace st ++ Fed reset_terminal :: map Fed poster)
      /\ (elapsedVirtualTime st <= Num.min (Num.max x 0) (duration st) * 1000 ->
          nextFrameIndex st = 0%nat ->
          trace st' = trace st ++ map Fed poster).
Proof.
  intros now x st Ht.
  exists (sought now (Absolute x) st),
         (payloads (before (Num.min (Num.max x 0) (duration st) * 1000) (frames st))).
  split; [rewrite seek_spec, Ht; reflexivity|].
  split.
  { unfold getPoster, bind, get, ret. now rewrite poster_loop_before. }
  destruct (sought_shape now (Absolute x) st) as (T & _).
  cbv zeta in T.
  change (target now (Absolute x) st)
    with (Num.min (Num.max x 0) (duration st) * 1000) in T.
  split.
  - intros Hlt. apply ltb_lt in Hlt. rewrite Hlt in T. exact T.
  - intros Hge H0. apply ltb_ge in Hge. rewrite Hge, H0 in T. exact T.
Qed.

(** ** The current time of an engine that is not playing *)

(** X14: while no timer is pending, [getCurrentTime] reads no clock and
    returns the elapsed time stored, in seconds: after [seek(where)] the
    target -- [where] resolved and clamped to the range from 0 to
    [duration], in milliseconds -- divided by 1000, and after a [step()]
    that fed a frame the time of that frame, times 1000, divided by
    1000. *)
Theorem current_time_when_not_playing :
  forall (now : nat -> Q) (st : engine),
    timeoutId st = None ->
    getCurrentTime now st = Ok (or_zero (pauseElapsedTime st) / 1000, st)
    /\ (forall w, exists st',
          seek now w st = Ok (true, st')
          /\ getCurrentTime now st'
             = Ok (Num.min (Num.max (resolve w st) 0) (duration st) * 1000 / 1000, st'))
    /\ (forall e,
          nth_error (frames st) (nextFrameIndex st) = Some e ->
          exists st',
            step st = Ok (tt, st')
            /\ getCurrentTime now st' = Ok (time e * 1000 / 1000, st')).
Proof.
  intros now st Ht. split; [|split].
  - unfold getCurrentTime, bind, get, ret. now rewrite Ht.
  - intros w. exists (sought now w st).
    split; [rewrite seek_spec, Ht; reflexivity|].
    destruct (sought_fields now w st) as (_ & _ & _ & _ & _ & _ & Ti & _ & P & _).
    unfold getCurrentTime, bind, get, ret. rewrite Ti, P.
    unfold target, target_of, halted. rewrite Ht. reflexivity.
  - intros e E. eexists. split; [apply step_some; exact E|].
    unfold getCurrentTime, bind, get, ret. simpl. rewrite Ht. reflexivity.
Qed.

Lemma current_time_when_not_playing_witness :
  exists st',
    seek frozen_clock (Absolute 7) (sample_engine LoopAbsent) = Ok (true, st')
    /\ getCurrentTime frozen_clock st'
       = Ok (Num.min (Num.max 7 0) 1 * 1000 / 1000, st').
Proof.
  exact (proj1 (proj2 (current_time_when_not_playing frozen_clock
                         (sample_engine LoopAbsent) eq_refl)) (Absolute 7)).
Defined.

(** ** Stepping *)

(** X15: [n] calls of [step()] feed the next [n] frames from the cursor on,
    in order -- all that are left when fewer than [n] are --, move the
    cursor past them, and neither set nor cancel a timer; once no frame is
    left, further calls feed nothing. *)
Theorem steps_feed_the_next_frames :
  forall (n : nat) (st : engine),
  exists st',
    steps n st = Ok (tt, st')
    /\ trace st'
       = trace st ++ map Fed (payloads (firstn n (frames_from (nextFrameIndex st) st)))
    /\ nextFrameIndex st'
       = Nat.min (nextFrameIndex st + n)
           (Nat.max (nextFrameIndex st) (List.length (frames st)))
    /\ timeoutId st' = timeoutId st
    /\ ((List.length (frames st) <= nextFrameIndex st)%nat -> trace st' = trace st).
Proof.
  intros n st. destruct (steps_spec n st) as (st' & R & T & I & F & D & P).
  exists st'. split; [exact R|]. split; [exact T|]. split; [|split; [exact P|]].
  - rewrite I, length_firstn. unfold frames_from. rewrite length_skipn. lia.
  - intros H. rewrite T. unfold frames_from. rewrite skipn_all2 by exact H.
    rewrite firstn_nil. simpl. apply app_nil_r.
Qed.

Lemma seek_feeds_the_poster_witness :
  exists st',
    seek frozen_clock (Absolute 2) (sample_engine LoopAbsent) = Ok (true, st')
    /\ trace st' = [Fed "a"%string].
Proof.
  destruct (seek_feeds_the_poster frozen_clock 2 (sample_engine LoopAbsent) eq_refl)
    as (st' & poster & S & G & _ & S0).
  assert (P : poster = ["a"%string]).
  { vm_compute in G. inversion G. reflexivity. }
  exists st'. split; [exact S|].
  rewrite (S0 ltac:(vm_compute; discriminate) eq_refl), P. reflexivity.
Defined.

Lemma steps_feed_the_next_frames_witness :
  exists st',
    steps 5 (sample_engine LoopAbsent) = Ok (tt, st')
    /\ trace st' = [Fed "a"; Fed "b"]%string
    /\ nextFrameIndex st' = 2%nat.
Proof.
  destruct (steps_feed_the_next_frames 5 (sample_engine LoopAbsent))
    as (st' & R & T & I & _).
  exists st'. split; [exact R|]. split; [exact T | exact I].
Defined.

Lemma batched_frames_are_spaced_witness :
  min_frame_time (Some 2) <= 2 - 0.
Proof.
  exact (proj1 (batched_frames_are_spaced
                  [(0, "a"); (1, "b"); (2, "c")]%string (Some 2))
           0%nat (0, "ab"%string) (2, "c"%string) eq_refl eq_refl).
Defined.

Lemma batch_counts_are_exact_witness :
  batch_counts [(0, "a"); (1, "b"); (2, "c")]%string (Some 2) = (3%nat, 2%nat)
  /\ batchFrames [] (Some 2) = [].
Proof.
  destruct (batch_counts_are_exact [(0, "a"); (1, "b"); (2, "c")]%string (Some 2))
    as (C & _).
  split; [exact C|].
  apply (proj2 (proj2 (batch_counts_are_exact [] (Some 2)))). reflexivity.
Defined.

(** ** The timer callback: catching up *)

Section CatchUp.

Variable now : nat -> Q.

Lemma runFrame_loop_overdue (rest : list frame) :
  forall current st,
    (forall k e, In e rest -> time e * 1000 < now k - startTime st) ->
    runFrame_loop now current rest st = Ok (tt, emit_timed (current :: rest) st).
Proof.
  induction rest as [|next rest IH]; intros current st H.
  - reflexivity.
  - cbn [runFrame_loop]. unfold bind, feed, modify, read_clock, get.
    cbn [fst snd].
    match goal with
    | |- context [Num.ltb ?a ?b] =>
        assert (X : Num.ltb a b = true)
          by (apply ltb_lt; exact (H (clock st) next (or_introl eq_refl)));
        rewrite X
    end.
    apply (IH next (set_clock (S (clock (emit current st))) (emit current st))).
    intros k e He. apply (H k e). right. exact He.
Qed.

(** X16: one firing of the timer feeds at least the frame at the cursor.
    It feeds that frame only when the frame after it is not yet due by the
    clock, and a timer is then set for that frame; and it feeds all the
    frames that are left when they are all overdue, whatever their number:
    a late timer is caught up with in one firing. *)
Theorem timer_catches_up :
  forall (st : engine) (current : frame) (rest : list frame),
    frames_from (nextFrameIndex st) st = current :: rest ->
    (exists fedNow later,
        current :: rest = fedNow ++ later /\ fedNow <> []
        /\ runFrame_loop now current rest st = Ok (tt, emit_timed fedNow st))
    /\ (forall next rest',
          rest = next :: rest' ->
          now (clock st) - startTime st <= time next * 1000 ->
          runFrame now st = Ok (tt, scheduled now next (emit_timed [current] st)))
    /\ ((forall k e, In e rest -> time e * 1000 < now k - startTime st) ->
        runFrame_loop now current rest st
        = Ok (tt, emit_timed (current :: rest) st)
        /\ trace (emit_timed (current :: rest) st)
           = trace st ++ map Fed (payloads (current :: rest))
        /\ nth_error (frames st)
             (nextFrameIndex (emit_timed (current :: rest) st)) = None).
Proof.
  intros st current rest Fr. split; [|split].
  - apply runFrame_loop_spec.
  - intros next rest' -> Hdue.
    assert (L : runFrame_loop now current (next :: rest') st
                = Ok (tt, emit_timed [current] st)).
    { cbn [runFrame_loop]. unfold bind, feed, modify, read_clock, get.
      cbn [fst snd].
      match goal with
      | |- context [Num.ltb ?a ?b] =>
          assert (X : Num.ltb a b = false) by (apply ltb_ge; exact Hdue);
          rewrite X
      end.
      reflexivity. }
    unfold runFrame. unfold bind at 1. unfold get at 1. rewrite Fr.
    unfold bind at 1. rewrite L, stack_limit_two.
    apply schedule_next.
    destruct (emit_timed_fields [current] st) as (_ & I & F & _).
    rewrite F, I, nth_error_skipn_hd.
    pose proof (frames_from_split st (nextFrameIndex st) [current] (next :: rest') Fr)
      as Sp.
    unfold frames_from in Sp. now rewrite Sp.
  - intros H. split; [now apply runFrame_loop_overdue|].
    destruct (emit_timed_fields (current :: rest) st) as (T & I & F & _).
    split; [exact T|].
    rewrite I, nth_error_skipn_hd.
    pose proof (frames_from_split st (nextFrameIndex st) (current :: rest) []) as Sp.
    unfold frames_from in Sp. rewrite Sp; [reflexivity|].
    unfold frames_from in Fr. now rewrite Fr, app_nil_r.
Qed.

End CatchUp.

Lemma timer_catches_up_witness :
  runFrame_loop (fun _ => 5000) (0, "a"%string) [(1, "b"%string)]
    (sample_engine LoopAbsent)
  = Ok (tt, emit_timed two_frames (sample_engine LoopAbsent)).
Proof.
  apply (proj2 (proj2 (timer_catches_up (fun _ => 5000) (sample_engine LoopAbsent)
                         (0, "a"%string) [(1, "b"%string)] eq_refl))).
  intros k e [<-|[]]. vm_compute. reflexivity.
Defined.

(** ** Playing from the start *)

Section Playing.

Variable now : nat -> Q.

(** [play()] on an engine at the start of its timeline, with no timer
    pending: the frames before the start offset, if there is one, are fed,
    and a timer is set for the next frame. *)
Lemma play_from_start (st : engine) :
  initialised st -> 0 <= duration st ->
  timeoutId st = None -> nextFrameIndex st = 0%nat -> elapsedVirtualTime st = 0 ->
  exists st1,
    play now st = Ok (true, st1)
    /\ timeoutId st1 <> None
    /\ frames st1 = frames st /\ duration st1 = duration st /\ loop st1 = loop st
    /\ playCount st1 = playCount st
    /\ (nextFrameIndex st1 < List.length (frames st))%nat
    /\ trace st1 = trace st ++ map Fed (payloads (firstn (nextFrameIndex st1) (frames st))).
Proof.
  intros [Hne Hlast] Hd Ht Hi He.
  rewrite play_spec, Ht, resume_spec.
  destruct (frames_from_cons st 0) as (e0 & l0 & Fr & N0).
  { apply nonempty_length in Hne. lia. }
  unfold cued, primed. rewrite Hi, N0.
  destruct (effectiveStartAt st) as [s|] eqn:Es.
  - destruct (sought_fields now (Absolute s) st)
      as (T1 & I1 & _ & F1 & D1 & L1 & Ti1 & _ & _ & P1 & _).
    assert (Hh : halted now st = st) by (unfold halted; now rewrite Ht).
    rewrite Hh in T1, I1.
    set (t := target now (Absolute s) st) in *.
    assert (Ht0 : 0 <= t /\ t <= duration st * 1000)
      by (apply target_of_bounds; exact Hd).
    assert (Hpos : positioned t st = st).
    { unfold positioned. rewrite He.
      destruct (ltb_spec t 0) as [X|X]; [lra | reflexivity]. }
    unfold caught_up in T1, I1. rewrite Hpos, Hi in T1, I1.
    unfold frames_from in T1, I1. cbn [skipn] in T1, I1.
    rewrite Nat.add_0_l in I1.
    set (sg := sought now (Absolute s) st) in *.
    pose proof (before_length_lt t (frames st) Hne) as Lt.
    rewrite <- Hlast in Lt. specialize (Lt (proj2 Ht0)).
    destruct (anchored_fields now sg) as (Fa & Ia & La & Pa & Ta & Da & _).
    destruct (frames_from_cons (anchored now sg) (nextFrameIndex (anchored now sg)))
      as (e & l & Fe & Ne).
    { rewrite Fa, Ia, F1, I1. exact Lt. }
    rewrite stack_limit_two, (schedule_next now _ _ e Ne).
    destruct (scheduled_fields now e (anchored now sg))
      as (Fs & Is & Ls & Ps & Ts & Ds & _ & Tis & _).
    exists (scheduled now e (anchored now sg)).
    split; [reflexivity|]. rewrite Tis, Fs, Fa, F1, Ds, Da, D1, Ls, La, L1.
    rewrite Ps, Pa, P1, Is, Ia, I1, Ts, Ta, T1.
    split; [discriminate|]. repeat split; [exact Lt|].
    do 3 f_equal.
    transitivity (firstn (List.length (before t (frames st)))
                    (before t (frames st) ++ from_target t (frames st)));
      [|now rewrite before_from_target].
    rewrite firstn_app, Nat.sub_diag, firstn_O, app_nil_r.
    symmetry. apply firstn_all.
  - destruct (anchored_fields now st) as (Fa & Ia & La & Pa & Ta & Da & _).
    assert (Ne : nth_error (frames (anchored now st))
                   (nextFrameIndex (anchored now st)) = Some e0)
      by (rewrite Fa, Ia, Hi; exact N0).
    rewrite stack_limit_two, (schedule_next now _ _ e0 Ne).
    destruct (scheduled_fields now e0 (anchored now st))
      as (Fs & Is & Ls & Ps & Ts & Ds & _ & Tis & _).
    exists (scheduled now e0 (anchored now st)).
    split; [reflexivity|]. rewrite Tis, Fs, Fa, Ds, Da, Ls, La, Ps, Pa, Is, Ia, Ts, Ta, Hi.
    split; [discriminate|]. repeat split.
    + apply nonempty_length in Hne. lia.
    + simpl. now rewrite app_nil_r.
Qed.

(** With [loop = true] a firing of the timer always leaves a timer
    pending: the engine never stops. *)
Lemma run_forever :
  forall n st,
    frames st <> [] -> loop st = LoopBool true -> timeoutId st <> None ->
    (nextFrameIndex st < List.length (frames st))%nat ->
    exists st' more,
      run now n st = Ok (tt, st')
      /\ timeoutId st' <> None
      /\ (nextFrameIndex st' < List.length (frames st'))%nat
      /\ trace st' = trace st ++ map Fed more.
Proof.
  induction n as [|n IH]; intros st Hne Hl Ht Hi.
  - exists st, []. simpl. rewrite app_nil_r. auto.
  - cbn [run]. unfold bind at 1. unfold get at 1.
    destruct (timeoutId st) as [h|] eqn:Th; [clear Ht | congruence].
    unfold bind at 1.
    destruct (runFrame_spec now st Hne Hi) as (fedNow & later & S1 & N1 & M).
    destruct (emit_timed_fields fedNow st) as (T1 & I1 & F1 & _ & L1 & _ & _ & P1).
    pose proof (frames_from_length st _ (Nat.lt_le_incl _ _ Hi)) as Len.
    rewrite S1, length_app in Len.
    destruct later as [|e later'].
    + rewrite Hl in M. simpl in M. destruct M as (e0 & He0 & R). rewrite R.
      destruct (IH (scheduled now e0 (restarted now (emit_timed fedNow st))))
        as (st' & more & R' & T' & I' & Tr').
      { simpl. now rewrite F1. }
      { simpl. now rewrite L1. }
      { simpl. discriminate. }
      { simpl. rewrite F1. apply nonempty_length in Hne. lia. }
      exists st', (payloads fedNow ++ reset_terminal :: more).
      split; [exact R'|]. split; [exact T'|]. split; [exact I'|].
      rewrite Tr'. simpl. rewrite T1, map_app, <- !app_assoc. reflexivity.
    + rewrite M.
      destruct (IH (scheduled now e (emit_timed fedNow st)))
        as (st' & more & R' & T' & I' & Tr').
      { simpl. now rewrite F1. }
      { simpl. now rewrite L1. }
      { simpl. discriminate. }
      { simpl. rewrite F1, I1. simpl in Len. lia. }
      exists st', (payloads fedNow ++ more).
      split; [exact R'|]. split; [exact T'|]. split; [exact I'|].
      rewrite Tr'. simpl. rewrite T1, map_app, <- !app_assoc. reflexivity.
Qed.

(** Without a replay to come, the firings of the timer feed what is left
    of the timeline and stop the engine at [duration]. *)
Lemma run_once :
  forall n st,
    frames st <> [] -> no_replay (loop st) -> timeoutId st <> None ->
    (nextFrameIndex st < List.length (frames st))%nat ->
    (List.length (frames st) - nextFrameIndex st <= n)%nat ->
    exists st',
      run now n st = Ok (tt, st')
      /\ timeoutId st' = None
      /\ effectiveStartAt st' = None
      /\ pauseElapsedTime st' = Some (duration st * 1000)
      /\ nth_error (frames st') (nextFrameIndex st') = None
      /\ frames st' = frames st
      /\ trace st' = trace st
                       ++ map Fed (payloads (frames_from (nextFrameIndex st) st))
                       ++ [stopped_ended].
Proof.
  induction n as [|n IH]; intros st Hne Hl Ht Hi Hn.
  { exfalso. lia. }
  cbn [run]. unfold bind at 1. unfold get at 1.
  destruct (timeoutId st) as [h|] eqn:Th; [clear Ht | congruence].
  unfold bind at 1.
  destruct (runFrame_spec now st Hne Hi) as (fedNow & later & S1 & N1 & M).
  destruct (emit_timed_fields fedNow st) as (T1 & I1 & F1 & D1 & L1 & _ & _ & P1).
  pose proof (frames_from_split st _ _ _ S1) as Sp.
  pose proof (frames_from_length st _ (Nat.lt_le_incl _ _ Hi)) as Len.
  rewrite S1, length_app in Len.
  pose proof (nonempty_length fedNow N1) as Lf.
  destruct later as [|e later'].
  - rewrite (Hl (S (playCount st))) in M. rewrite M.
    rewrite run_idle by reflexivity.
    exists (ended (emit_timed fedNow st)). simpl. rewrite F1, T1, D1, I1.
    split; [reflexivity|]. split; [reflexivity|]. split; [reflexivity|].
    split; [reflexivity|]. split.
    { apply nth_error_None. simpl in Len. lia. }
    split; [reflexivity|].
    rewrite S1, app_nil_r, <- app_assoc. reflexivity.
  - rewrite M.
    destruct (IH (scheduled now e (emit_timed fedNow st)))
      as (st' & R' & T' & E' & P' & N' & F' & Tr').
    { simpl. now rewrite F1. }
    { simpl. now rewrite L1. }
    { simpl. discriminate. }
    { simpl. rewrite F1, I1. simpl in Len. lia. }
    { simpl. rewrite F1, I1. lia. }
    exists st'. rewrite R'. simpl in P', F', Tr'. rewrite D1 in P'. rewrite F1 in F'.
    rewrite T1, I1 in Tr'. unfold frames_from in Tr', Sp. simpl in Tr'.
    rewrite F1, Sp in Tr'.
    split; [reflexivity|]. split; [exact T'|]. split; [exact E'|].
    split; [exact P'|]. split; [exact N'|]. split; [exact F'|].
    rewrite Tr', S1. unfold payloads. rewrite !map_app, <- !app_assoc. reflexivity.
Qed.

End Playing.

(** X17: with [loop = true], after a successful [init] and one call of
    [play()], however often the timer fires and whatever the clock reads, a
    timer is pending again afterwards and nothing but payloads (and
    terminal resets) has been fed: the state 'stopped' is never
    signalled. *)
Theorem loop_true_never_ends :
  forall (now : nat -> Q) (fetch : string -> response) (src : source)
         (limit : option idle_limit) (start : option Q)
         (res : nat * nat * Q) (st0 : engine),
    init fetch src (recording limit start (LoopBool true)) = Ok (res, st0) ->
    0 <= duration st0 ->
    forall n, exists st1 st',
      play now st0 = Ok (true, st1)
      /\ run now n st1 = Ok (tt, st')
      /\ timeoutId st' <> None
      /\ only_fed (trace st').
Proof.
  intros now fetch src limit start res st0 Hinit Hd n.
  destruct (init_ok _ _ _ _ _ Hinit)
    as (fetched & _ & _ & Hin & _ & _ & Hi & He & Ht & _ & Hl & Htr).
  simpl in Hi, He, Ht, Hl, Htr.
  destruct (play_from_start now st0 Hin Hd Ht Hi He)
    as (st1 & P & T1 & F1 & _ & L1 & _ & I1 & Tr1).
  destruct Hin as [Hne _].
  destruct (run_forever now n st1) as (st' & more & R & T' & _ & Tr').
  { now rewrite F1. }
  { now rewrite L1. }
  { exact T1. }
  { now rewrite F1. }
  exists st1, st'. split; [exact P|]. split; [exact R|]. split; [exact T'|].
  eexists. rewrite Tr', Tr1, Htr. simpl. rewrite <- map_app. reflexivity.
Qed.

Lemma loop_true_never_ends_witness :
  exists st1 st',
    play frozen_clock (sample_engine (LoopBool true)) = Ok (true, st1)
    /\ run frozen_clock 7 st1 = Ok (tt, st')
    /\ timeoutId st' <> None
    /\ only_fed (trace st').
Proof.
  apply (loop_true_never_ends frozen_clock no_network (inline_source two_frames None)
           None None _ _ (init_sample (LoopBool true))).
  vm_compute. discriminate.
Defined.

(** X18: when [loop] asks for no replay -- absent, the default, or [false]
    -- then after a successful [init] and one call of [play()], as many
    firings of the timer as there are frames are enough to stop the engine:
    the timeline has been fed once, in order, the state 'stopped' has been
    signalled with the reason 'ended', no timer is pending, no frame is
    left, and [getCurrentTime] returns [duration], times 1000, divided by
    1000. *)
Theorem plays_once_without_loop :
  forall (now : nat -> Q) (fetch : string -> response) (src : source)
         (limit : option idle_limit) (start : option Q) (lp : loop_setting)
         (res : nat * nat * Q) (st0 : engine),
    no_replay lp ->
    init fetch src (recording limit start lp) = Ok (res, st0) ->
    0 <= duration st0 ->
    forall n, (List.length (frames st0) <= n)%nat ->
    exists st1 st',
      play now st0 = Ok (true, st1)
      /\ run now n st1 = Ok (tt, st')
      /\ timeoutId st' = None
      /\ nth_error (frames st') (nextFrameIndex st') = None
      /\ trace st' = map Fed (payloads (frames st0)) ++ [stopped_ended]
      /\ getCurrentTime now st' = Ok (duration st0 * 1000 / 1000, st').
Proof.
  intros now fetch src limit start lp res st0 Hlp Hinit Hd n Hn.
  destruct (init_ok _ _ _ _ _ Hinit)
    as (fetched & _ & _ & Hin & _ & _ & Hi & He & Ht & _ & Hl & Htr).
  simpl in Hi, He, Ht, Hl, Htr.
  destruct (play_from_start now st0 Hin Hd Ht Hi He)
    as (st1 & P & T1 & F1 & D1 & L1 & _ & I1 & Tr1).
  destruct Hin as [Hne _].
  destruct (run_once now n st1) as (st' & R & T' & E' & P' & N' & F' & Tr').
  { now rewrite F1. }
  { now rewrite L1, Hl. }
  { exact T1. }
  { now rewrite F1. }
  { rewrite F1. lia. }
  exists st1, st'.
  split; [exact P|]. split; [exact R|]. split; [exact T'|]. split; [exact N'|].
  split.
  - rewrite Tr', Tr1, Htr. simpl. unfold frames_from. rewrite F1.
    rewrite app_assoc, <- map_app. unfold payloads. rewrite <- map_app.
    now rewrite firstn_skipn.
  - unfold getCurrentTime, bind, get, ret. rewrite T', P', D1. reflexivity.
Qed.

Lemma plays_once_without_loop_witness :
  exists st1 st',
    play frozen_clock (sample_engine LoopAbsent) = Ok (true, st1)
    /\ run frozen_clock 2 st1 = Ok (tt, st')
    /\ timeoutId st' = None
    /\ nth_error (frames st') (nextFrameIndex st') = None
    /\ trace st' = [Fed "a"; Fed "b"; StateSet "stopped" "ended"]%string
    /\ getCurrentTime frozen_clock st' = Ok (1 * 1000 / 1000, st').
Proof.
  assert (H1 : no_replay LoopAbsent) by (intros c; reflexivity).
  assert (H3 : 0 <= duration (sample_engine LoopAbsent)) by (vm_compute; discriminate).
  assert (H4 : (List.length (frames (sample_engine LoopAbsent)) <= 2)%nat)
    by (vm_compute; lia).
  exact (plays_once_without_loop frozen_clock no_network
           (inline_source two_frames None) None None LoopAbsent _ _ H1
           (init_sample LoopAbsent) H3 2%nat H4).
Defined.

(** ** Playing again, pausing and resuming *)

Lemma target_of_zero (d : Q) : 0 <= d -> target_of 0 d == 0.
Proof.
  intros H. unfold target_of.
  destruct (max_spec 0 0) as [[A B]|[A B]]; rewrite B;
    destruct (min_spec 0 d) as [[C D]|[C D]]; rewrite D; lra.
Qed.

(** X19: [play()] on an engine that has reached the end of its timeline
    starts the timeline again: the terminal reset is fed, the cursor and
    [elapsedVirtualTime] go back to 0 and a timer is set for the first
    frame.  The play count is not reset. *)
Theorem play_after_the_end_restarts :
  forall (now : nat -> Q) (st : engine),
    initialised st -> 0 <= duration st ->
    (forall e l, frames st = e :: l -> 0 <= time e) ->
    timeoutId st = None ->
    nth_error (frames st) (nextFrameIndex st) = None ->
    0 < elapsedVirtualTime st ->
    exists st1,
      play now st = Ok (true, st1)
      /\ trace st1 = trace st ++ [Fed reset_terminal]
      /\ nextFrameIndex st1 = 0%nat
      /\ elapsedVirtualTime st1 = 0
      /\ timeoutId st1 <> None
      /\ effectiveStartAt st1 = None
      /\ playCount st1 = playCount st.
Proof.
  intros now st [Hne Hlast] Hd H0 Ht Hend Hev.
  rewrite play_spec, Ht, resume_spec. unfold cued, primed. rewrite Hend.
  cbn [effectiveStartAt set_effectiveStartAt].
  set (s0 := set_effectiveStartAt (Some 0) st).
  destruct (sought_fields now (Absolute 0) s0)
    as (T1 & I1 & E1 & F1 & _ & _ & _ & Ef1 & _ & P1 & _).
  cbv zeta in T1, I1, E1.
  assert (Hh : halted now s0 = s0) by (unfold halted; simpl; now rewrite Ht).
  rewrite Hh in T1, I1, E1.
  pose proof (target_of_zero (duration st) Hd) as Tz.
  change (target_of 0 (duration st)) with (target now (Absolute 0) s0) in Tz.
  set (t := target now (Absolute 0) s0) in *.
  destruct (positioned_fields t s0) as (Fp & _ & _ & _ & _ & _ & Cp).
  destruct Cp as [(_ & A & B & C)|[Hge _]]; [|simpl in Hge; lra].
  assert (Hc : caught_up t s0 = []).
  { unfold caught_up, frames_from. rewrite B, Fp. simpl.
    destruct (frames st) as [|e l] eqn:Fr; [reflexivity|].
    simpl. pose proof (H0 e l eq_refl).
    destruct (ltb_spec (time e * 1000) t) as [X|X]; [lra | reflexivity]. }
  rewrite Hc, A in T1. rewrite Hc, B in I1. rewrite Hc, C in E1.
  change (map Fed (payloads [])) with (@nil event) in T1.
  change (trace s0) with (trace st) in T1.
  change (0 + List.length (@nil frame))%nat with 0%nat in I1.
  cbv beta iota in E1.
  change (frames s0) with (frames st) in F1.
  change (playCount s0) with (playCount st) in P1.
  rewrite app_nil_r in T1.
  set (sg := sought now (Absolute 0) s0) in *.
  destruct (anchored_fields now sg) as (Fa & Ia & _ & Pa & Ta & _ & Ea & _ & Efa).
  destruct (frames_from_cons (anchored now sg) (nextFrameIndex (anchored now sg)))
    as (e & l & _ & Ne).
  { rewrite Fa, Ia, F1, I1. apply nonempty_length in Hne. lia. }
  rewrite stack_limit_two, (schedule_next now _ _ e Ne).
  destruct (scheduled_fields now e (anchored now sg))
    as (_ & Is & _ & Ps & Ts & _ & Es & Tis & Efs).
  exists (scheduled now e (anchored now sg)).
  split; [reflexivity|].
  rewrite Ts, Ta, T1, Is, Ia, I1, Es, Ea, E1, Tis, Efs, Efa, Ef1, Ps, Pa, P1.
  repeat split; try reflexivity. discriminate.
Qed.

Lemma play_after_the_end_restarts_witness :
  exists st1,
    play frozen_clock (ended (emit_all two_frames (sample_engine LoopAbsent)))
    = Ok (true, st1)
    /\ trace st1 = [Fed "a"; Fed "b"; StateSet "stopped" "ended"; Fed reset_terminal]%string
    /\ nextFrameIndex st1 = 0%nat
    /\ timeoutId st1 <> None.
Proof.
  destruct (play_after_the_end_restarts frozen_clock
              (ended (emit_all two_frames (sample_engine LoopAbsent))))
    as (st1 & P & T & I & _ & Ti & _).
  - split; [discriminate | reflexivity].
  - vm_compute. discriminate.
  - intros e l H. inversion H; subst. simpl. lra.
  - reflexivity.
  - reflexivity.
  - vm_compute. reflexivity.
  - exists st1. split; [exact P|]. split; [exact T|]. split; [exact I | exact Ti].
Defined.

(** X20: [pause()] during playback followed by [play()] continues where
    playback was: nothing is fed, the cursor stays, a timer is set for the
    same frame, and the wall-clock anchor [startTime] becomes the reading
    of the clock at [play()] less the elapsed time noted by [pause()], so
    that this elapsed time is the elapsed time at the moment of
    resuming. *)
Theorem pause_then_play_continues :
  forall (now : nat -> Q) (st : engine) (h : handle) (e : frame),
    timeoutId st = Some h ->
    effectiveStartAt st = None ->
    nth_error (frames st) (nextFrameIndex st) = Some e ->
    exists st1 st2,
      pause now st = Ok (true, st1)
      /\ timeoutId st1 = None
      /\ pauseElapsedTime st1 = Some (now (clock st) - startTime st)
      /\ play now st1 = Ok (true, st2)
      /\ trace st2 = trace st
      /\ nextFrameIndex st2 = nextFrameIndex st
      /\ elapsedVirtualTime st2 = elapsedVirtualTime st
      /\ timeoutId st2 = Some (delay_until now e (anchored now st1))
      /\ startTime st2 = now (S (clock st)) - (now (clock st) - startTime st).
Proof.
  intros now st h e Ht Ef Ne.
  exists (paused now st), (scheduled now e (anchored now (paused now st))).
  split; [rewrite pause_spec; unfold halted; now rewrite Ht|].
  split; [reflexivity|]. split; [reflexivity|].
  split.
  - assert (Tp : timeoutId (paused now st) = None) by reflexivity.
    assert (C : cued now (paused now st) = paused now st).
    { unfold cued, primed. simpl. rewrite Ne. simpl. now rewrite Ef. }
    assert (Ne' : nth_error (frames (anchored now (paused now st)))
                    (nextFrameIndex (anchored now (paused now st))) = Some e)
      by exact Ne.
    rewrite play_spec, Tp, resume_spec, C, stack_limit_two.
    now rewrite (schedule_next now _ _ e Ne').
  - simpl. repeat split; reflexivity.
Qed.

Lemma pause_then_play_continues_witness :
  exists st1 st2,
    pause (fun n => inject_Z (Z.of_nat n) * 100)
      (scheduled (fun n => inject_Z (Z.of_nat n) * 100) (1, "b"%string)
         (emit (0, "a"%string) (set_effectiveStartAt None (sample_engine LoopAbsent))))
    = Ok (true, st1)
    /\ play (fun n => inject_Z (Z.of_nat n) * 100) st1 = Ok (true, st2)
    /\ fed (trace st2) = ["a"%string]
    /\ nextFrameIndex st2 = 1%nat.
Proof.
  destruct (pause_then_play_continues (fun n => inject_Z (Z.of_nat n) * 100)
              (scheduled (fun n => inject_Z (Z.of_nat n) * 100) (1, "b"%string)
                 (emit (0, "a"%string)
                    (set_effectiveStartAt None (sample_engine LoopAbsent))))
              _ (1, "b"%string) eq_refl eq_refl eq_refl)
    as (st1 & st2 & P & _ & _ & Pl & T & I & _).
  exists st1, st2. split; [exact P|]. split; [exact Pl|].
  split; [rewrite T; reflexivity | rewrite I; reflexivity].
Defined.

Lemma seek_twice_feeds_once_witness :
  timeoutId playing_sample <> None
  /\ play frozen_clock (sample_engine LoopAbsent) = Ok (true, playing_sample)
  /\ exists st1 st2,
       seek frozen_clock (Absolute (1 # 2)) playing_sample = Ok (true, st1)
       /\ seek frozen_clock (Absolute (1 # 2)) st1 = Ok (true, st2)
       /\ timeoutId st1 <> None
       /\ fed (trace st1) = ["a"%string]
       /\ trace st2 = trace st1.
Proof.
  split; [discriminate|]. split; [vm_compute; reflexivity|].
  destruct (seek_twice_feeds_once frozen_clock (1 # 2) playing_sample)
    as (st1 & st2 & S1 & S2 & T & _).
  - split; [discriminate | reflexivity].
  - vm_compute. discriminate.
  - intros _. simpl. lia.
  - exists st1, st2. split; [exact S1|]. split; [exact S2|].
    vm_compute in S1. inversion S1; subst st1.
    split; [discriminate|]. split; [reflexivity | exact T].
Defined.

Lemma init_well_timed_witness :
  sorted (frames (sample_engine LoopAbsent))
  /\ 0 <= duration (sample_engine LoopAbsent).
Proof.
  apply (init_well_timed no_network (inline_source two_frames None)
           (recording None None LoopAbsent) (sample_engine LoopAbsent)
           (80%nat, 24%nat, 1) 0).
  - intros fetched. split; simpl; [split; [lra | exact I] | lra].
  - intros fetched. exact I.
  - intros fetched. split; [lia | split; vm_compute; reflexivity].
  - apply init_sample.
Defined.
